(* ===== verification/_CoqProject ===== *)
-Q . S2P
Prelude.v
PyBuiltins.v
Graph.v
Walks.v
Topo.v
KahnSpec.v
Reach.v
PathCount.v
Enumerate.v
Insertion.v
Items.v
Output.v
Driver.v
Tests.v
