(* ===== verification/Prelude.v ===== *)
(** * lowLevelProblem: a verified model of the DAG path-counting suite

    The program ([src/low_level_problem.py], data in [src/edges.py], tests
    in [src/tests/tests.py]) takes a list of weighted edges [(u, v, w)] and
    a source vertex (from [src/edges.py], or the copy in the module when
    that import fails), and

    - builds forward and reverse adjacency maps ([build_graph]);
    - orders the vertices with Kahn's algorithm ([topo_order]), raising
      [ValueError] on a cycle;
    - counts source-to-vertex paths by a DP over that order
      ([count_paths_from_source]) and picks the most reachable vertex V
      with Python's [max(nodes, key=...)] ([solve_item1]);
    - enumerates every path to a target by DFS with backtracking
      ([enumerate_paths_dfs]) and sorts them by cost ([solve_item2]);
    - computes undirected neighbours and the reachable set
      ([neighbors_undirected], [reachable_from_source]);
    - plans the insertion of a new vertex V' whose parents avoid the
      neighbours of V, with a feasibility cap, a greedy parent choice and a
      re-count on the augmented graph ([propose_V_prime_insertion]), which
      items 3 to 6 call under the strict or the permissive policy;
    - prints its results, item by item, as [main] selects from
      [sys.argv[1]];
    - and is checked by seven [unittest] tests.

    Each Python function is a Rocq function of the same name.  Dicts are
    stdpp [gmap]s, sets [gset]s, lists Rocq lists; integers are [Z] (Python
    integers do not overflow).  Exceptions are [Err] values of the monad
    [Result]; loops are folds, or [Fixpoint]s on fuel where the source has a
    [while] loop or recursion.

    ** Files, in dependency order

    - [Prelude] (this file): the [llp_scope] notation [let*] of the error
      monad [Result] ([PyError] lists the exceptions the code and its
      tests can raise: three [ValueError]s, [KeyError], [IndexError]), integer sums [sumZ] and counts [countZ] over lists, list
      positions, the [llp] hint databases and the [inv_bind] tactic.
    - [PyBuiltins]: the built-ins the code relies on: dict reads with a
      default ([get0], [adj_get] for [defaultdict(list)]), [setdefault],
      [{n: 0 for n in nodes}], [max(l, key=k)] ([py_max_by]: first maximum
      wins, [ValueError] on an empty list), [sorted(l, key=k,
      reverse=True)] ([sorted_desc]: stable) and [sorted] on integers,
      with the lemmas the components use: [max] returns the first
      maximum, [sorted_desc] is a stable sort by decreasing key.
    - [Graph]: [build_graph], its contract [build_graph_spec], the
      well-formedness invariant [graph_wf] of its output
      ([build_graph_wf]) and the round trip [build_graph_roundtrip]
      (decoding [adj] gives back the input edges); the dataset [EDGES],
      [SOURCE] of [src/edges.py] and the module's fallback copy
      ([load_dataset]: both branches of the import give the same data).
    - [Walks]: the specification of path counting: walks counted forwards
      and backwards, equal; the class [TopoRank] of ranks increasing along
      edges, under which counts stabilise ([paths_count]), satisfy the
      recurrence of spec section 8, are unique solutions of it
      ([recurrence_unique]), and are positive exactly on reachable vertices.
    - [Topo]: Kahn's algorithm, its invariant [kahn_inv], soundness,
      completeness, the cycle error and termination.
    - [KahnSpec]: the abstract, nondeterministic source-removal relation
      [kahn_step], the invariant of its runs ([kahn_reachable_ok]), and
      the refinement theorem [kahn_loop_refines]: the code's FIFO loop is
      a complete run of it.
    - [Reach]: neighbours and the stack-based reachability loop, exact
      and terminating.
    - [PathCount]: the DP; it satisfies the recurrence, hence refines
      [Walks] ([count_paths_correct], [ways_are_path_counts]), whatever
      topological order is used; positive counts are the reachable
      vertices.
    - [Enumerate]: the DFS with its shared [paths] and [path] lists as an
      explicit state [dfs_state], its pure equivalent, soundness and
      completeness of the reported paths and costs, simple paths, and
      [len(paths) = ways[target]].
    - [Insertion]: [solve_item1] and [propose_V_prime_insertion]: item 1's
      [V] has the most walks from the source, the smallest id among ties
      ([solve_item1_spec]); what each verdict reports, the allowed set, the greedy pick, the fresh sink
      [V'] that always becomes the most reachable vertex under the default
      id, with a count between [ways[V]] and the cap, the errors, the
      absence of [KeyError] ([propose_reads_present]); runs of the tests
      and of the edge cases.
    - [Items]: items 2 to 6, the driver [main] (which item an option
      runs) and their runs on the dataset.
    - [Output]: the standard output: Python's [str] of ints, lists,
      tuples and bools, the [ways] dict in its insertion order, the lines
      of every item and of [main] ([main_stdout]), and the round trip of
      item 5's edges through the input format [{u, v, w}].
    - [Driver]: [int(sys.argv[1])] ([py_int], Python's [int()] on ASCII
      strings, raising [ValueError]) and the whole run [program] with its
      standard output.
    - [Tests]: [src/tests/tests.py]: [setUp] and the seven tests as
      functions of the fixture with their [unittest] outcome; the suite
      passes on the dataset, and the feasibility test passes on every
      acyclic graph whose source is a vertex.

    Each component file ends with its theorems instantiated on [EDGES],
    [SOURCE], evaluated by [vm_compute].

    ** Fuel

    - [kahn_loop] runs on [len(nodes)]: each iteration orders a node and
      nodes are ordered at most once ([kahn_run], [kahn_loop_terminates]).
    - [reach_loop] runs on [2 + ] the number of adjacency entries: the
      stack length plus the entries of unseen keys drops at every
      iteration ([reach_step_measure], [reachable_from_source_terminates]).
    - [dfs] runs on [len(adj) + 1]: in a graph that [topo_order] accepts a
      walk visits at most [len(nodes)] vertices, so the enumeration is
      complete ([enumerate_complete]).  The Python recursion limit (1000)
      is not modelled; the DFS depth is at most the number of vertices.

    ** Not modelled

    - the Unicode digits and spaces that [int()] accepts besides ASCII
      ones, in [sys.argv[1]];
    - where an exception goes: a run that raises is its [Err] value (and
      prints what it printed before), not the traceback on [stderr];
    - of the [unittest] harness, only what decides a test's outcome (a
      failed assertion, an exception, a skip) is modelled, not its
      reporting;
    - the Python recursion limit (1000) of the DFS, which the DFS depth
      (at most the number of vertices) reaches only on graphs of more
      than 1000 vertices;
    - reads [adj[u]] of a [defaultdict] insert an empty list for a missing
      key; the code never reads the maps again after such a read in a way
      that observes the new key, so reads are modelled without the insert,
      except the one that item 2 returns in its map ([solve_item2]).
*)

From Stdlib Require Import ZArith Lia.
From stdpp Require Import base list gmap.

Declare Scope llp_scope.
Delimit Scope llp_scope with llp.

(** ** Python exceptions as values *)

(** The exceptions the modelled code can raise on its inputs. *)
Inductive PyError : Type :=
  | ValueError_cycle      (* topo_order: "El grafo no es un DAG" *)
  | ValueError_empty_max  (* max() of an empty sequence *)
  | ValueError_int        (* int() of a string that is not an integer *)
  | KeyError (k : Z)      (* d[k] of a plain dict without the key *)
  | IndexError.           (* l[0] or l[-1] of an empty list *)

#[export] Instance PyError_eq_dec : EqDecision PyError.
Proof. solve_decision. Defined.

Inductive Result (A : Type) : Type :=
  | Ok (a : A)
  | Err (e : PyError).
Arguments Ok {A} a.
Arguments Err {A} e.

Definition bind {A B} (m : Result A) (k : A -> Result B) : Result B :=
  match m with Ok a => k a | Err e => Err e end.

Notation "'let*' p ':=' m 'in' k" := (bind m (fun p => k))
  (at level 10, p pattern, m at level 100, k at level 200) : llp_scope.

Open Scope llp_scope.

Lemma bind_Ok {A B} (m : Result A) (k : A -> Result B) (b : B) :
  bind m k = Ok b <-> exists a, m = Ok a /\ k a = Ok b.
Proof. destruct m; simpl; naive_solver. Qed.

(** ** Integer sums and counts over lists *)

Definition sumZ {A} (f : A -> Z) (l : list A) : Z :=
  foldr (fun x acc => (f x + acc)%Z) 0%Z l.

Definition countZ {A} (P : A -> Prop) `{!forall x, Decision (P x)}
    (l : list A) : Z :=
  sumZ (fun x => if decide (P x) then 1%Z else 0%Z) l.

Section Sums.
Context {A : Type}.
Implicit Types (f g : A -> Z) (l : list A).

Lemma sumZ_nil f : sumZ f [] = 0%Z.
Proof. done. Qed.

Lemma sumZ_cons f x l : sumZ f (x :: l) = (f x + sumZ f l)%Z.
Proof. done. Qed.

Lemma sumZ_app f l1 l2 : sumZ f (l1 ++ l2) = (sumZ f l1 + sumZ f l2)%Z.
Proof. induction l1; simpl; lia. Qed.

Lemma sumZ_ext f g l :
  (forall x, x ∈ l -> f x = g x) -> sumZ f l = sumZ g l.
Proof.
  induction l as [|x l IH]; intros H; simpl; [done|].
  rewrite (H x) by set_solver. rewrite IH; [done|].
  intros; apply H; set_solver.
Qed.

Lemma sumZ_add f g l :
  sumZ (fun x => f x + g x)%Z l = (sumZ f l + sumZ g l)%Z.
Proof. induction l; simpl; lia. Qed.

Lemma sumZ_scale f c l :
  sumZ (fun x => c * f x)%Z l = (c * sumZ f l)%Z.
Proof. induction l; simpl; lia. Qed.

Lemma sumZ_zero f l : (forall x, x ∈ l -> f x = 0%Z) -> sumZ f l = 0%Z.
Proof.
  intros H. rewrite (sumZ_ext f (fun _ => 0%Z) l H). clear H.
  induction l; simpl; lia.
Qed.

Lemma sumZ_nonneg f l : (forall x, x ∈ l -> 0 <= f x)%Z -> (0 <= sumZ f l)%Z.
Proof.
  induction l as [|x l IH]; intros H; simpl; [lia|].
  pose proof (H x ltac:(set_solver)). pose proof (IH ltac:(set_solver)). lia.
Qed.

Lemma sumZ_le f g l :
  (forall x, x ∈ l -> f x <= g x)%Z -> (sumZ f l <= sumZ g l)%Z.
Proof.
  induction l as [|x l IH]; intros H; simpl; [lia|].
  pose proof (H x ltac:(set_solver)). pose proof (IH ltac:(set_solver)). lia.
Qed.

Lemma sumZ_pos_elem f l : (0 < sumZ f l)%Z -> exists x, x ∈ l /\ (0 < f x)%Z.
Proof.
  induction l as [|x l IH]; simpl; [lia|]. intros H.
  destruct (decide (0 < f x)%Z); [exists x; set_solver|].
  destruct IH as (y&?&?); [lia|]. exists y. set_solver.
Qed.

Lemma sumZ_elem_le f l x :
  (forall y, y ∈ l -> 0 <= f y)%Z -> x ∈ l -> (f x <= sumZ f l)%Z.
Proof.
  induction l as [|y l IH]; intros Hnn Hx; [set_solver|simpl].
  pose proof (Hnn y ltac:(set_solver)).
  pose proof (sumZ_nonneg f l ltac:(intros; apply Hnn; set_solver)).
  apply elem_of_cons in Hx as [->|Hx]; [lia|].
  pose proof (IH ltac:(intros; apply Hnn; set_solver) Hx). lia.
Qed.

Lemma sumZ_filter (P : A -> Prop) `{!forall x, Decision (P x)} f l :
  sumZ f (filter P l) = sumZ (fun x => if decide (P x) then f x else 0%Z) l.
Proof.
  induction l as [|x l IH]; [done|].
  rewrite filter_cons. simpl. case_decide; simpl; lia.
Qed.

Lemma sumZ_Permutation f l1 l2 : l1 ≡ₚ l2 -> sumZ f l1 = sumZ f l2.
Proof. induction 1; simpl; lia. Qed.

Lemma sumZ_map {B} (h : B -> A) f (l : list B) :
  sumZ f (map h l) = sumZ (fun x => f (h x)) l.
Proof. induction l; simpl; lia. Qed.

(** A sum over a duplicate-free list of the indicator of one of its
    elements is one. *)
Lemma sumZ_indicator `{!EqDecision A} (l : list A) (y : A) :
  NoDup l -> y ∈ l ->
  sumZ (fun x => if decide (y = x) then 1%Z else 0%Z) l = 1%Z.
Proof.
  induction 1 as [|x l Hx Hnd IH]; [set_solver|]; intros Hy; simpl.
  case_decide as Hyx.
  - subst. rewrite sumZ_zero; [lia|]. intros z Hz. case_decide; set_solver.
  - rewrite IH; [lia|]. set_solver.
Qed.

Lemma countZ_nonneg (P : A -> Prop) `{!forall x, Decision (P x)} l :
  (0 <= countZ P l)%Z.
Proof. apply sumZ_nonneg. intros; case_decide; lia. Qed.

Lemma countZ_app (P : A -> Prop) `{!forall x, Decision (P x)} l1 l2 :
  countZ P (l1 ++ l2) = (countZ P l1 + countZ P l2)%Z.
Proof. apply sumZ_app. Qed.

Lemma countZ_pos (P : A -> Prop) `{!forall x, Decision (P x)} l :
  (0 < countZ P l)%Z <-> exists x, x ∈ l /\ P x.
Proof.
  unfold countZ. induction l as [|x l IH]; simpl.
  - split; [lia|]. intros (?&?&?). set_solver.
  - pose proof (countZ_nonneg P l) as Hn. unfold countZ in Hn.
    case_decide; split.
    + intros _. exists x. set_solver.
    + lia.
    + intros H'. destruct (proj1 IH ltac:(lia)) as (y&?&?). exists y. set_solver.
    + intros (y&Hy&HP). apply elem_of_cons in Hy as [->|Hy]; [done|].
      enough (0 < sumZ (fun x : A => if decide (P x) then 1 else 0) l)%Z by lia.
      apply IH. eauto.
Qed.

Lemma countZ_zero (P : A -> Prop) `{!forall x, Decision (P x)} l :
  countZ P l = 0%Z <-> forall x, x ∈ l -> ~ P x.
Proof.
  pose proof (countZ_nonneg P l) as Hnn. pose proof (countZ_pos P l) as Hpos.
  split.
  - intros Hz x Hx HP. assert (0 < countZ P l)%Z by (apply Hpos; eauto). lia.
  - intros Hn. destruct (decide (countZ P l = 0%Z)); [done|].
    destruct (proj1 Hpos ltac:(lia)) as (x&?&?). exfalso; eapply Hn; eauto.
Qed.

Lemma countZ_ext (P Q : A -> Prop) `{!forall x, Decision (P x)}
    `{!forall x, Decision (Q x)} l :
  (forall x, x ∈ l -> P x <-> Q x) -> countZ P l = countZ Q l.
Proof.
  intros Hiff. apply sumZ_ext. intros x Hx.
  do 2 case_decide; naive_solver.
Qed.
End Sums.

Lemma sumZ_prefix_le {A} (f : A -> Z) (l1 l2 : list A) :
  l1 `prefix_of` l2 -> (forall x, x ∈ l2 -> 0 <= f x)%Z -> (sumZ f l1 <= sumZ f l2)%Z.
Proof.
  intros [k ->] Hnn. rewrite sumZ_app.
  assert (0 <= sumZ f k)%Z by (apply sumZ_nonneg; intros x Hx; apply Hnn; set_solver). lia.
Qed.

Lemma length_flat_mapZ {A B} (f : A -> list B) (l : list A) :
  Z.of_nat (length (flat_map f l)) = sumZ (fun x => Z.of_nat (length (f x))) l.
Proof. induction l as [|x l IH]; simpl; [done|]. rewrite length_app. lia. Qed.

(** Exchanging two finite sums. *)
Lemma sumZ_swap {A B} (f : A -> B -> Z) (l1 : list A) (l2 : list B) :
  sumZ (fun x => sumZ (f x) l2) l1 = sumZ (fun y => sumZ (fun x => f x y) l1) l2.
Proof.
  induction l1 as [|x l1 IH]; simpl.
  - symmetry. by apply sumZ_zero.
  - rewrite IH, <- sumZ_add. done.
Qed.

Lemma filter_none {A} (P : A -> Prop) `{!forall x, Decision (P x)} (l : list A) :
  (forall x, x ∈ l -> ~ P x) -> filter P l = [].
Proof.
  induction l as [|x l IH]; intros Hn; [done|].
  rewrite filter_cons, decide_False by set_solver. apply IH. set_solver.
Qed.

Lemma filter_all {A} (P : A -> Prop) `{!forall x, Decision (P x)} (l : list A) :
  (forall x, x ∈ l -> P x) -> filter P l = l.
Proof.
  induction l as [|x l IH]; intros Ha; [done|].
  rewrite filter_cons, decide_True by set_solver. f_equal. apply IH. set_solver.
Qed.

(** ** Stabilisation of fuel-indexed sequences *)

(** Filtering by a disjunction of exclusive predicates splits the list. *)
Lemma filter_or_perm {A} (P Q : A -> Prop) `{!forall x, Decision (P x)}
    `{!forall x, Decision (Q x)} (l : list A) :
  (forall x, P x -> ~ Q x) ->
  filter (fun x => P x \/ Q x) l ≡ₚ filter P l ++ filter Q l.
Proof.
  intros Hd. induction l as [|x l IH]; [done|]. rewrite !filter_cons.
  destruct (decide (P x)) as [Hp|Hp], (decide (Q x)) as [Hq|Hq];
    rewrite ?decide_True, ?decide_False by tauto; simpl.
  - exfalso. by apply (Hd x).
  - by rewrite IH.
  - rewrite IH. apply Permutation_middle.
  - done.
Qed.

Lemma stable_from {A} (f : nat -> A) (k : nat) :
  (forall n, k <= n -> f (S n) = f n) -> forall n, k <= n -> f n = f k.
Proof.
  intros H n Hn. induction Hn as [|n Hn IH]; [done|]. rewrite H; [done|lia].
Qed.

(** ** Positions in a list *)

(** [before l a b]: [a] occurs in [l] at a smaller index than [b]. *)
Definition before {A} (l : list A) (a b : A) : Prop :=
  exists i j, l !! i = Some a /\ l !! j = Some b /\ i < j.

Lemma before_app_r {A} (l k : list A) a b : before l a b -> before (l ++ k) a b.
Proof.
  intros (i&j&Hi&Hj&?). exists i, j.
  split_and!; [by apply lookup_app_l_Some|by apply lookup_app_l_Some|done].
Qed.

Lemma before_snoc {A} (l : list A) a b : a ∈ l -> before (l ++ [b]) a b.
Proof.
  intros (i&Hi)%list_elem_of_lookup. exists i, (length l).
  split_and!; [by apply lookup_app_l_Some| |by eapply lookup_lt_Some].
  rewrite lookup_app_r, Nat.sub_diag; done.
Qed.

Lemma before_elem_of {A} (l : list A) a b : before l a b -> a ∈ l /\ b ∈ l.
Proof. intros (i&j&Hi&Hj&_). split; eapply list_elem_of_lookup_2; eauto. Qed.

(** The first index of [x] in [l], or [length l] when [x] is absent. *)
Definition index_in `{EqDecision A} (x : A) (l : list A) : nat :=
  match list_find (fun y => y = x) l with Some (i, _) => i | None => length l end.

Lemma index_in_lookup `{EqDecision A} (l : list A) i x :
  NoDup l -> l !! i = Some x -> index_in x l = i.
Proof.
  intros Hnd Hi. unfold index_in.
  destruct (list_find_elem_of (fun y => y = x) l x) as [[j y] Hj];
    [eapply list_elem_of_lookup_2; eauto|done|].
  rewrite Hj. apply list_find_Some in Hj as (Hj&->&_).
  eapply NoDup_lookup; eauto.
Qed.

Lemma index_in_lt `{EqDecision A} (l : list A) x :
  x ∈ l -> index_in x l < length l.
Proof.
  intros Hx. unfold index_in.
  destruct (list_find_elem_of (fun y => y = x) l x) as [[j y] Hj]; [done|done|].
  rewrite Hj. apply list_find_Some in Hj as (Hj&_&_). by eapply lookup_lt_Some.
Qed.

Lemma index_in_found `{EqDecision A} (l : list A) x :
  index_in x l < length l -> l !! index_in x l = Some x.
Proof.
  unfold index_in. destruct (list_find (fun y => y = x) l) as [[j y]|] eqn:Hj; [|lia].
  intros _. by apply list_find_Some in Hj as (Hj&->&_).
Qed.

Create HintDb llp discriminated.
#[export] Hint Resolve countZ_nonneg before_app_r : llp.
Create Rewrite HintDb llp_sums.
#[export] Hint Rewrite @sumZ_app @countZ_app @sumZ_nil @sumZ_cons : llp_sums.

(** Unfold the monad's [bind] on a concrete [Ok]/[Err] in a hypothesis. *)
Ltac inv_bind H :=
  repeat match type of H with
  | bind ?m _ = Ok _ =>
      let a := fresh "a" in let Ha := fresh "Hm" in
      apply bind_Ok in H as (a & Ha & H)
  end.
