(* ===== verification/PyBuiltins.v ===== *)
(** * Python built-ins used by [src/low_level_problem.py]

    - [get0 m k]: [m[k]] on a dictionary of ints whose keys the code
      guarantees (or [defaultdict(int)]); missing keys read as 0.
    - [adj_get adj u]: [adj[u]] on a [defaultdict(list)].
    - [setdefault k d m]: [m.setdefault(k, d)].
    - [py_max_by key l]: [max(l, key=key)], which raises [ValueError] on an
      empty sequence and otherwise returns the first maximal element
      (CPython replaces the candidate only on a strictly greater key).
    - [sorted_desc key l]: [sorted(l, key=key, reverse=True)], a stable
      sort: [reverse=True] keeps equal keys in their original order.
    - [py_sorted l]: [sorted(l)] on integers.

    [py_max_by_Ok] shows [max] returns the first maximum, and
    [sorted_desc_perm], [sorted_desc_sorted] and [sorted_desc_stable] that
    [sorted_desc] is a stable sort by decreasing key. *)

From Stdlib Require Import ZArith Lia.
From stdpp Require Import base list gmap sorting.
From S2P Require Import Prelude.

(** ** Dictionary reads *)

Definition get0 (m : gmap Z Z) (k : Z) : Z := default 0%Z (m !! k).

Definition adj_get (adj : gmap Z (list (Z * Z))) (u : Z) : list (Z * Z) :=
  default [] (adj !! u).

Definition setdefault {K V} `{Countable K} (k : K) (d : V) (m : gmap K V)
    : gmap K V :=
  match m !! k with Some _ => m | None => <[k := d]> m end.

Lemma get0_insert (m : gmap Z Z) k x j :
  get0 (<[k := x]> m) j = if decide (k = j) then x else get0 m j.
Proof.
  unfold get0. case_decide; subst;
    [by rewrite lookup_insert_eq | by rewrite lookup_insert_ne].
Qed.

Lemma get0_empty j : get0 ∅ j = 0%Z.
Proof. done. Qed.

Lemma adj_get_insert (m : gmap Z (list (Z * Z))) k x j :
  adj_get (<[k := x]> m) j = if decide (k = j) then x else adj_get m j.
Proof.
  unfold adj_get. case_decide; subst;
    [by rewrite lookup_insert_eq | by rewrite lookup_insert_ne].
Qed.

Lemma setdefault_lookup {K V} `{Countable K} (k j : K) (d : V) m :
  setdefault k d m !! j =
    if decide (k = j) then Some (default d (m !! k)) else m !! j.
Proof.
  unfold setdefault. destruct (m !! k) eqn:E; case_decide; subst; simpl.
  - done.
  - done.
  - by rewrite lookup_insert_eq.
  - by rewrite lookup_insert_ne.
Qed.

(** [{n: 0 for n in ns}] *)
Definition zeros_on (ns : list Z) : gmap Z Z := foldl (fun m n => <[n := 0%Z]> m) ∅ ns.

Lemma get0_zeros_on ns v : get0 (zeros_on ns) v = 0%Z.
Proof.
  unfold zeros_on. cut (forall m, get0 m v = 0%Z ->
    get0 (foldl (fun m n => <[n := 0%Z]> m) m ns) v = 0%Z); [intros H; by apply H|].
  induction ns as [|n ns IH]; intros m Hm; simpl; [done|].
  apply IH. rewrite get0_insert. by case_decide.
Qed.

Lemma zeros_on_key ns k : is_Some (zeros_on ns !! k) <-> k ∈ ns.
Proof.
  unfold zeros_on. cut (forall m : gmap Z Z, is_Some (foldl (fun m n => <[n := 0%Z]> m) m ns !! k) <->
    is_Some (m !! k) \/ k ∈ ns).
  { intros ->. rewrite lookup_empty. split; [by intros [[? ?]|?]|by right]. }
  induction ns as [|n ns IH]; intros m; simpl; [rewrite elem_of_nil; tauto|].
  rewrite IH, lookup_insert, elem_of_cons. case_decide as Hnk.
  - assert (is_Some (Some 0%Z)) by eauto. subst. tauto.
  - assert (k <> n) by congruence. tauto.
Qed.

#[export] Hint Rewrite get0_insert adj_get_insert get0_zeros_on : llp_sums.

(** ** [max(l, key=key)] *)

Section MaxBy.
Context {A : Type} (key : A -> Z).

Fixpoint max_by_from (best : A) (l : list A) : A :=
  match l with
  | [] => best
  | x :: l' =>
      max_by_from (if decide (key best < key x)%Z then x else best) l'
  end.

Definition py_max_by (l : list A) : Result A :=
  match l with
  | [] => Err ValueError_empty_max
  | x :: l' => Ok (max_by_from x l')
  end.

Lemma max_by_from_ge best l :
  (key best <= key (max_by_from best l))%Z /\
  forall x, x ∈ l -> (key x <= key (max_by_from best l))%Z.
Proof.
  revert best. induction l as [|y l IH]; intros best; simpl.
  - split; [lia|set_solver].
  - destruct (IH (if decide (key best < key y)%Z then y else best)) as [H1 H2].
    case_decide; split; try lia;
      intros x [->|Hx]%elem_of_cons; try lia; by apply H2.
Qed.

(** The result sits after a prefix of strictly smaller keys: it is the
    first maximum. *)
Lemma max_by_from_first best l :
  exists pre post, best :: l = pre ++ max_by_from best l :: post /\
    forall x, x ∈ pre -> (key x < key (max_by_from best l))%Z.
Proof.
  revert best. induction l as [|y l IH]; intros best.
  - exists [], []. split; [done|set_solver].
  - simpl. case_decide as Hlt.
    + destruct (IH y) as (pre&post&Heq&Hpre).
      pose proof (proj1 (max_by_from_ge y l)).
      exists (best :: pre), post. rewrite Heq. split; [done|].
      intros x [->|Hx]%elem_of_cons; [lia|auto].
    + destruct (IH best) as (pre&post&Heq&Hpre).
      destruct pre as [|b pre]; simpl in Heq; injection Heq as Hb Hl.
      * exists [], (y :: l). rewrite <- Hb. split; [done|set_solver].
      * subst b. assert (key best < key (max_by_from best l))%Z
          by (apply Hpre; set_solver).
        exists (best :: y :: pre), post. rewrite Hl at 1. split; [done|].
        intros x [->|[->|Hx]%elem_of_cons]%elem_of_cons; [lia|lia|].
        apply Hpre; set_solver.
Qed.

Lemma py_max_by_Ok l m :
  py_max_by l = Ok m ->
  m ∈ l /\ (forall x, x ∈ l -> (key x <= key m)%Z) /\
  exists pre post, l = pre ++ m :: post /\
    forall x, x ∈ pre -> (key x < key m)%Z.
Proof.
  destruct l as [|b l]; intros H; simplify_eq/=.
  destruct (max_by_from_first b l) as (pre&post&Heq&Hpre).
  destruct (max_by_from_ge b l) as [Hb Hl].
  split_and!.
  - rewrite Heq. set_solver.
  - intros x [->|Hx]%elem_of_cons; auto.
  - rewrite Heq. eauto.
Qed.

Lemma py_max_by_nil : py_max_by [] = Err ValueError_empty_max.
Proof. done. Qed.

Lemma py_max_by_cons_Ok x l : exists m, py_max_by (x :: l) = Ok m.
Proof. eauto. Qed.

Lemma py_max_by_elem l x : x ∈ l -> exists m, py_max_by l = Ok m.
Proof. destruct l; [set_solver|eauto]. Qed.

(** An element whose key is strictly greater than every other element's
    is what [max] returns. *)
Lemma py_max_by_strict `{!EqDecision A} l m :
  m ∈ l -> (forall x, x ∈ l -> x <> m -> (key x < key m)%Z) ->
  py_max_by l = Ok m.
Proof.
  intros Hm Hgt. destruct l as [|b l]; [set_solver|].
  destruct (py_max_by_cons_Ok b l) as [m' Hm'].
  destruct (py_max_by_Ok _ _ Hm') as (Hin & Hge & _).
  rewrite Hm'. destruct (decide (m' = m)) as [->|Hne]; [done|].
  specialize (Hgt m' Hin Hne). specialize (Hge m Hm). lia.
Qed.

End MaxBy.

(** ** [sorted(l, key=key, reverse=True)] *)

Section SortedDesc.
Context {A : Type} (key : A -> Z).

Definition desc (a b : A) : Prop := (key b <= key a)%Z.

(** Insert [x] after every element whose key is at least [key x]. *)
Fixpoint insert_desc (x : A) (l : list A) : list A :=
  match l with
  | [] => [x]
  | y :: l' =>
      if decide (key y < key x)%Z then x :: l else y :: insert_desc x l'
  end.

Definition sorted_desc (l : list A) : list A :=
  foldl (fun acc x => insert_desc x acc) [] l.

Lemma insert_desc_perm x l : insert_desc x l ≡ₚ x :: l.
Proof.
  induction l as [|y l IH]; simpl; [done|].
  case_decide; [done|]. rewrite IH. constructor.
Qed.

Lemma insert_desc_sorted x l : Sorted desc l -> Sorted desc (insert_desc x l).
Proof.
  induction 1 as [|y l Hs IH Hhd]; simpl; [repeat constructor|].
  case_decide as Hlt.
  - constructor; [by constructor|]. constructor. unfold desc. lia.
  - constructor; [done|].
    destruct l as [|z l]; simpl; [constructor; unfold desc; lia|].
    inversion Hhd; subst. case_decide; constructor; unfold desc in *; lia.
Qed.

Lemma sorted_desc_from_perm acc l :
  foldl (fun acc x => insert_desc x acc) acc l ≡ₚ acc ++ l.
Proof.
  revert acc. induction l as [|x l IH]; intros acc; simpl.
  - by rewrite app_nil_r.
  - rewrite IH, insert_desc_perm. by rewrite (Permutation_middle acc l x).
Qed.

Lemma sorted_desc_perm l : sorted_desc l ≡ₚ l.
Proof. apply sorted_desc_from_perm. Qed.

Lemma sorted_desc_sorted l : Sorted desc (sorted_desc l).
Proof.
  unfold sorted_desc. cut (forall acc, Sorted desc acc ->
    Sorted desc (foldl (fun acc x => insert_desc x acc) acc l)).
  { intros H. apply H. constructor. }
  induction l as [|x l IH]; intros acc Hs; simpl; [done|].
  by apply IH, insert_desc_sorted.
Qed.

#[local] Instance desc_trans : Transitive desc.
Proof. intros a b c; unfold desc; lia. Qed.

Lemma Sorted_desc_le y l :
  Sorted desc (y :: l) -> forall z, z ∈ y :: l -> (key z <= key y)%Z.
Proof.
  intros Hs%Sorted_StronglySorted; [|apply _].
  inversion Hs as [|? ? _ Hf]; subst.
  intros z [->|Hz]%elem_of_cons; [lia|].
  rewrite Forall_forall in Hf. by apply Hf in Hz.
Qed.

(** Stability: the elements with a given key keep their input order. *)
Lemma insert_desc_filter x l k :
  Sorted desc l ->
  filter (fun y => key y = k) (insert_desc x l) =
    filter (fun y => key y = k) l ++
    (if decide (key x = k) then [x] else []).
Proof.
  induction 1 as [|y l Hs IH Hhd].
  - simpl. rewrite filter_cons, filter_nil. by destruct (decide (key x = k)).
  - pose proof (Sorted_desc_le y l (Sorted_cons Hs Hhd)) as Hle.
    simpl. destruct (decide (key y < key x)%Z) as [Hlt|Hge].
    + destruct (decide (key x = k)) as [<-|Hk].
      * rewrite filter_cons, decide_True by done.
        rewrite filter_none; [done|]. intros z Hz. specialize (Hle z Hz). lia.
      * rewrite filter_cons, decide_False by done. by rewrite app_nil_r.
    + rewrite !filter_cons, IH. by destruct (decide (key y = k)).
Qed.

Lemma sorted_desc_stable l k :
  filter (fun y => key y = k) (sorted_desc l) = filter (fun y => key y = k) l.
Proof.
  unfold sorted_desc.
  cut (forall acc, Sorted desc acc ->
    filter (fun y => key y = k) (foldl (fun acc x => insert_desc x acc) acc l) =
    filter (fun y => key y = k) acc ++ filter (fun y => key y = k) l).
  { intros H. by rewrite H by constructor. }
  induction l as [|x l IH]; intros acc Hs; simpl.
  - by rewrite app_nil_r.
  - rewrite IH by (by apply insert_desc_sorted).
    rewrite insert_desc_filter by done. rewrite filter_cons.
    case_decide; simpl; by rewrite <- app_assoc.
Qed.
End SortedDesc.

(** ** [sorted(l)] on integers *)

Definition py_sorted (l : list Z) : list Z := merge_sort Z.le l.

Lemma py_sorted_perm l : py_sorted l ≡ₚ l.
Proof. apply merge_sort_Permutation. Qed.

Lemma py_sorted_sorted l : Sorted Z.le (py_sorted l).
Proof. apply Sorted_merge_sort. intros x y. lia. Qed.

Lemma py_sorted_elem_of l x : x ∈ py_sorted l <-> x ∈ l.
Proof. by rewrite py_sorted_perm. Qed.

(** In a list sorted in increasing order, what comes after an element is
    at least that element. *)
Lemma Sorted_Zle_after pre m post x :
  Sorted Z.le (pre ++ m :: post) -> x ∈ post -> (m <= x)%Z.
Proof.
  induction pre as [|y pre IH]; simpl; intros Hs Hx.
  - apply Sorted_StronglySorted in Hs; [|intros ???; lia].
    apply StronglySorted_inv in Hs as [_ Hf]. rewrite Forall_forall in Hf. by apply Hf.
  - apply Sorted_inv in Hs as [Hs _]. by apply IH.
Qed.
