(* ===== verification/Graph.v ===== *)
(** * Graph builder: [build_graph] of [src/low_level_problem.py]

    An edge is the Python triple [(u, v, w)].  [build_graph] folds over the
    edge list, appending [(v, w)] to [adj[u]] and [(u, w)] to [radj[v]]
    (two [defaultdict(list)]s) and adding both endpoints to the node set,
    then makes every node a key of both maps with [setdefault] and returns
    the nodes sorted.  The main result, [build_graph_spec], is the
    builder's contract: [adj[u]] lists the edges leaving [u] in input order
    (duplicates kept), [radj[v]] those entering [v], the node list is the
    sorted, duplicate-free set of endpoints, and exactly the nodes are keys.
    [build_graph_wf] states the well-formedness invariant [graph_wf] of the
    output (the two maps mirror each other entry for entry) and
    [build_graph_roundtrip] that [edges_of] decodes [adj] back into the
    input edges.  The file also holds the dataset [EDGES], [SOURCE] of
    [src/edges.py], on which the other files instantiate their theorems,
    and the module's fallback copy of it: [load_dataset] is the
    [try]/[except ImportError] that picks one, and [load_dataset_same]
    shows the two agree. *)

From Stdlib Require Import ZArith Lia.
From stdpp Require Import base list gmap sorting.
From S2P Require Import Prelude PyBuiltins.

Abbreviation Edge := (Z * Z * Z)%type.
Abbreviation Adj := (gmap Z (list (Z * Z))).

Definition e_src (e : Edge) : Z := e.1.1.
Definition e_dst (e : Edge) : Z := e.1.2.
Definition e_w (e : Edge) : Z := e.2.

(** [adj[k].append(x)] on a [defaultdict(list)]. *)
Definition append_at (m : Adj) (k : Z) (x : Z * Z) : Adj :=
  <[k := adj_get m k ++ [x]]> m.

(** One iteration of [for u, v, w in edges]. *)
Definition build_step (st : Adj * Adj * gset Z) (e : Edge) : Adj * Adj * gset Z :=
  match st, e with
  | (adj, radj, nodes), (u, v, w) =>
      (append_at adj u (v, w), append_at radj v (u, w), {[v]} ∪ ({[u]} ∪ nodes))
  end.

(** [for n in list(nodes): adj.setdefault(n, []); radj.setdefault(n, [])]. *)
Definition ensure_keys (ns : list Z) (maps : Adj * Adj) : Adj * Adj :=
  foldl (fun '(adj, radj) n => (setdefault n [] adj, setdefault n [] radj)) maps ns.

(** [list(nodes)] iterates the set in an unspecified order, [elements]. *)
Definition build_graph (edges : list Edge) : Adj * Adj * list Z :=
  let '(adj, radj, nodes) := foldl build_step (∅, ∅, ∅) edges in
  let ns := elements nodes in
  let '(adj, radj) := ensure_keys ns (adj, radj) in
  (adj, radj, py_sorted ns).

(** ** The dataset of [src/edges.py] *)

(** [EDGES] and [SOURCE], the graph of the problem statement that the
    items run on by default. *)
Definition EDGES : list Edge :=
  [(0, 1, 2); (0, 2, 4); (0, 4, -2); (0, 5, 1); (0, 6, 5); (2, 3, 3); (2, 4, 2);
   (3, 8, -4); (4, 3, 5); (4, 8, 1); (4, 7, 2); (5, 7, -1); (5, 8, -3); (6, 7, 6);
   (7, 8, 2)]%Z.

Definition SOURCE : Z := 0%Z.

(** The copy of the dataset in [src/low_level_problem.py], used when
    [edges.py] cannot be imported. *)
Definition EDGES_fallback : list Edge :=
  [(0, 1, 2); (0, 2, 4); (0, 4, -2); (0, 5, 1); (0, 6, 5); (2, 3, 3); (2, 4, 2);
   (3, 8, -4); (4, 3, 5); (4, 8, 1); (4, 7, 2); (5, 7, -1); (5, 8, -3); (6, 7, 6);
   (7, 8, 2)]%Z.

Definition SOURCE_fallback : Z := 0%Z.

(** [try: from edges import EDGES, SOURCE / except ImportError: ...]: the
    dataset the module runs on, by whether [edges.py] imports. *)
Definition load_dataset (edges_importable : bool) : list Edge * Z :=
  if edges_importable then (EDGES, SOURCE) else (EDGES_fallback, SOURCE_fallback).

(** ** Specification functions *)

Definition out_edges (E : list Edge) (u : Z) : list (Z * Z) :=
  map (fun e => (e_dst e, e_w e)) (filter (fun e => e_src e = u) E).

Definition in_edges (E : list Edge) (v : Z) : list (Z * Z) :=
  map (fun e => (e_src e, e_w e)) (filter (fun e => e_dst e = v) E).

Definition endpoints (E : list Edge) : list Z :=
  flat_map (fun e => [e_src e; e_dst e]) E.

(** Decoding an adjacency map back into the edge triples it stores. *)
Definition edges_of (adj : Adj) (nodes : list Z) : list Edge :=
  flat_map (fun u => map (fun vw => (u, vw.1, vw.2)) (adj_get adj u)) nodes.

(** The well-formedness of the builder's output: both maps have exactly
    the nodes as keys, every stored neighbour is a node, each entry
    [(v, w)] of [adj[u]] is mirrored by as many entries [(u, w)] of
    [radj[v]], and the node list is sorted without duplicates. *)
Record graph_wf (adj radj : Adj) (nodes : list Z) : Prop := {
  wf_keys_adj : forall x, is_Some (adj !! x) <-> x ∈ nodes;
  wf_keys_radj : forall x, is_Some (radj !! x) <-> x ∈ nodes;
  wf_succ : forall u vw, vw ∈ adj_get adj u -> u ∈ nodes /\ vw.1 ∈ nodes;
  wf_pred : forall v uw, uw ∈ adj_get radj v -> v ∈ nodes /\ uw.1 ∈ nodes;
  wf_mirror : forall u v w,
    countZ (fun x => x = (v, w)) (adj_get adj u) = countZ (fun x => x = (u, w)) (adj_get radj v);
  wf_nodes : NoDup nodes /\ Sorted Z.le nodes
}.

Lemma out_edges_app E1 E2 u :
  out_edges (E1 ++ E2) u = out_edges E1 u ++ out_edges E2 u.
Proof. unfold out_edges. by rewrite filter_app, map_app. Qed.

Lemma in_edges_app E1 E2 u :
  in_edges (E1 ++ E2) u = in_edges E1 u ++ in_edges E2 u.
Proof. unfold in_edges. by rewrite filter_app, map_app. Qed.

Lemma elem_of_endpoints E x :
  x ∈ endpoints E <-> exists e, e ∈ E /\ (x = e_src e \/ x = e_dst e).
Proof.
  unfold endpoints. rewrite list_elem_of_In, in_flat_map.
  split.
  - intros (e&He%list_elem_of_In&Hx). exists e. split; [done|].
    simpl in Hx. naive_solver.
  - intros (e&He&Hx). exists e. rewrite <- list_elem_of_In. split; [done|].
    simpl. naive_solver.
Qed.

Lemma src_endpoint E e : e ∈ E -> e_src e ∈ endpoints E.
Proof. intros. apply elem_of_endpoints. eauto. Qed.

Lemma dst_endpoint E e : e ∈ E -> e_dst e ∈ endpoints E.
Proof. intros. apply elem_of_endpoints. eauto. Qed.

#[export] Hint Resolve src_endpoint dst_endpoint : llp.

(** ** The fold over the edges *)

Lemma build_fold_spec E adj0 radj0 ns0 adj radj ns :
  foldl build_step (adj0, radj0, ns0) E = (adj, radj, ns) ->
  (forall u, adj_get adj u = adj_get adj0 u ++ out_edges E u) /\
  (forall v, adj_get radj v = adj_get radj0 v ++ in_edges E v) /\
  (forall x, x ∈ ns <-> x ∈ ns0 \/ x ∈ endpoints E) /\
  (forall x, is_Some (adj !! x) -> is_Some (adj0 !! x) \/ x ∈ endpoints E) /\
  (forall x, is_Some (radj !! x) -> is_Some (radj0 !! x) \/ x ∈ endpoints E).
Proof.
  revert adj0 radj0 ns0. induction E as [|[[u v] w] E IH]; intros adj0 radj0 ns0 H.
  - simpl in H. injection H as <- <- <-.
    split_and!; intros; rewrite ?app_nil_r; try done; try set_solver; auto.
  - simpl in H. apply IH in H as (Ha&Hr&Hn&Hka&Hkr). clear IH.
    unfold endpoints in *; simpl; fold (endpoints E) in *.
    split_and!.
    + intros x. rewrite Ha. unfold append_at. rewrite adj_get_insert.
      unfold out_edges; rewrite filter_cons; unfold e_src, e_dst, e_w; simpl.
      case_decide; subst; simpl; rewrite <- ?app_assoc; done.
    + intros x. rewrite Hr. unfold append_at. rewrite adj_get_insert.
      unfold in_edges; rewrite filter_cons; unfold e_src, e_dst, e_w; simpl.
      case_decide; subst; simpl; rewrite <- ?app_assoc; done.
    + intros x. rewrite Hn, !elem_of_union, !elem_of_singleton, !elem_of_cons.
      unfold e_src, e_dst; simpl. tauto.
    + intros x [Hx|Hx]%Hka; [|right; rewrite !elem_of_cons; auto].
      unfold append_at in Hx. rewrite lookup_insert in Hx.
      case_decide; [subst; right; apply elem_of_cons; by left|auto].
    + intros x [Hx|Hx]%Hkr; [|right; rewrite !elem_of_cons; auto].
      unfold append_at in Hx. rewrite lookup_insert in Hx.
      case_decide; [subst; right; rewrite !elem_of_cons; by right; left|auto].
Qed.

(** The loop's two [setdefault]s act on different maps: each map gets
    every node as a key, and no list changes. *)
Lemma ensure_keys_pair ns (a r : Adj) :
  ensure_keys ns (a, r) = (foldl (fun m n => setdefault n [] m) a ns,
                           foldl (fun m n => setdefault n [] m) r ns).
Proof. revert a r. induction ns as [|n ns IH]; intros a r; [done|]. apply IH. Qed.

Lemma setdefault_all_get ns (m : Adj) u :
  adj_get (foldl (fun m n => setdefault n [] m) m ns) u = adj_get m u.
Proof.
  revert m. induction ns as [|n ns IH]; intros m; simpl; [done|].
  rewrite IH. unfold adj_get. rewrite setdefault_lookup.
  case_decide; subst; [|done]. by destruct (m !! u).
Qed.

Lemma setdefault_all_key ns (m : Adj) u :
  is_Some (foldl (fun m n => setdefault n [] m) m ns !! u) <-> is_Some (m !! u) \/ u ∈ ns.
Proof.
  revert m. induction ns as [|n ns IH]; intros m; simpl; [set_solver|].
  rewrite IH, setdefault_lookup. case_decide; subst; set_solver.
Qed.

(** ** The builder's contract *)

Lemma build_graph_fold E adj radj nodes :
  build_graph E = (adj, radj, nodes) ->
  exists adj0 radj0 ns0, foldl build_step (∅, ∅, ∅) E = (adj0, radj0, ns0) /\
    adj = foldl (fun m n => setdefault n [] m) adj0 (elements ns0) /\
    radj = foldl (fun m n => setdefault n [] m) radj0 (elements ns0) /\
    nodes = py_sorted (elements ns0).
Proof.
  unfold build_graph. destruct (foldl build_step (∅, ∅, ∅) E) as [[adj0 radj0] ns0].
  rewrite ensure_keys_pair. intros [= <- <- <-]. eauto 10.
Qed.

Lemma build_graph_adj E adj radj nodes u :
  build_graph E = (adj, radj, nodes) -> adj_get adj u = out_edges E u.
Proof.
  intros (adj0&radj0&ns0&Hf&->&_)%build_graph_fold.
  apply build_fold_spec in Hf as (Ha&_). by rewrite setdefault_all_get, Ha.
Qed.

Lemma build_graph_radj E adj radj nodes v :
  build_graph E = (adj, radj, nodes) -> adj_get radj v = in_edges E v.
Proof.
  intros (adj0&radj0&ns0&Hf&_&->&_)%build_graph_fold.
  apply build_fold_spec in Hf as (_&Hr&_). by rewrite setdefault_all_get, Hr.
Qed.

Lemma build_graph_nodes E adj radj nodes x :
  build_graph E = (adj, radj, nodes) -> x ∈ nodes <-> x ∈ endpoints E.
Proof.
  intros (adj0&radj0&ns0&Hf&_&_&->)%build_graph_fold.
  apply build_fold_spec in Hf as (_&_&Hn&_).
  rewrite py_sorted_elem_of, elem_of_elements, Hn. set_solver.
Qed.

Lemma build_graph_NoDup E adj radj nodes :
  build_graph E = (adj, radj, nodes) -> NoDup nodes.
Proof.
  intros (adj0&radj0&ns0&_&_&_&->)%build_graph_fold.
  rewrite py_sorted_perm. apply NoDup_elements.
Qed.

Lemma build_graph_sorted E adj radj nodes :
  build_graph E = (adj, radj, nodes) -> Sorted Z.le nodes.
Proof. intros (?&?&?&_&_&_&->)%build_graph_fold. apply py_sorted_sorted. Qed.

(** A key of the map built by the fold is an endpoint. *)
Lemma ensure_keys_nodes E (ns0 : gset Z) (m0 : Adj) (x : Z) :
  (forall x, x ∈ ns0 <-> x ∈ endpoints E) ->
  (forall x, is_Some (m0 !! x) -> is_Some ((∅ : Adj) !! x) \/ x ∈ endpoints E) ->
  is_Some (foldl (fun m n => setdefault n [] m) m0 (elements ns0) !! x) <->
  x ∈ py_sorted (elements ns0).
Proof.
  intros Hn Hk. rewrite setdefault_all_key, py_sorted_elem_of, elem_of_elements, Hn.
  split; [|by right]. intros [Hx|Hx]; [|done].
  destruct (Hk x Hx) as [[? Hs]|]; [|done]. by rewrite lookup_empty in Hs.
Qed.

Lemma build_graph_keys E adj radj nodes x :
  build_graph E = (adj, radj, nodes) ->
  (is_Some (adj !! x) <-> x ∈ nodes) /\ (is_Some (radj !! x) <-> x ∈ nodes).
Proof.
  intros (adj0&radj0&ns0&Hf&->&->&->)%build_graph_fold.
  apply build_fold_spec in Hf as (_&_&Hn&Hka&Hkr).
  assert (Hn' : forall x, x ∈ ns0 <-> x ∈ endpoints E) by (intros y; rewrite Hn; set_solver).
  split; by apply (ensure_keys_nodes E).
Qed.

(** C13: The builder's contract: [adj[u]] lists the edges leaving [u] and
    [radj[v]] those entering [v], in input order with duplicates; the node
    list is the sorted, duplicate-free list of endpoints; exactly the nodes
    are keys of both maps. *)
Theorem build_graph_spec E adj radj nodes :
  build_graph E = (adj, radj, nodes) ->
  (forall u, adj_get adj u = out_edges E u) /\
  (forall v, adj_get radj v = in_edges E v) /\
  (forall x, x ∈ nodes <-> x ∈ endpoints E) /\
  NoDup nodes /\ Sorted Z.le nodes /\
  (forall x, is_Some (adj !! x) <-> x ∈ nodes) /\
  (forall x, is_Some (radj !! x) <-> x ∈ nodes).
Proof.
  intros Hb. split_and!; intros; eauto using build_graph_adj, build_graph_radj,
    build_graph_nodes, build_graph_NoDup, build_graph_sorted;
    by apply (build_graph_keys E adj radj nodes).
Qed.

(** Both maps count the occurrences of an edge triple. *)
Lemma count_out_edges E u v w :
  countZ (fun x => x = (v, w)) (out_edges E u) = countZ (fun e => e = (u, v, w)) E.
Proof.
  unfold countZ, out_edges. rewrite sumZ_map, sumZ_filter. apply sumZ_ext.
  intros [[a b] c] _. unfold e_src, e_dst, e_w; simpl.
  repeat case_decide; simplify_eq; done.
Qed.

Lemma count_in_edges E u v w :
  countZ (fun x => x = (u, w)) (in_edges E v) = countZ (fun e => e = (u, v, w)) E.
Proof.
  unfold countZ, in_edges. rewrite sumZ_map, sumZ_filter. apply sumZ_ext.
  intros [[a b] c] _. unfold e_src, e_dst, e_w; simpl.
  repeat case_decide; simplify_eq; done.
Qed.

Lemma elem_of_out_edges E u vw :
  vw ∈ out_edges E u <-> exists e, e ∈ E /\ e_src e = u /\ vw = (e_dst e, e_w e).
Proof.
  unfold out_edges. rewrite list_elem_of_fmap. setoid_rewrite list_elem_of_filter. naive_solver.
Qed.

Lemma elem_of_in_edges E v uw :
  uw ∈ in_edges E v <-> exists e, e ∈ E /\ e_dst e = v /\ uw = (e_src e, e_w e).
Proof.
  unfold in_edges. rewrite list_elem_of_fmap. setoid_rewrite list_elem_of_filter. naive_solver.
Qed.

(** C14: The output of [build_graph] is well formed ([graph_wf]): the type
    invariant the sorter, the counter, the enumerator and the analyser
    rely on. *)
Theorem build_graph_wf E adj radj nodes :
  build_graph E = (adj, radj, nodes) -> graph_wf adj radj nodes.
Proof.
  intros Hb. split.
  - intros x. by apply (build_graph_keys E adj radj nodes x Hb).
  - intros x. by apply (build_graph_keys E adj radj nodes x Hb).
  - intros u vw. rewrite (build_graph_adj _ _ _ _ u Hb), elem_of_out_edges,
      !(build_graph_nodes _ _ _ _ _ Hb). intros (e&He&<-&->). simpl. eauto with llp.
  - intros v uw. rewrite (build_graph_radj _ _ _ _ v Hb), elem_of_in_edges,
      !(build_graph_nodes _ _ _ _ _ Hb). intros (e&He&<-&->). simpl. eauto with llp.
  - intros u v w. rewrite (build_graph_adj _ _ _ _ u Hb), (build_graph_radj _ _ _ _ v Hb).
    by rewrite count_out_edges, count_in_edges.
  - split; [by eapply build_graph_NoDup|].
    apply build_graph_fold in Hb as (?&?&?&_&_&_&->). apply py_sorted_sorted.
Qed.

(** The edges leaving [u], re-tagged with [u], are those of [E] with
    source [u]. *)
Lemma retag_out_edges E u :
  map (fun vw => (u, vw.1, vw.2)) (out_edges E u) = filter (fun e => e_src e = u) E.
Proof.
  unfold out_edges. rewrite map_map. induction E as [|[[a b] c] E IH]; [done|].
  rewrite !filter_cons. unfold e_src, e_dst, e_w in *; simpl in *.
  case_decide; simpl; [subst; by rewrite IH|done].
Qed.

Lemma flat_map_sources E ns :
  NoDup ns ->
  flat_map (fun u => filter (fun e => e_src e = u) E) ns ≡ₚ filter (fun e => e_src e ∈ ns) E.
Proof.
  induction 1 as [|n ns Hn Hnd IH]; simpl.
  - symmetry. rewrite filter_none; [done|]. intros e _ He. by apply elem_of_nil in He.
  - rewrite IH, <- filter_or_perm; [|intros e -> Hin; done].
    apply Permutation_refl', list_filter_iff. intros e. by rewrite elem_of_cons.
Qed.

(** C15: Round trip: decoding the forward adjacency map built from [E]
    gives back the edges of [E], as a multiset (each triple as often as it
    occurs in the input); only their order may change. *)
Theorem build_graph_roundtrip E adj radj nodes :
  build_graph E = (adj, radj, nodes) -> edges_of adj nodes ≡ₚ E.
Proof.
  intros Hb. unfold edges_of.
  erewrite (flat_map_ext _ (fun u => filter (fun e => e_src e = u) E));
    [|intros u; by rewrite (build_graph_adj _ _ _ _ u Hb), retag_out_edges].
  rewrite flat_map_sources by (by eapply build_graph_NoDup).
  rewrite filter_all; [done|]. intros e He. apply (build_graph_nodes _ _ _ _ _ Hb).
  by apply src_endpoint.
Qed.

(** The number of keys of [adj], used as the DFS fuel, is the number of
    vertices. *)
Lemma build_graph_size E adj radj nodes :
  build_graph E = (adj, radj, nodes) -> size adj = length nodes.
Proof.
  intros Hb. pose proof (build_graph_NoDup _ _ _ _ Hb) as Hnd.
  rewrite <- size_dom. transitivity (size (list_to_set nodes : gset Z)).
  - f_equal. apply set_eq. intros x. rewrite elem_of_dom, elem_of_list_to_set. apply (build_graph_keys E adj radj nodes x Hb).
  - by apply size_list_to_set.
Qed.

Lemma endpoints_app E1 E2 : endpoints (E1 ++ E2) = endpoints E1 ++ endpoints E2.
Proof. unfold endpoints. by rewrite flat_map_app. Qed.

(** Endpoints of the edges [(u, vp, 0)] for [u] in [ps]. *)
Lemma endpoints_sink ps vp x :
  x ∈ endpoints (map (fun u => (u, vp, 0%Z)) ps) <-> x ∈ ps \/ (x = vp /\ ps <> []).
Proof.
  induction ps as [|u ps IH]; simpl; [set_solver|].
  unfold endpoints in *; simpl. rewrite !elem_of_cons, IH. unfold e_src, e_dst; simpl.
  naive_solver.
Qed.

(** The dataset does not depend on the import: the fallback copy in
    [src/low_level_problem.py] is the dataset of [src/edges.py], edge for
    edge, with the same source. *)
Theorem load_dataset_same (edges_importable : bool) : load_dataset edges_importable = (EDGES, SOURCE).
Proof. destruct edges_importable; reflexivity. Qed.

(** ** The contract on the dataset *)

Lemma EDGES_built :
  build_graph EDGES = ((build_graph EDGES).1.1, (build_graph EDGES).1.2, (build_graph EDGES).2).
Proof. vm_compute. reflexivity. Qed.

Lemma build_graph_spec_on_EDGES :
  build_graph EDGES = ((build_graph EDGES).1.1, (build_graph EDGES).1.2, (build_graph EDGES).2) /\
  (forall u, adj_get (build_graph EDGES).1.1 u = out_edges EDGES u) /\
  (forall v, adj_get (build_graph EDGES).1.2 v = in_edges EDGES v) /\
  (forall x, x ∈ (build_graph EDGES).2 <-> x ∈ endpoints EDGES) /\
  NoDup (build_graph EDGES).2 /\ Sorted Z.le (build_graph EDGES).2 /\
  (forall x, is_Some ((build_graph EDGES).1.1 !! x) <-> x ∈ (build_graph EDGES).2) /\
  (forall x, is_Some ((build_graph EDGES).1.2 !! x) <-> x ∈ (build_graph EDGES).2).
Proof. exact (conj EDGES_built (build_graph_spec _ _ _ _ EDGES_built)). Defined.

Lemma build_graph_wf_on_EDGES :
  build_graph EDGES = ((build_graph EDGES).1.1, (build_graph EDGES).1.2, (build_graph EDGES).2) /\
  graph_wf (build_graph EDGES).1.1 (build_graph EDGES).1.2 (build_graph EDGES).2.
Proof. exact (conj EDGES_built (build_graph_wf _ _ _ _ EDGES_built)). Defined.

Lemma build_graph_roundtrip_on_EDGES :
  build_graph EDGES = ((build_graph EDGES).1.1, (build_graph EDGES).1.2, (build_graph EDGES).2) /\
  edges_of (build_graph EDGES).1.1 (build_graph EDGES).2 ≡ₚ EDGES.
Proof. exact (conj EDGES_built (build_graph_roundtrip _ _ _ _ EDGES_built)). Defined.
