(* ===== verification/Walks.v ===== *)
(** * Walk counts: the specification of path counting

    The program counts "distinct source-to-vertex paths", where parallel
    edges give distinct paths (spec 4.3).  This file specifies that number
    independently of any algorithm, over the edge list [E]:

    - [walks_fwd n a b]: walks from [a] to [b] with fewer than [n] edges,
      decomposed by their first edge;
    - [walks_bwd n a b]: the same walks, decomposed by their last edge
      (the shape of the DP in [PathCount]);
    - [dfs_count n u t]: walks from [u] that stop at the first visit of
      [t] (the shape of the DFS in [Enumerate]).

    [walks_fwd_bwd] shows the two decompositions agree.  The class
    [TopoRank] is the interface between the topological sorter and the
    counters: a rank on vertices that increases along every edge and is
    bounded by [B].  Under it, walk counts stop growing once [n] exceeds
    [B] ([walks_bwd_stable_from], [walks_fwd_stable_from]), the bounded
    count satisfies the DP's recurrence ([paths_count_recurrence]), any
    solution of that recurrence is unique ([recurrence_unique]), and the
    DFS count agrees with it ([dfs_count_paths_count]). *)

From Stdlib Require Import ZArith Lia.
From stdpp Require Import base list relations.
From S2P Require Import Prelude PyBuiltins Graph.

Local Open Scope Z_scope.

Section Walks.
Variable E : list Edge.

Definition out_of (a : Z) : list Edge := filter (fun e => e_src e = a) E.
Definition into (b : Z) : list Edge := filter (fun e => e_dst e = b) E.

Definition ind (P : Prop) `{!Decision P} : Z := if decide P then 1 else 0.

(** One step along an edge of [E]. *)
Definition edge_rel (a b : Z) : Prop := exists e, e ∈ E /\ e_src e = a /\ e_dst e = b.

Fixpoint walks_fwd (n : nat) (a b : Z) : Z :=
  match n with
  | O => 0
  | S n => ind (a = b) + sumZ (fun e => walks_fwd n (e_dst e) b) (out_of a)
  end.

Fixpoint walks_bwd (n : nat) (a b : Z) : Z :=
  match n with
  | O => 0
  | S n => ind (a = b) + sumZ (fun e => walks_bwd n a (e_src e)) (into b)
  end.

Fixpoint dfs_count (n : nat) (u t : Z) : Z :=
  match n with
  | O => 0
  | S n =>
      if decide (u = t) then 1
      else sumZ (fun e => dfs_count n (e_dst e) t) (out_of u)
  end.

Lemma elem_of_out_of a e : e ∈ out_of a <-> e_src e = a /\ e ∈ E.
Proof. unfold out_of, into. by rewrite list_elem_of_filter. Qed.

Lemma elem_of_into b e : e ∈ into b <-> e_dst e = b /\ e ∈ E.
Proof. unfold out_of, into. by rewrite list_elem_of_filter. Qed.

(** A filtered sum is a sum over all edges with an indicator. *)
Lemma sum_out_of (f : Edge -> Z) a :
  sumZ f (out_of a) = sumZ (fun e => ind (e_src e = a) * f e) E.
Proof.
  unfold out_of. rewrite sumZ_filter. apply sumZ_ext. intros e _.
  unfold ind. case_decide; lia.
Qed.

Lemma sum_into (f : Edge -> Z) b :
  sumZ f (into b) = sumZ (fun e => ind (e_dst e = b) * f e) E.
Proof.
  unfold into. rewrite sumZ_filter. apply sumZ_ext. intros e _.
  unfold ind. case_decide; lia.
Qed.

(** The edges from [a] to [b], counted from either end. *)
Lemma edges_between a b :
  sumZ (fun e => ind (e_dst e = b)) (out_of a) =
  sumZ (fun e => ind (a = e_src e)) (into b).
Proof.
  rewrite sum_out_of, sum_into. apply sumZ_ext. intros e _.
  unfold ind. repeat case_decide; subst; lia.
Qed.

Lemma walks_bwd_nonneg n a b : 0 <= walks_bwd n a b.
Proof.
  revert b. induction n as [|n IH]; intros b; simpl; [lia|].
  pose proof (sumZ_nonneg (fun e => walks_bwd n a (e_src e)) (into b)
    (fun e _ => IH (e_src e))).
  unfold ind. case_decide; lia.
Qed.

Lemma walks_fwd_0 a b : walks_fwd 0 a b = 0.
Proof. done. Qed.

Lemma walks_fwd_1 a b : walks_fwd 1 a b = ind (a = b).
Proof. simpl. rewrite sumZ_zero; [lia|done]. Qed.

Lemma walks_bwd_1 a b : walks_bwd 1 a b = ind (a = b).
Proof. simpl. rewrite sumZ_zero; [lia|done]. Qed.

(** The double sum over a first edge out of [a] and a last edge into [b]. *)
Lemma double_sum_swap (F : Z -> Z -> Z) a b :
  sumZ (fun e1 => sumZ (fun e2 => F (e_dst e1) (e_src e2)) (into b)) (out_of a) =
  sumZ (fun e2 => sumZ (fun e1 => F (e_dst e1) (e_src e2)) (out_of a)) (into b).
Proof. apply (sumZ_swap (fun e1 e2 => F (e_dst e1) (e_src e2))). Qed.

(** Counting walks by their first edge or by their last edge gives the
    same number. *)
Theorem walks_fwd_bwd n a b : walks_fwd n a b = walks_bwd n a b.
Proof.
  cut (forall n, (forall a b, walks_fwd n a b = walks_bwd n a b) /\
                 (forall a b, walks_fwd (S n) a b = walks_bwd (S n) a b)).
  { intros H. apply H. }
  clear n a b. induction n as [|n [IH0 IH1]].
  - split; [done|]. intros a b. by rewrite walks_fwd_1, walks_bwd_1.
  - split; [done|]. intros a b.
    change (walks_fwd (S (S n)) a b) with
      (ind (a = b) + sumZ (fun e => walks_fwd (S n) (e_dst e) b) (out_of a)).
    change (walks_bwd (S (S n)) a b) with
      (ind (a = b) + sumZ (fun e => walks_bwd (S n) a (e_src e)) (into b)).
    rewrite (sumZ_ext _ (fun e1 => ind (e_dst e1 = b) +
        sumZ (fun e2 => walks_bwd n (e_dst e1) (e_src e2)) (into b)));
      [|intros e1 _; by rewrite IH1].
    rewrite (sumZ_ext (fun e => walks_bwd (S n) a (e_src e))
        (fun e2 => ind (a = e_src e2) +
         sumZ (fun e1 => walks_bwd n (e_dst e1) (e_src e2)) (out_of a)));
      [|intros e2 _; rewrite <- IH1; simpl;
        f_equal; apply sumZ_ext; intros; apply IH0].
    rewrite !sumZ_add, edges_between, double_sum_swap. lia.
Qed.

(** ** Walk counts under a topological rank *)

Class TopoRank (rank : Z -> nat) (B : nat) : Prop := {
  rank_edge : forall e, e ∈ E -> (rank (e_src e) < rank (e_dst e))%nat;
  rank_bound : forall e, e ∈ E -> (rank (e_dst e) < B)%nat
}.

Section Ranked.
Context (rank : Z -> nat) (B : nat) `{!TopoRank rank B}.

Lemma into_rank v e : e ∈ into v -> (rank (e_src e) < rank v)%nat /\ (rank v < B)%nat.
Proof.
  intros [<- He]%elem_of_into. split; [by apply rank_edge|by apply rank_bound].
Qed.

Lemma out_of_rank u e : e ∈ out_of u ->
  (rank u < rank (e_dst e))%nat /\ (rank (e_dst e) < B)%nat.
Proof.
  intros [<- He]%elem_of_out_of. split; [by apply rank_edge|by apply rank_bound].
Qed.

Lemma walks_bwd_stable n s v :
  (rank v <= n \/ B <= n)%nat ->
  walks_bwd (S (S n)) s v = walks_bwd (S n) s v.
Proof.
  revert v. induction n as [|n IH]; intros v Hv.
  - rewrite walks_bwd_1. simpl. rewrite sumZ_zero; [lia|].
    intros e He. apply into_rank in He. lia.
  - change (walks_bwd (S (S (S n))) s v) with
      (ind (s = v) + sumZ (fun e => walks_bwd (S (S n)) s (e_src e)) (into v)).
    change (walks_bwd (S (S n)) s v) with
      (ind (s = v) + sumZ (fun e => walks_bwd (S n) s (e_src e)) (into v)).
    f_equal. apply sumZ_ext. intros e He.
    apply IH. apply into_rank in He. lia.
Qed.

Lemma walks_bwd_stable_from m s v :
  (S B <= m)%nat -> walks_bwd m s v = walks_bwd (S B) s v.
Proof.
  apply (stable_from (fun m => walks_bwd m s v)). intros n Hn.
  destruct n as [|n]; [lia|]. apply walks_bwd_stable. lia.
Qed.

(** The number of walks from [s] to [v]: walks have fewer than [B]
    edges, so [S B] bounds them all. *)
Definition paths_count (s v : Z) : Z := walks_bwd (S B) s v.

Lemma paths_count_nonneg s v : 0 <= paths_count s v.
Proof. apply walks_bwd_nonneg. Qed.

(** The DP's recurrence (spec section 8): the count of [v] is the seed
    [ind (s = v)] plus the counts of the sources of its incoming edges,
    one term per edge. *)
Lemma paths_count_recurrence s v :
  paths_count s v = ind (s = v) + sumZ (fun e => paths_count s (e_src e)) (into v).
Proof.
  unfold paths_count. simpl. f_equal. apply sumZ_ext. intros e He.
  apply into_rank in He as [Hlt Hb].
  pose proof (walks_bwd_stable (B - 1) s (e_src e) ltac:(lia)) as Hs.
  replace (S (B - 1)) with B in Hs by lia. by symmetry.
Qed.

(** A function satisfying the recurrence is determined by its seed. *)
Theorem recurrence_unique (init f g : Z -> Z) :
  (forall v, f v = init v + sumZ (fun e => f (e_src e)) (into v)) ->
  (forall v, g v = init v + sumZ (fun e => g (e_src e)) (into v)) ->
  forall v, f v = g v.
Proof.
  intros Hf Hg v. remember (rank v) as k eqn:Hk. revert v Hk.
  induction k as [k IH] using lt_wf_ind. intros v ->.
  rewrite Hf, Hg. f_equal. apply sumZ_ext. intros e He.
  apply (IH (rank (e_src e))); [|done]. by apply into_rank in He as [? _].
Qed.

Lemma walks_fwd_unreach n a b :
  (rank b <= rank a)%nat -> a <> b -> walks_fwd n a b = 0.
Proof.
  revert a. induction n as [|n IH]; intros a Hr Hne; [done|].
  simpl. unfold ind. rewrite decide_False by done.
  rewrite sumZ_zero; [lia|]. intros e He. apply out_of_rank in He as [? _].
  apply IH; [lia|]. intros Heq. rewrite Heq in *. lia.
Qed.

Lemma paths_count_self s : paths_count s s = 1.
Proof.
  unfold paths_count. rewrite <- walks_fwd_bwd. simpl. unfold ind.
  rewrite decide_True by done. rewrite sumZ_zero; [lia|].
  intros e He. apply out_of_rank in He as [? _].
  apply walks_fwd_unreach; [lia|]. intros Heq. rewrite Heq in *. lia.
Qed.

Lemma walks_fwd_stable n u t :
  (B <= n + rank u)%nat ->
  walks_fwd (S (S n)) u t = walks_fwd (S n) u t.
Proof.
  revert u. induction n as [|n IH]; intros u Hu.
  - rewrite walks_fwd_1. simpl. rewrite sumZ_zero; [lia|].
    intros e He. apply out_of_rank in He. lia.
  - change (walks_fwd (S (S (S n))) u t) with
      (ind (u = t) + sumZ (fun e => walks_fwd (S (S n)) (e_dst e) t) (out_of u)).
    change (walks_fwd (S (S n)) u t) with
      (ind (u = t) + sumZ (fun e => walks_fwd (S n) (e_dst e) t) (out_of u)).
    f_equal. apply sumZ_ext. intros e He.
    apply IH. apply out_of_rank in He. lia.
Qed.

Lemma walks_fwd_stable_from m u t :
  (S B <= m)%nat -> walks_fwd m u t = walks_fwd (S B) u t.
Proof.
  apply (stable_from (fun m => walks_fwd m u t)). intros n Hn.
  destruct n as [|n]; [lia|]. apply walks_fwd_stable. lia.
Qed.

(** Stopping at the first visit of [t] loses no walk: there is no walk
    from [t] back to [t]. *)
Lemma dfs_count_walks_fwd n u t : dfs_count n u t = walks_fwd n u t.
Proof.
  revert u. induction n as [|n IH]; intros u; [done|]. simpl.
  unfold ind. case_decide as Hut.
  - subst. rewrite sumZ_zero; [lia|]. intros e He.
    apply out_of_rank in He as [? _]. apply walks_fwd_unreach; [lia|].
    intros Heq. rewrite Heq in *. lia.
  - rewrite Z.add_0_l. apply sumZ_ext. intros e _. apply IH.
Qed.

(** The DFS count with enough fuel is the number of walks. *)
Theorem dfs_count_paths_count m s t :
  (S B <= m)%nat -> dfs_count m s t = paths_count s t.
Proof.
  intros Hm. unfold paths_count.
  by rewrite dfs_count_walks_fwd, walks_fwd_stable_from, walks_fwd_bwd.
Qed.

(** A vertex has a positive count exactly when it is reachable. *)
Theorem paths_count_pos_iff s v : 0 < paths_count s v <-> rtc edge_rel s v.
Proof.
  split.
  - unfold paths_count. generalize (S B) as n. intros n. revert v.
    induction n as [|n IH]; intros v; simpl; [lia|]. intros Hpos.
    unfold ind in Hpos. destruct (decide (s = v)) as [->|Hne]; [apply rtc_refl|].
    destruct (sumZ_pos_elem (fun e => walks_bwd n s (e_src e)) (into v)) as (e&He&Hpe); [lia|].
    apply elem_of_into in He as [<- He]. apply rtc_r with (e_src e); [by apply IH|].
    by exists e.
  - revert v. apply (rtc_ind_r (fun v => 0 < paths_count s v)).
    + rewrite paths_count_self. lia.
    + intros a b Hab (e&He&Ha&Hb) IH. rewrite paths_count_recurrence.
      pose proof (sumZ_elem_le (fun e => paths_count s (e_src e)) (into b) e
        ltac:(intros; apply paths_count_nonneg) ltac:(by apply elem_of_into)).
      subst a. cbv beta in *. unfold ind. case_decide; lia.
Qed.
End Ranked.
End Walks.

Arguments rank_edge {E rank B _} e _.
Arguments rank_bound {E rank B _} e _.

(** ** Linear orders give a rank *)

(** [l] lists the source of every edge before its destination. *)
Definition topo_linear (E : list Edge) (l : list Z) : Prop :=
  forall e, e ∈ E -> before l (e_src e) (e_dst e).

(** A duplicate-free linear order ranks vertices by their position. *)
Lemma linear_TopoRank E l :
  NoDup l -> topo_linear E l -> TopoRank E (fun v => index_in v l) (length l).
Proof.
  intros Hnd Hlin. split; intros e He; destruct (Hlin e He) as (i&j&Hi&Hj&Hij).
  - by rewrite (index_in_lookup l i), (index_in_lookup l j).
  - rewrite (index_in_lookup l j) by done. by eapply lookup_lt_Some.
Qed.

(** A checkable sufficient condition: positions increase along every edge. *)
Lemma topo_linear_of_index E l :
  Forall (fun e => (index_in (e_src e) l < index_in (e_dst e) l < length l)%nat) E ->
  topo_linear E l.
Proof.
  intros Hf e He. rewrite Forall_forall in Hf. destruct (Hf e He) as [H1 H2].
  exists (index_in (e_src e) l), (index_in (e_dst e) l).
  split_and!; [apply index_in_found; lia|by apply index_in_found|lia].
Qed.

Lemma edge_rel_endpoints E a b : edge_rel E a b -> b ∈ endpoints E.
Proof. intros (e&He&_&<-). by apply dst_endpoint. Qed.

(** A reachable vertex is the start or an edge endpoint. *)
Lemma rtc_endpoints E s x : rtc (edge_rel E) s x -> x = s \/ x ∈ endpoints E.
Proof.
  intros [->|(y&_&Hy)]%rtc_inv_r; [by left|right]. by eapply edge_rel_endpoints.
Qed.
