(* ===== verification/Topo.v ===== *)
(** * Topological sorter: [topo_order] of [src/low_level_problem.py]

    Kahn's algorithm.  [init_indeg] computes the in-degree table
    ([indeg = {n: 0 for n in nodes}] then [indeg[v] += 1] for every
    adjacency entry), the queue starts with the zero in-degree nodes in
    node order, and [kahn_loop] pops the queue's head ([popleft]), appends
    it to [order] and decrements its successors' in-degrees
    ([kahn_relax]), enqueueing each one whose in-degree reaches zero.
    [topo_order] raises [ValueError] ([ValueError_cycle]) when fewer than
    [len(nodes)] vertices were ordered.

    The [while q] loop is a fuel-indexed [Fixpoint]; the fuel is
    [length nodes] (each iteration orders one more node), and [kahn_run] /
    [kahn_loop_terminates] show the queue is empty when it runs out, so the
    fuel never cuts the loop short.  The invariant
    [kahn_inv] says that the in-degree of [v] counts the edges into [v]
    whose source is not yet ordered, and that the order so far respects
    every edge.  From it: [topo_order_sound] (the result is a permutation
    of the nodes listing every edge's source first) and
    [topo_order_complete] (the sort succeeds whenever such an order
    exists), and on a built graph [topo_order_correct] and
    [topo_order_cycle_iff]; [topo_on_EDGES] is the order computed on the
    dataset. *)

From Stdlib Require Import ZArith Lia.
From stdpp Require Import base list gmap.
From S2P Require Import Prelude PyBuiltins Graph Walks.

Local Open Scope Z_scope.

(** ** The code *)

(** [for v, _ in adj[u]: indeg[v] += 1] *)
Definition count_in (adj : Adj) (indeg : gmap Z Z) (u : Z) : gmap Z Z :=
  foldl (fun m vw => <[vw.1 := get0 m vw.1 + 1]> m) indeg (adj_get adj u).

Definition init_indeg (adj : Adj) (nodes : list Z) : gmap Z Z :=
  foldl (count_in adj) (zeros_on nodes) nodes.

(** [for v, _ in adj[u]: indeg[v] -= 1; if indeg[v] == 0: q.append(v)] *)
Fixpoint kahn_relax (succ : list (Z * Z)) (indeg : gmap Z Z) (q : list Z)
    : gmap Z Z * list Z :=
  match succ with
  | [] => (indeg, q)
  | (v, _) :: succ' =>
      let d := get0 indeg v - 1 in
      kahn_relax succ' (<[v := d]> indeg) (if decide (d = 0) then q ++ [v] else q)
  end.

(** [while q: u = q.popleft(); order.append(u); ...]; returns the order
    and the queue left when the loop stops. *)
Fixpoint kahn_loop (fuel : nat) (adj : Adj) (indeg : gmap Z Z) (q order : list Z)
    : list Z * list Z :=
  match fuel with
  | O => (order, q)
  | S fuel' =>
      match q with
      | [] => (order, [])
      | u :: q' =>
          let '(indeg', q'') := kahn_relax (adj_get adj u) indeg q' in
          kahn_loop fuel' adj indeg' q'' (order ++ [u])
      end
  end.

Definition initial_queue (indeg : gmap Z Z) (nodes : list Z) : list Z :=
  filter (fun n => get0 indeg n = 0) nodes.

Definition topo_order (adj : Adj) (nodes : list Z) : Result (list Z) :=
  let indeg := init_indeg adj nodes in
  let '(order, _) := kahn_loop (length nodes) adj indeg (initial_queue indeg nodes) [] in
  if decide (length order = length nodes) then Ok order else Err ValueError_cycle.

(** ** Counting adjacency entries *)

(** How many entries of [s] point to [v]. *)
Definition hits (s : list (Z * Z)) (v : Z) : Z := countZ (fun vw => vw.1 = v) s.

Lemma hits_out_edges E u v :
  hits (out_edges E u) v = countZ (fun e => e_src e = u /\ e_dst e = v) E.
Proof.
  unfold hits, out_edges, countZ. rewrite sumZ_map, sumZ_filter.
  apply sumZ_ext. intros e _. simpl. repeat case_decide; naive_solver.
Qed.

Lemma count_in_get adj m u v :
  get0 (count_in adj m u) v = get0 m v + hits (adj_get adj u) v.
Proof.
  unfold count_in, hits. generalize (adj_get adj u) as s. intros s.
  revert m. induction s as [|[x w] s IH]; intros m; simpl; [unfold countZ; simpl; lia|].
  rewrite IH, get0_insert. unfold countZ; simpl. repeat case_decide; simpl in *; subst; lia.
Qed.

(** ** The relaxation step *)

(** Relaxing the successors [s] of a vertex decrements each in-degree by
    the number of entries pointing to it, and enqueues exactly the
    vertices whose in-degree drops to zero, once each, provided no
    in-degree goes below zero. *)
Lemma kahn_relax_spec s m q m' q' :
  (forall v, hits s v <= get0 m v) ->
  kahn_relax s m q = (m', q') ->
  exists p, q' = q ++ p /\
    (forall v, get0 m' v = get0 m v - hits s v) /\
    (forall v, v ∈ p <-> 0 < hits s v /\ get0 m v = hits s v) /\
    NoDup p.
Proof.
  revert m q. induction s as [|[v0 w] s IH]; intros m q Hb Hr; simpl in Hr.
  - simplify_eq. exists []. rewrite app_nil_r. unfold hits, countZ; simpl.
    split_and!; [done|intros; lia|intros v; split; [set_solver|lia]|constructor].
  - assert (Hh : forall v, hits ((v0, w) :: s) v = (if decide (v0 = v) then 1 else 0) + hits s v).
    { intros v. unfold hits, countZ. simpl. by repeat case_decide. }
    apply IH in Hr as (p&->&Hget&Hp&Hnd).
    2:{ intros v. rewrite get0_insert. specialize (Hb v). rewrite Hh in Hb.
        destruct (decide (v0 = v)); subst; lia. }
    pose proof (countZ_nonneg (fun vw : Z * Z => vw.1 = v0) s) as Hn0.
    fold (hits s v0) in Hn0.
    exists ((if decide (get0 m v0 - 1 = 0) then [v0] else []) ++ p).
    split; [by case_decide; rewrite <- ?app_assoc|].
    split_and!.
    + intros v. rewrite Hget, get0_insert, Hh. destruct (decide (v0 = v)); subst; lia.
    + intros v. rewrite elem_of_app, Hp, get0_insert, Hh.
      pose proof (countZ_nonneg (fun vw : Z * Z => vw.1 = v) s) as Hnv.
      fold (hits s v) in Hnv. specialize (Hb v). rewrite Hh in Hb.
      destruct (decide (v0 = v)) as [<-|Hne].
      * destruct (decide (get0 m v0 - 1 = 0)) as [H1|H1].
        -- rewrite list_elem_of_singleton. split; [intros _; lia|intros _; by left].
        -- rewrite elem_of_nil. split; [intros [[]|[??]]; lia|intros [??]; right; lia].
      * assert (v ∉ if decide (get0 m v0 - 1 = 0) then [v0] else [])
          by (case_decide; set_solver).
        split; [intros [?|?]; [done|lia]|intros [??]; right; lia].
    + apply NoDup_app. split_and!; [by case_decide; [apply NoDup_singleton|constructor]| |done].
      intros x Hx. case_decide; [|set_solver]. apply list_elem_of_singleton in Hx as ->.
      rewrite Hp, get0_insert, decide_True by done. lia.
Qed.

Section Kahn.
Variables (E : list Edge) (adj : Adj) (nodes : list Z).
Hypothesis Hadj : forall u, adj_get adj u = out_edges E u.
Hypothesis Hnodes : NoDup nodes.
Hypothesis Hends : forall e, e ∈ E -> e_src e ∈ nodes /\ e_dst e ∈ nodes.

(** The initial in-degree of [v] is the number of edges into [v]. *)
Lemma init_indeg_get v : get0 (init_indeg adj nodes) v = countZ (fun e => e_dst e = v) E.
Proof.
  unfold init_indeg.
  cut (forall m ns, get0 (foldl (count_in adj) m ns) v =
    get0 m v + sumZ (fun u => countZ (fun e => e_src e = u /\ e_dst e = v) E) ns).
  { intros ->. rewrite get0_zeros_on. unfold countZ. rewrite sumZ_swap.
    simpl. apply sumZ_ext. intros e He.
    destruct (Hends e He) as [Hs _].
    case_decide.
    - transitivity (sumZ (fun x => if decide (e_src e = x) then 1 else 0) nodes);
        [|by apply sumZ_indicator].
      apply sumZ_ext. intros u _. repeat case_decide; first [done | exfalso; tauto].
    - rewrite sumZ_zero; [done|]. intros u _. case_decide; first [done | exfalso; tauto]. }
  intros m ns. revert m. induction ns as [|u ns IH]; intros m; simpl; [lia|].
  rewrite IH, count_in_get, Hadj, hits_out_edges. lia.
Qed.


(** ** The loop invariant *)

(** Edges into [v] whose source is not yet in [order]. *)
Definition unordered_in (order : list Z) (v : Z) : Z :=
  countZ (fun e => e_dst e = v /\ e_src e ∉ order) E.

Record kahn_inv (indeg : gmap Z Z) (q order : list Z) : Prop := {
  inv_indeg : forall v, get0 indeg v = unordered_in order v;
  inv_queue_zero : forall v, v ∈ q -> get0 indeg v = 0;
  inv_nodup : NoDup (order ++ q);
  inv_nodes : forall x, x ∈ order ++ q -> x ∈ nodes;
  inv_linear : forall e, e ∈ E -> e_dst e ∈ order -> before order (e_src e) (e_dst e);
  inv_zero_seen : forall v, v ∈ nodes -> get0 indeg v = 0 -> v ∈ order ++ q
}.

Lemma kahn_inv_init :
  kahn_inv (init_indeg adj nodes) (initial_queue (init_indeg adj nodes) nodes) [].
Proof.
  unfold initial_queue. split.
  - intros v. rewrite init_indeg_get. apply countZ_ext. intros e _. set_solver.
  - intros v [Hv _]%list_elem_of_filter. done.
  - simpl. by apply NoDup_filter.
  - intros x Hx. simpl in Hx. by apply list_elem_of_filter in Hx as [_ Hx].
  - intros e _ Hd. by apply elem_of_nil in Hd.
  - intros v Hv Hz. simpl. by apply list_elem_of_filter.
Qed.

(** Ordering [u] removes exactly the edges out of [u] from the count. *)
Lemma unordered_in_snoc order u v :
  u ∉ order ->
  unordered_in order v = unordered_in (order ++ [u]) v + hits (out_edges E u) v.
Proof.
  intros Hu. unfold unordered_in. rewrite hits_out_edges. unfold countZ.
  rewrite <- sumZ_add. apply sumZ_ext. intros e _.
  repeat case_decide; try lia; exfalso; set_solver.
Qed.

Lemma unordered_in_nonneg order v : 0 <= unordered_in order v.
Proof. apply countZ_nonneg. Qed.

(** Every edge into a vertex of in-degree 0 leaves an ordered vertex. *)
Lemma zero_indeg_sources order v e :
  unordered_in order v = 0 -> e ∈ E -> e_dst e = v -> e_src e ∈ order.
Proof.
  intros H0 He Hd. destruct (decide (e_src e ∈ order)) as [|Hs]; [done|].
  exfalso. eapply (proj1 (countZ_zero _ _) H0); eauto.
Qed.

Lemma snoc_queue_eq (order q1 p : list Z) u :
  (order ++ [u]) ++ q1 ++ p = (order ++ u :: q1) ++ p.
Proof. by rewrite <- !app_assoc. Qed.

Lemma kahn_inv_step m u q1 order m1 q2 :
  kahn_inv m (u :: q1) order ->
  kahn_relax (adj_get adj u) m q1 = (m1, q2) ->
  kahn_inv m1 q2 (order ++ [u]).
Proof.
  intros [Hi Hq Hnd Hn Hlin Hz] Hr. rewrite Hadj in Hr.
  assert (Hu : u ∉ order).
  { apply NoDup_app in Hnd as (_&Hd&_). intros Ho. apply (Hd u Ho). set_solver. }
  pose proof (fun v => unordered_in_snoc order u v Hu) as Hsplit.
  assert (Hc0 : forall v, 0 <= hits (out_edges E u) v) by (intros; apply countZ_nonneg).
  apply kahn_relax_spec in Hr as (p&->&Hget&Hp&Hndp).
  2:{ intros v. rewrite Hi, (Hsplit v). pose proof (unordered_in_nonneg (order ++ [u]) v). lia. }
  (* a vertex enqueued now has an edge from [u] *)
  assert (Hpe : forall v, v ∈ p -> exists e, e ∈ E /\ e_src e = u /\ e_dst e = v).
  { intros v [Hpos _]%Hp. rewrite hits_out_edges in Hpos.
    apply countZ_pos in Hpos as (e&He&?&?). eauto. }
  assert (Hq0 : forall v, v ∈ u :: q1 -> get0 m v = 0) by done.
  split.
  - intros v. rewrite Hget, Hi, Hsplit. lia.
  - intros v [Hv|Hv]%elem_of_app.
    + rewrite Hget. pose proof (Hq0 v ltac:(set_solver)) as H0.
      rewrite H0 in *. rewrite Hi, Hsplit in H0. specialize (Hc0 v).
      pose proof (unordered_in_nonneg (order ++ [u]) v). lia.
    + apply Hp in Hv as [_ Hv]. rewrite Hget. lia.
  - rewrite snoc_queue_eq. apply NoDup_app. split_and!; [done| |done].
    intros x Hx Hxp. pose proof Hxp as [Hpos Hmx]%Hp.
    apply elem_of_app in Hx as [Ho|Huq].
    + destruct (Hpe x Hxp) as (e&He&Hs&Hd).
      destruct (before_elem_of _ _ _ (Hlin e He ltac:(by rewrite Hd))) as [Hso _].
      rewrite Hs in Hso. done.
    + rewrite (Hq0 x Huq) in Hmx. lia.
  - intros x Hx. rewrite snoc_queue_eq in Hx. apply elem_of_app in Hx as [Hx|Hx]; [by apply Hn|].
    destruct (Hpe x Hx) as (e&He&_&<-). by apply Hends.
  - intros e He Hd. apply elem_of_app in Hd as [Hd|Hd%list_elem_of_singleton].
    + by apply before_app_r, Hlin.
    + rewrite Hd. apply before_snoc, (zero_indeg_sources order u e); [|done|done].
      rewrite <- Hi. apply Hq0. set_solver.
  - intros v Hv H0. rewrite Hget in H0.
    rewrite snoc_queue_eq. apply elem_of_app.
    destruct (decide (hits (out_edges E u) v = 0)) as [Hc|Hc].
    + left. apply Hz; [done|lia].
    + right. apply Hp. specialize (Hc0 v). lia.
Qed.

Lemma kahn_inv_length m q order :
  kahn_inv m q order -> (length order + length q <= length nodes)%nat.
Proof.
  intros [_ _ Hnd Hn _ _]. rewrite <- length_app.
  apply submseteq_length, NoDup_submseteq; [done|]. intros x Hx. by apply Hn.
Qed.

(** The loop keeps the invariant, and with [fuel] at least the number of
    vertices still to order it stops because the queue is empty. *)
Lemma kahn_loop_spec fuel m q order order' q' :
  kahn_inv m q order ->
  kahn_loop fuel adj m q order = (order', q') ->
  (exists m', kahn_inv m' q' order') /\
  ((length nodes <= fuel + length order)%nat -> q' = []).
Proof.
  revert m q order. induction fuel as [|fuel IH]; intros m q order Hinv Hl; simpl in Hl.
  - injection Hl as <- <-. split; [eauto|]. intros Hlen.
    pose proof (kahn_inv_length _ _ _ Hinv). destruct q; [done|simpl in *; lia].
  - destruct q as [|u q1].
    + injection Hl as <- <-. eauto.
    + destruct (kahn_relax (adj_get adj u) m q1) as [m1 q2] eqn:Hr.
      apply IH in Hl as [Hinv' Hq']; [|by eapply kahn_inv_step].
      split; [done|]. intros Hlen. apply Hq'. rewrite length_app. simpl. lia.
Qed.

Lemma kahn_run order q :
  kahn_loop (length nodes) adj (init_indeg adj nodes)
    (initial_queue (init_indeg adj nodes) nodes) [] = (order, q) ->
  q = [] /\ exists m, kahn_inv m [] order.
Proof.
  intros Hl. apply kahn_loop_spec in Hl as [[m Hinv] Hq]; [|apply kahn_inv_init].
  assert (q = []) as -> by (apply Hq; lia). eauto.
Qed.
(** ** Soundness, completeness and the cycle error *)

Lemma topo_order_cases :
  forall order q,
  kahn_loop (length nodes) adj (init_indeg adj nodes)
    (initial_queue (init_indeg adj nodes) nodes) [] = (order, q) ->
  topo_order adj nodes =
    if decide (length order = length nodes) then Ok order else Err ValueError_cycle.
Proof. intros order q Hl. unfold topo_order. cbv zeta. by rewrite Hl. Qed.

(** [topo_order] returns a permutation of the nodes that lists the
    source of every edge before its destination (spec 4.2, section 8). *)
Theorem topo_order_sound order :
  topo_order adj nodes = Ok order ->
  NoDup order /\ order ≡ₚ nodes /\ topo_linear E order.
Proof.
  destruct (kahn_loop (length nodes) adj (init_indeg adj nodes)
    (initial_queue (init_indeg adj nodes) nodes) []) as [order' q] eqn:Hl.
  rewrite (topo_order_cases _ _ Hl).
  apply kahn_run in Hl as [-> [m Hinv]].
  case_decide as Hlen; [|done]. intros [= <-].
  destruct Hinv as [_ _ Hnd Hn Hlin _]. rewrite app_nil_r in Hnd, Hn.
  assert (Hp : order' ≡ₚ nodes).
  { apply submseteq_length_Permutation; [|lia].
    apply NoDup_submseteq; [done|]. intros x Hx. by apply Hn. }
  split_and!; [done|done|].
  intros e He. apply Hlin; [done|]. rewrite Hp. by apply Hends.
Qed.

(** If some duplicate-free order lists every edge's source first, Kahn's
    algorithm orders every node and succeeds. *)
Theorem topo_order_complete :
  (exists l, NoDup l /\ topo_linear E l) -> exists order, topo_order adj nodes = Ok order.
Proof.
  intros (l&Hndl&Hlinl).
  destruct (kahn_loop (length nodes) adj (init_indeg adj nodes)
    (initial_queue (init_indeg adj nodes) nodes) []) as [order q] eqn:Hl.
  rewrite (topo_order_cases _ _ Hl).
  apply kahn_run in Hl as [-> [m Hinv]].
  destruct Hinv as [Hi _ Hnd Hn _ Hz]. rewrite app_nil_r in Hnd, Hn, Hz.
  assert (Hall : forall v, v ∈ nodes -> v ∈ order).
  { intros v. remember (index_in v l) as k eqn:Hk. revert v Hk.
    induction k as [k IH] using lt_wf_ind. intros v -> Hv.
    apply Hz; [done|]. rewrite Hi. apply countZ_zero. intros e He [Hd Hs].
    apply Hs. destruct (Hlinl e He) as (i&j&Hli&Hlj&Hij).
    apply (IH i); [|by rewrite (index_in_lookup l i)|by apply Hends].
    rewrite <- Hd, (index_in_lookup l j) by done. lia. }
  exists order. rewrite decide_True; [done|].
  apply Nat.le_antisymm; by apply submseteq_length, NoDup_submseteq.
Qed.

Lemma topo_order_err e : topo_order adj nodes = Err e -> e = ValueError_cycle.
Proof.
  destruct (kahn_loop (length nodes) adj (init_indeg adj nodes)
    (initial_queue (init_indeg adj nodes) nodes) []) as [order q] eqn:Hl.
  rewrite (topo_order_cases _ _ Hl). case_decide; congruence.
Qed.

(** The sort raises [ValueError] exactly when no duplicate-free order of
    the vertices respects every edge. *)
Theorem topo_order_Err_iff :
  topo_order adj nodes = Err ValueError_cycle <->
  ~ exists l, NoDup l /\ topo_linear E l.
Proof.
  split.
  - intros Herr Hex. destruct (topo_order_complete Hex) as [o Ho]. congruence.
  - intros Hno. destruct (topo_order adj nodes) as [o|e] eqn:Ht.
    + exfalso. apply Hno. exists o. by apply topo_order_sound in Ht as (?&_&?).
    + by apply topo_order_err in Ht as ->.
Qed.
End Kahn.

(** ** On the output of [build_graph] *)

Lemma build_graph_ends E adj radj nodes e :
  build_graph E = (adj, radj, nodes) -> e ∈ E -> e_src e ∈ nodes /\ e_dst e ∈ nodes.
Proof.
  intros Hb He. rewrite !(build_graph_nodes E adj radj nodes _ Hb).
  split; [by apply src_endpoint|by apply dst_endpoint].
Qed.

(** The three facts about a built graph the section [Kahn] assumes. *)
Lemma build_graph_kahn E adj radj nodes :
  build_graph E = (adj, radj, nodes) ->
  (forall u, adj_get adj u = out_edges E u) /\ NoDup nodes /\
  (forall e, e ∈ E -> e_src e ∈ nodes /\ e_dst e ∈ nodes).
Proof.
  intros Hb. split_and!; [intros u; by eapply build_graph_adj|by eapply build_graph_NoDup|].
  intros e. by apply (build_graph_ends E adj radj nodes).
Qed.

(** Every order returned on a built graph is duplicate-free, respects the
    edges and has one entry per node. *)
Lemma topo_order_built E adj radj nodes order :
  build_graph E = (adj, radj, nodes) -> topo_order adj nodes = Ok order ->
  NoDup order /\ topo_linear E order /\ length order = length nodes /\
  forall x, x ∈ order <-> x ∈ nodes.
Proof.
  intros (Ha&Hn&He)%build_graph_kahn Ht.
  destruct (topo_order_sound E adj nodes Ha Hn He order Ht) as (?&Hp&?).
  split_and!; [done|done|by apply Permutation_length|intros x; by rewrite Hp].
Qed.

(** On a built graph, a duplicate-free order respecting every edge makes
    the sort succeed. *)
Lemma build_topo_complete E adj radj nodes l :
  build_graph E = (adj, radj, nodes) -> NoDup l -> topo_linear E l ->
  exists order, topo_order adj nodes = Ok order.
Proof.
  intros (Ha&Hn&He)%build_graph_kahn Hnd Hlin.
  apply (topo_order_complete E adj nodes Ha Hn He). eauto.
Qed.

(** The sort's only error is the cycle error, raised when no order fits. *)
Lemma build_topo_err E adj radj nodes e :
  build_graph E = (adj, radj, nodes) -> topo_order adj nodes = Err e ->
  e = ValueError_cycle /\ ~ exists l, NoDup l /\ topo_linear E l.
Proof.
  intros Hb Ht. assert (e = ValueError_cycle) as -> by (eapply topo_order_err; eassumption).
  split; [done|]. intros [l [Hnd Hlin]].
  destruct (build_topo_complete E adj radj nodes l Hb Hnd Hlin). congruence.
Qed.

(** The order returned on a built graph ranks its vertices. *)
Lemma topo_order_TopoRank E adj radj nodes order :
  build_graph E = (adj, radj, nodes) -> topo_order adj nodes = Ok order ->
  TopoRank E (fun v => index_in v order) (length order).
Proof.
  intros Hb Ht. destruct (topo_order_built E adj radj nodes order Hb Ht) as (?&?&_).
  by apply linear_TopoRank.
Qed.

(** ** The sorter's contract *)

(** C3: On the output of [build_graph], [topo_order] returns a duplicate-free
    permutation of the nodes that lists the source of every edge before
    its destination (spec 4.2). *)
Theorem topo_order_correct E adj radj nodes order :
  build_graph E = (adj, radj, nodes) ->
  topo_order adj nodes = Ok order ->
  NoDup order /\ order ≡ₚ nodes /\ topo_linear E order.
Proof. intros (Ha&Hn&He)%build_graph_kahn. apply (topo_order_sound E adj nodes Ha Hn He). Qed.

(** C9: On a built graph, [topo_order] raises the cycle [ValueError]
    exactly when no duplicate-free order of the vertices lists every edge's
    source first, i.e. when the graph has a cycle. *)
Theorem topo_order_cycle_iff E adj radj nodes :
  build_graph E = (adj, radj, nodes) ->
  topo_order adj nodes = Err ValueError_cycle <->
  ~ exists l, NoDup l /\ topo_linear E l.
Proof. intros (Ha&Hn&He)%build_graph_kahn. apply (topo_order_Err_iff E adj nodes Ha Hn He). Qed.

(** The [while q] loop ends with an empty queue within [len(nodes)]
    iterations: the fuel never cuts it short. *)
Theorem kahn_loop_terminates E adj radj nodes :
  build_graph E = (adj, radj, nodes) ->
  exists order, kahn_loop (length nodes) adj (init_indeg adj nodes)
    (initial_queue (init_indeg adj nodes) nodes) [] = (order, []).
Proof.
  intros (Ha&Hn&He)%build_graph_kahn.
  destruct (kahn_loop _ _ _ _ _) as [order q] eqn:Hl.
  apply (kahn_run E adj nodes Ha Hn He) in Hl as [-> _]. eauto.
Qed.

(** ** The contract on the dataset *)

Lemma EDGES_sorted :
  build_graph EDGES = ((build_graph EDGES).1.1, (build_graph EDGES).1.2, (build_graph EDGES).2) /\
  topo_order (build_graph EDGES).1.1 (build_graph EDGES).2 = Ok [0; 1; 2; 5; 6; 4; 3; 7; 8].
Proof. split; [exact EDGES_built|vm_compute; reflexivity]. Qed.

Lemma topo_order_correct_on_EDGES :
  NoDup [0; 1; 2; 5; 6; 4; 3; 7; 8] /\ [0; 1; 2; 5; 6; 4; 3; 7; 8] ≡ₚ (build_graph EDGES).2 /\
  topo_linear EDGES [0; 1; 2; 5; 6; 4; 3; 7; 8].
Proof. destruct EDGES_sorted as [Hb Ht]. exact (topo_order_correct _ _ _ _ _ Hb Ht). Defined.

Lemma topo_order_cycle_iff_on_EDGES :
  topo_order (build_graph EDGES).1.1 (build_graph EDGES).2 = Err ValueError_cycle <->
  ~ exists l, NoDup l /\ topo_linear EDGES l.
Proof. destruct EDGES_sorted as [Hb _]. exact (topo_order_cycle_iff _ _ _ _ Hb). Defined.

Lemma kahn_loop_terminates_on_EDGES :
  exists order, kahn_loop (length (build_graph EDGES).2) (build_graph EDGES).1.1
    (init_indeg (build_graph EDGES).1.1 (build_graph EDGES).2)
    (initial_queue (init_indeg (build_graph EDGES).1.1 (build_graph EDGES).2)
      (build_graph EDGES).2) [] = (order, []).
Proof. destruct EDGES_sorted as [Hb _]. exact (kahn_loop_terminates _ _ _ _ Hb). Defined.

(** ** A run on the dataset *)

(** [test_topological_order_is_valid]: the order Kahn's algorithm returns. *)
Example topo_on_EDGES :
  let '(adj, _, nodes) := build_graph EDGES in
  topo_order adj nodes = Ok [0; 1; 2; 5; 6; 4; 3; 7; 8].
Proof. vm_compute. reflexivity. Qed.
