(* ===== verification/KahnSpec.v ===== *)
(** * Kahn's algorithm as a refinement of an abstract sorting relation

    The abstract specification of topological sorting by source removal
    (spec 4.2): a state is the list of vertices emitted so far, and
    [kahn_step] emits any vertex not yet emitted whose incoming edges all
    start at emitted vertices.  It is nondeterministic: the tie-break among
    several such vertices is left open, as the spec leaves it.

    [kahn_reachable_ok] is the invariant of the abstract system, by rule
    induction over its runs: every reachable state is duplicate-free, made
    of nodes, and lists the source of every edge into an emitted vertex
    before it; a state that emitted every node is therefore a topological
    order.

    [kahn_loop_refines] shows that the code's deterministic loop
    ([kahn_loop] of [Topo], a FIFO queue of zero in-degree vertices) is one
    run of the abstract system: the order it produces is reachable from
    the empty state and terminal, i.e. no vertex can be emitted after it;
    [topo_order] accepts it exactly when it has emitted every node. *)

From Stdlib Require Import ZArith Lia.
From stdpp Require Import base list gmap relations.
From S2P Require Import Prelude PyBuiltins Graph Walks Topo.

Local Open Scope Z_scope.

(** ** The abstract relation *)

Inductive kahn_step (E : list Edge) (nodes : list Z) : list Z -> list Z -> Prop :=
  | ks_emit order v :
      v ∈ nodes -> v ∉ order ->
      (forall e, e ∈ E -> e_dst e = v -> e_src e ∈ order) ->
      kahn_step E nodes order (order ++ [v]).

(** The invariant of the abstract runs. *)
Record kahn_state_ok (E : list Edge) (nodes : list Z) (order : list Z) : Prop := {
  ok_nodup : NoDup order;
  ok_nodes : forall x, x ∈ order -> x ∈ nodes;
  ok_linear : forall e, e ∈ E -> e_dst e ∈ order -> before order (e_src e) (e_dst e)
}.

(** ** The invariant *)

Lemma kahn_state_ok_step E nodes o o' :
  kahn_state_ok E nodes o -> kahn_step E nodes o o' -> kahn_state_ok E nodes o'.
Proof.
  intros Hok Hs. destruct Hs as [order v Hv Hvo Hsrc]. destruct Hok as [Hnd Hn Hlin]. split.
  - apply NoDup_app. split_and!; [done| |apply NoDup_singleton].
    intros x Hx ->%list_elem_of_singleton. done.
  - intros x [Hx | ->%list_elem_of_singleton]%elem_of_app; auto.
  - intros e He [Hd | Hd%list_elem_of_singleton]%elem_of_app.
    + by apply before_app_r, Hlin.
    + rewrite Hd. apply before_snoc, Hsrc; done.
Qed.

(** Every state the abstract system reaches from the empty list is
    duplicate-free, contains only nodes, and lists the source of every
    edge into an emitted vertex before that vertex. *)
Lemma kahn_reachable_ok E nodes order :
  rtc (kahn_step E nodes) [] order -> kahn_state_ok E nodes order.
Proof.
  intros Hr. apply (rtc_ind_r (R := kahn_step E nodes) (kahn_state_ok E nodes) []); [| |exact Hr].
  - split; [constructor|set_solver|]. intros e _ Hd. by apply elem_of_nil in Hd.
  - intros o o' _ Hs Hok. by eapply kahn_state_ok_step.
Qed.

(** ** The code refines the relation *)

Section Refine.
Variables (E : list Edge) (adj : Adj) (nodes : list Z).
Hypothesis Hadj : forall u, adj_get adj u = out_edges E u.
Hypothesis Hnodes : NoDup nodes.
Hypothesis Hends : forall e, e ∈ E -> e_src e ∈ nodes /\ e_dst e ∈ nodes.

(** Popping [u] from the queue is an abstract step. *)
Lemma kahn_pop_step m u q order :
  kahn_inv E nodes m (u :: q) order -> kahn_step E nodes order (order ++ [u]).
Proof.
  intros [Hi Hq Hnd Hn _ _]. constructor.
  - apply Hn. set_solver.
  - apply NoDup_app in Hnd as (_&Hd&_). intros Ho. apply (Hd u Ho). set_solver.
  - intros e He Hd. apply (zero_indeg_sources E order u e); [|done|done].
    rewrite <- Hi. apply Hq. set_solver.
Qed.

Lemma kahn_loop_run fuel m q order order' q' :
  kahn_inv E nodes m q order ->
  kahn_loop fuel adj m q order = (order', q') ->
  rtc (kahn_step E nodes) order order'.
Proof.
  revert m q order. induction fuel as [|fuel IH]; intros m q order Hinv Hl; simpl in Hl.
  - injection Hl as <- <-. apply rtc_refl.
  - destruct q as [|u q1]; [injection Hl as <- <-; apply rtc_refl|].
    destruct (kahn_relax (adj_get adj u) m q1) as [m1 q2] eqn:Hr.
    eapply rtc_l; [by eapply kahn_pop_step|].
    eapply IH; [|exact Hl]. by eapply kahn_inv_step.
Qed.

(** Once the queue is empty no vertex is enabled: every node whose
    in-edges all start at ordered vertices has in-degree 0, so it was
    enqueued, hence ordered. *)
Lemma kahn_final_stuck m order o' :
  kahn_inv E nodes m [] order -> ~ kahn_step E nodes order o'.
Proof.
  intros [Hi _ _ _ _ Hz] Hs. inversion Hs as [? v Hv Hvo Hsrc]; subst.
  apply Hvo. rewrite <- (app_nil_r order). apply Hz; [done|].
  rewrite Hi. apply countZ_zero. intros e He [Hd Hso]. by apply Hso, Hsrc.
Qed.
End Refine.

(** C4: On a built graph, the code's Kahn loop is a complete run of the
    abstract relation: the order it returns is reachable from the empty
    state, no vertex can be emitted after it, and [topo_order] returns it
    exactly when it contains every node, raising the cycle error
    otherwise. *)
Theorem kahn_loop_refines E adj radj nodes :
  build_graph E = (adj, radj, nodes) ->
  exists order,
    kahn_loop (length nodes) adj (init_indeg adj nodes)
      (initial_queue (init_indeg adj nodes) nodes) [] = (order, []) /\
    rtc (kahn_step E nodes) [] order /\ (forall o, ~ kahn_step E nodes order o) /\
    topo_order adj nodes =
      if decide (length order = length nodes) then Ok order else Err ValueError_cycle.
Proof.
  intros (Ha&Hn&He)%build_graph_kahn.
  destruct (kahn_loop _ _ _ _ _) as [order q] eqn:Hl.
  pose proof Hl as Hrun. apply (kahn_run E adj nodes Ha Hn He) in Hrun as [-> [m Hinv]].
  exists order. split_and!; [done| | |].
  - eapply kahn_loop_run; [done|done|done|by apply kahn_inv_init|exact Hl].
  - intros o. by eapply kahn_final_stuck.
  - by eapply topo_order_cases.
Qed.

(** ** On the dataset *)

Lemma kahn_loop_refines_on_EDGES :
  build_graph EDGES = ((build_graph EDGES).1.1, (build_graph EDGES).1.2, (build_graph EDGES).2) /\
  exists order,
    kahn_loop (length (build_graph EDGES).2) (build_graph EDGES).1.1
      (init_indeg (build_graph EDGES).1.1 (build_graph EDGES).2)
      (initial_queue (init_indeg (build_graph EDGES).1.1 (build_graph EDGES).2)
        (build_graph EDGES).2) [] = (order, []) /\
    rtc (kahn_step EDGES (build_graph EDGES).2) [] order /\
    (forall o, ~ kahn_step EDGES (build_graph EDGES).2 order o) /\
    topo_order (build_graph EDGES).1.1 (build_graph EDGES).2 =
      if decide (length order = length (build_graph EDGES).2) then Ok order
      else Err ValueError_cycle.
Proof. exact (conj EDGES_built (kahn_loop_refines _ _ _ _ EDGES_built)). Defined.
