(* ===== verification/Reach.v ===== *)
(** * Neighbour and reachability analyser of [src/low_level_problem.py]

    [neighbors_undirected adj radj node] is [outs | ins], the set of
    successors and predecessors of [node].  [reachable_from_source] is the
    stack loop: pop [u]; skip it if seen; otherwise mark it seen and push
    every successor not yet seen.  The Python list used as a stack is kept
    with its top at the head ([append] is [cons], [pop()] takes the head).

    The [while stack] loop runs on fuel [reach_fuel adj]: one more than
    [1 + ] the total length of the adjacency lists.  The measure
    [reach_measure] (stack length plus the adjacency entries of keys not
    yet seen) drops at every iteration ([reach_step_measure]), so the fuel
    is enough and the loop ends with an empty stack ([reach_loop_spec]).
    [reachable_iff] shows the result is exactly the set of vertices
    reachable from the source along the input's edges, and
    [neighbors_spec] characterises the neighbour set. *)

From Stdlib Require Import ZArith Lia.
From stdpp Require Import base list gmap relations.
From S2P Require Import Prelude PyBuiltins Graph Walks.

Local Open Scope Z_scope.

Definition neighbors_undirected (adj radj : Adj) (node : Z) : gset Z :=
  list_to_set (map fst (adj_get adj node)) ∪ list_to_set (map fst (adj_get radj node)).

(** [for v, _ in adj[u]: if v not in seen: stack.append(v)] *)
Definition push_unseen (seen : gset Z) (succ : list (Z * Z)) (stack : list Z) : list Z :=
  foldl (fun st vw => if decide (vw.1 ∈ seen) then st else vw.1 :: st) stack succ.

Fixpoint reach_loop (adj : Adj) (fuel : nat) (seen : gset Z) (stack : list Z)
    : gset Z * list Z :=
  match fuel with
  | O => (seen, stack)
  | S fuel' =>
      match stack with
      | [] => (seen, [])
      | u :: stack' =>
          if decide (u ∈ seen) then reach_loop adj fuel' seen stack'
          else
            let seen' := {[u]} ∪ seen in
            reach_loop adj fuel' seen' (push_unseen seen' (adj_get adj u) stack')
      end
  end.

(** Adjacency entries of the keys not in [seen]. *)
Definition adj_weight (adj : Adj) (seen : gset Z) : Z :=
  sumZ (fun k => if decide (k ∈ seen) then 0 else Z.of_nat (length (adj_get adj k)))
    (elements (dom adj)).

Definition reach_fuel (adj : Adj) : nat := S (Z.to_nat (1 + adj_weight adj ∅)).

Definition reachable_from_source (adj : Adj) (source : Z) : gset Z :=
  fst (reach_loop adj (reach_fuel adj) ∅ [source]).

(** ** The loop's measure *)

Definition reach_measure (adj : Adj) (seen : gset Z) (stack : list Z) : Z :=
  Z.of_nat (length stack) + adj_weight adj seen.

Lemma push_unseen_spec seen succ stack x :
  x ∈ push_unseen seen succ stack <-> x ∈ stack \/ (exists w, (x, w) ∈ succ /\ x ∉ seen).
Proof.
  unfold push_unseen. revert stack. induction succ as [|[v w] succ IH]; intros stack; simpl.
  - set_solver.
  - rewrite IH. case_decide; set_solver.
Qed.

Lemma push_unseen_length seen succ stack :
  (length (push_unseen seen succ stack) <= length stack + length succ)%nat.
Proof.
  unfold push_unseen. revert stack. induction succ as [|[v w] succ IH]; intros stack; simpl.
  - lia.
  - specialize (IH (if decide (v ∈ seen) then stack else v :: stack)).
    case_decide; simpl in *; lia.
Qed.

Lemma adj_weight_nonneg adj seen : 0 <= adj_weight adj seen.
Proof. apply sumZ_nonneg. intros k _. case_decide; lia. Qed.

Lemma adj_weight_add adj seen u :
  u ∉ seen ->
  adj_weight adj seen = adj_weight adj ({[u]} ∪ seen) + Z.of_nat (length (adj_get adj u)).
Proof.
  intros Hu. unfold adj_weight.
  destruct (decide (u ∈ dom adj)) as [Hd|Hd].
  - transitivity (sumZ (fun k => if decide (k ∈ {[u]} ∪ seen) then 0
        else Z.of_nat (length (adj_get adj k))) (elements (dom adj)) +
      Z.of_nat (length (adj_get adj u)) *
        sumZ (fun k => if decide (u = k) then 1 else 0) (elements (dom adj))).
    + rewrite <- sumZ_scale, <- sumZ_add. apply sumZ_ext. intros k _.
      repeat case_decide; subst; set_solver || lia.
    + rewrite sumZ_indicator; [lia|apply NoDup_elements|by apply elem_of_elements].
  - assert (adj_get adj u = []) as ->.
    { unfold adj_get. by rewrite (proj1 (not_elem_of_dom _ _) Hd). }
    simpl. rewrite Z.add_0_r. apply sumZ_ext. intros k Hk%elem_of_elements.
    repeat case_decide; set_solver.
Qed.

(** Every iteration that pops a vertex lowers the measure. *)
Lemma reach_step_measure adj seen u stack :
  reach_measure adj (if decide (u ∈ seen) then seen else {[u]} ∪ seen)
    (if decide (u ∈ seen) then stack
     else push_unseen ({[u]} ∪ seen) (adj_get adj u) stack)
  < reach_measure adj seen (u :: stack).
Proof.
  unfold reach_measure. simpl. case_decide as Hu; [lia|].
  rewrite (adj_weight_add adj seen u Hu).
  pose proof (push_unseen_length ({[u]} ∪ seen) (adj_get adj u) stack). lia.
Qed.

(** ** Correctness *)

Section Reach.
Variables (E : list Edge) (adj : Adj) (source : Z).
Hypothesis Hadj : forall u, adj_get adj u = out_edges E u.

Lemma elem_of_adj_get u x w :
  (x, w) ∈ adj_get adj u <-> exists e, e ∈ E /\ e_src e = u /\ e_dst e = x /\ e_w e = w.
Proof.
  rewrite Hadj. unfold out_edges. rewrite list_elem_of_fmap.
  setoid_rewrite list_elem_of_filter. split.
  - intros (e&[=]&?&?). subst. eauto.
  - intros (e&?&?&?&?). exists e. subst. naive_solver.
Qed.

(** Everything seen or stacked is reachable; every successor of a seen
    vertex is seen or stacked; the source is seen or stacked. *)
Record reach_inv (seen : gset Z) (stack : list Z) : Prop := {
  ri_sound : forall x, x ∈ seen \/ x ∈ stack -> rtc (edge_rel E) source x;
  ri_closed : forall x e, x ∈ seen -> e ∈ E -> e_src e = x ->
    e_dst e ∈ seen \/ e_dst e ∈ stack;
  ri_source : source ∈ seen \/ source ∈ stack
}.

Lemma reach_inv_step seen u stack :
  reach_inv seen (u :: stack) ->
  reach_inv (if decide (u ∈ seen) then seen else {[u]} ∪ seen)
    (if decide (u ∈ seen) then stack
     else push_unseen ({[u]} ∪ seen) (adj_get adj u) stack).
Proof.
  intros [Hs Hc Hsrc]. case_decide as Hu.
  - split.
    + intros x Hx. apply Hs. set_solver.
    + intros x e Hx He Hex. destruct (Hc x e Hx He Hex) as [?|Hin]; [by left|].
      apply elem_of_cons in Hin as [->|?]; [by left|by right].
    + destruct Hsrc as [?|Hin]; [by left|]. apply elem_of_cons in Hin as [->|?]; auto.
  - assert (Hru : rtc (edge_rel E) source u) by (apply Hs; set_solver).
    split.
    + intros x [Hx|Hx].
      * apply elem_of_union in Hx as [->%elem_of_singleton|Hx]; [done|].
        apply Hs. by left.
      * apply push_unseen_spec in Hx as [Hx|(w&Hx&_)]; [apply Hs; set_solver|].
        apply elem_of_adj_get in Hx as (e&He&Hse&Hde&_).
        apply rtc_r with u; [done|]. by exists e.
    + intros x e Hx He Hex. rewrite push_unseen_spec.
      apply elem_of_union in Hx as [->%elem_of_singleton|Hx].
      * destruct (decide (e_dst e ∈ {[u]} ∪ seen)) as [|Hn]; [by left|].
        right. right. exists (e_w e). split; [|done].
        apply elem_of_adj_get. eauto.
      * destruct (Hc x e Hx He Hex) as [?|Hin]; [left; set_solver|].
        apply elem_of_cons in Hin as [->|?]; [left; set_solver|by right; left].
    + rewrite push_unseen_spec.
      destruct Hsrc as [?|Hin]; [left; set_solver|].
      apply elem_of_cons in Hin as [->|?]; [left; set_solver|by right; left].
Qed.

(** With fuel above the measure, the loop empties the stack and keeps the
    invariant. *)
Lemma reach_loop_spec fuel seen stack seen' stack' :
  reach_inv seen stack ->
  reach_measure adj seen stack < Z.of_nat fuel ->
  reach_loop adj fuel seen stack = (seen', stack') ->
  stack' = [] /\ reach_inv seen' [].
Proof.
  revert seen stack. induction fuel as [|fuel IH]; intros seen stack Hinv Hm Hl.
  - pose proof (adj_weight_nonneg adj seen). unfold reach_measure in Hm. lia.
  - simpl in Hl. destruct stack as [|u stack].
    + by injection Hl as <- <-.
    + pose proof (reach_step_measure adj seen u stack) as Hdec.
      pose proof (reach_inv_step seen u stack Hinv) as Hinv'.
      case_decide; (apply IH in Hl; [done|done|lia]).
Qed.

(** [reachable_from_source] returns exactly the vertices reachable from
    the source. *)
Theorem reachable_iff x :
  x ∈ reachable_from_source adj source <-> rtc (edge_rel E) source x.
Proof.
  unfold reachable_from_source.
  destruct (reach_loop adj (reach_fuel adj) ∅ [source]) as [seen st] eqn:Hl. simpl.
  apply reach_loop_spec in Hl as [-> [Hs Hc Hsrc]].
  - split; [intros Hx; apply Hs; by left|].
    destruct Hsrc as [Hsrc|Hsrc]; [|by apply elem_of_nil in Hsrc].
    revert x. apply (rtc_ind_r (fun x => x ∈ seen)); [done|].
    intros a b _ (e&He&Ha&Hb) Ha'. subst. by destruct (Hc _ e Ha' He eq_refl)
      as [?|?%elem_of_nil].
  - split.
    + intros y [Hy|Hy]; [set_solver|]. apply list_elem_of_singleton in Hy as ->.
      apply rtc_refl.
    + set_solver.
    + right. set_solver.
  - unfold reach_measure, reach_fuel. simpl. pose proof (adj_weight_nonneg adj ∅). lia.
Qed.
End Reach.

(** The stack loop always ends: with fuel above the measure it returns an
    empty stack, whatever the map. *)
Lemma reach_loop_empties adj fuel seen stack :
  reach_measure adj seen stack < Z.of_nat fuel -> snd (reach_loop adj fuel seen stack) = [].
Proof.
  revert seen stack. induction fuel as [|fuel IH]; intros seen stack Hm.
  - pose proof (adj_weight_nonneg adj seen). unfold reach_measure in Hm. lia.
  - destruct stack as [|u stack]; [done|]. simpl.
    pose proof (reach_step_measure adj seen u stack).
    case_decide; apply IH; lia.
Qed.

Lemma neighbors_elem adj radj E node x :
  (forall u, adj_get adj u = out_edges E u) -> (forall v, adj_get radj v = in_edges E v) ->
  x ∈ neighbors_undirected adj radj node <->
  exists e, e ∈ E /\ ((e_src e = node /\ e_dst e = x) \/ (e_dst e = node /\ e_src e = x)).
Proof.
  intros Ha Hr. unfold neighbors_undirected. rewrite Ha, Hr.
  rewrite elem_of_union, !elem_of_list_to_set, !list_elem_of_fmap.
  unfold out_edges, in_edges. setoid_rewrite list_elem_of_fmap. split.
  - intros [((v&w)&Hx&e&Heq&He)|((v&w)&Hx&e&Heq&He)]; injection Heq as -> ->;
      simpl in Hx; subst x; apply list_elem_of_filter in He as [? ?]; exists e; auto.
  - intros (e&He&[[Hs Hd]|[Hd Hs]]); [left; exists (e_dst e, e_w e)|right; exists (e_src e, e_w e)];
      (split; [by subst|]); exists e; (split; [done|]); by apply list_elem_of_filter.
Qed.

(** ** On the output of [build_graph] *)

(** [neighbors_undirected] returns the vertices that share an edge with
    [node], in either direction (spec 4.5). *)
Theorem neighbors_spec E adj radj nodes node x :
  build_graph E = (adj, radj, nodes) ->
  x ∈ neighbors_undirected adj radj node <->
  exists e, e ∈ E /\ ((e_src e = node /\ e_dst e = x) \/ (e_dst e = node /\ e_src e = x)).
Proof.
  intros Hb. apply neighbors_elem; intros; [by eapply build_graph_adj|by eapply build_graph_radj].
Qed.

(** C20: [reachable_from_source] returns exactly the vertices reachable from the
    source along the edges (spec 4.5). *)
Theorem reachable_from_source_spec E adj radj nodes source x :
  build_graph E = (adj, radj, nodes) ->
  x ∈ reachable_from_source adj source <-> rtc (edge_rel E) source x.
Proof. intros Hb. apply reachable_iff. intros u. by eapply build_graph_adj. Qed.

(** C24: The [while stack] loop of [reachable_from_source] terminates within
    its fuel on every map: the stack is empty when the loop returns. *)
Theorem reachable_from_source_terminates adj source :
  snd (reach_loop adj (reach_fuel adj) ∅ [source]) = [].
Proof.
  apply reach_loop_empties. unfold reach_measure, reach_fuel. simpl.
  pose proof (adj_weight_nonneg adj ∅). lia.
Qed.

(** ** The contract on the dataset *)

Lemma neighbors_spec_on_EDGES :
  3 ∈ neighbors_undirected (build_graph EDGES).1.1 (build_graph EDGES).1.2 8 <->
  exists e, e ∈ EDGES /\ ((e_src e = 8 /\ e_dst e = 3) \/ (e_dst e = 8 /\ e_src e = 3)).
Proof. exact (neighbors_spec _ _ _ _ _ _ EDGES_built). Defined.

Lemma reachable_from_source_spec_on_EDGES :
  8 ∈ reachable_from_source (build_graph EDGES).1.1 SOURCE <-> rtc (edge_rel EDGES) SOURCE 8.
Proof. exact (reachable_from_source_spec _ _ _ _ _ _ EDGES_built). Defined.
