(* ===== verification/PathCount.v ===== *)
(** * Path counter: [count_paths_from_source] of [src/low_level_problem.py]

    [ways = {n: 0 for n in nodes}; ways[source] = 1], then for each [u] of
    the topological order and each [(v, _)] of [adj[u]],
    [ways[v] += ways[u]].  Under a duplicate-free order that lists every
    edge's source first (what [topo_order] returns), the table satisfies
    the recurrence of spec section 8 ([count_paths_recurrence]) and so
    equals the number of walks of [Walks] ([count_paths_correct]),
    whichever such order is used ([count_paths_order_invariant]).
    [ways_are_path_counts], [ways_recurrence] and [ways_source] (the
    source's count is 1) state it for the output of [build_graph] and
    [topo_order], and
    [ways_pos_iff_reachable] relates it to the reachability analyser: a
    vertex has a positive count exactly when [reachable_from_source]
    reaches it. *)

From Stdlib Require Import ZArith Lia.
From stdpp Require Import base list gmap.
From S2P Require Import Prelude PyBuiltins Graph Walks Topo Reach.

Local Open Scope Z_scope.

(** [ways[v] += ways[u]] *)
Definition add_ways (u : Z) (ways : gmap Z Z) (vw : Z * Z) : gmap Z Z :=
  <[vw.1 := get0 ways vw.1 + get0 ways u]> ways.

(** [for v, _ in adj[u]: ways[v] += ways[u]] *)
Definition relax_ways (adj : Adj) (ways : gmap Z Z) (u : Z) : gmap Z Z :=
  foldl (add_ways u) ways (adj_get adj u).

Definition count_paths_from_source (adj : Adj) (nodes topo : list Z) (source : Z)
    : gmap Z Z :=
  foldl (relax_ways adj) (<[source := 1]> (zeros_on nodes)) topo.

Lemma relax_ways_get adj ways u x :
  (forall vw, vw ∈ adj_get adj u -> vw.1 <> u) ->
  get0 (relax_ways adj ways u) x = get0 ways x + hits (adj_get adj u) x * get0 ways u.
Proof.
  unfold relax_ways, hits. generalize (adj_get adj u) as s. intros s.
  revert ways. induction s as [|[v w] s IH]; intros ways Hs; simpl.
  - unfold countZ; simpl. lia.
  - rewrite IH by set_solver. unfold add_ways; simpl.
    assert (Hvu : v <> u) by (apply (Hs (v, w)); set_solver).
    rewrite !get0_insert. destruct (decide (v = u)); [done|].
    unfold countZ; simpl. destruct (decide (v = x)); subst; lia.
Qed.

(** The keys of the table: the nodes and the source ([ways[v] += ...]
    only writes successors, which are nodes). *)
Lemma count_paths_key adj nodes topo source k :
  (forall u vw, vw ∈ adj_get adj u -> vw.1 ∈ nodes) ->
  is_Some (count_paths_from_source adj nodes topo source !! k) <-> k = source \/ k ∈ nodes.
Proof.
  intros Hs. unfold count_paths_from_source.
  cut (forall m : gmap Z Z, (is_Some (m !! k) <-> k = source \/ k ∈ nodes) ->
    is_Some (foldl (relax_ways adj) m topo !! k) <-> k = source \/ k ∈ nodes).
  { intros H. apply H. rewrite lookup_insert. case_decide as Hk.
    - split; [intros _; by left|eauto].
    - rewrite zeros_on_key. naive_solver. }
  induction topo as [|u topo IH]; intros m Hm; simpl; [done|].
  apply IH. unfold relax_ways. specialize (Hs u). revert Hs. generalize (adj_get adj u) as succ.
  intros succ. revert m Hm. induction succ as [|[v w] succ IHs]; intros m Hm Hsucc; simpl; [done|].
  apply IHs; [|set_solver]. unfold add_ways; simpl. rewrite lookup_insert.
  specialize (Hsucc (v, w) ltac:(set_solver)). simpl in Hsucc.
  case_decide as Hvk; [subst; split; [intros _; by right|eauto]|done].
Qed.

Lemma count_paths_init nodes source v :
  get0 (<[source := 1]> (zeros_on nodes)) v = ind (source = v).
Proof. rewrite get0_insert, get0_zeros_on. unfold ind. by case_decide. Qed.

Section DP.
Variables (E : list Edge) (adj : Adj) (nodes topo : list Z) (source : Z).
Hypothesis Hadj : forall u, adj_get adj u = out_edges E u.
Hypothesis Hnd : NoDup topo.
Hypothesis Hlin : topo_linear E topo.

Definition rank_of (v : Z) : nat := index_in v topo.

#[local] Instance topo_rank : TopoRank E rank_of (length topo) :=
  linear_TopoRank E topo Hnd Hlin.

Lemma out_edges_not_self u vw : vw ∈ adj_get adj u -> vw.1 <> u.
Proof.
  rewrite Hadj. unfold out_edges. intros (e&->&He)%list_elem_of_fmap.
  apply list_elem_of_filter in He as [<- He]. simpl.
  pose proof (rank_edge e He). intros Heq. rewrite Heq in *. lia.
Qed.

(** Processing [u] only changes later vertices: no edge leaves [u]
    towards [u] or a vertex ordered before it. *)
Lemma no_back_hits P u R y :
  topo = (P ++ [u]) ++ R -> y ∈ P ++ [u] -> hits (out_edges E u) y = 0.
Proof.
  intros Ht Hy. rewrite hits_out_edges. apply countZ_zero. intros e He [Hs Hd].
  pose proof (rank_edge e He) as Hr. rewrite Hs, Hd in Hr. unfold rank_of in Hr.
  apply list_elem_of_lookup in Hy as [i Hi].
  pose proof (lookup_lt_Some _ _ _ Hi) as Hlt. rewrite length_app in Hlt; simpl in Hlt.
  rewrite (index_in_lookup topo i y), (index_in_lookup topo (length P) u) in Hr;
    [lia|done| |done|].
  - rewrite Ht, <- app_assoc. rewrite lookup_app_r, Nat.sub_diag; done.
  - rewrite Ht. by apply lookup_app_l_Some.
Qed.

Lemma count_paths_prefix P R :
  topo = P ++ R ->
  forall v, get0 (foldl (relax_ways adj) (<[source := 1]> (zeros_on nodes)) P) v =
    ind (source = v) +
    sumZ (fun e => if decide (e_src e ∈ P) then
      get0 (foldl (relax_ways adj) (<[source := 1]> (zeros_on nodes)) P) (e_src e)
      else 0) (into E v).
Proof.
  revert R. induction P as [|u P IH] using rev_ind; intros R Ht v.
  - simpl. rewrite count_paths_init, sumZ_zero; [lia|]. intros e _. set_solver.
  - rewrite foldl_app. simpl.
    assert (Hu : u ∉ P).
    { rewrite Ht, <- app_assoc in Hnd. apply NoDup_app in Hnd as (_&Hd&_).
      intros HuP. apply (Hd u HuP). set_solver. }
    rewrite relax_ways_get by apply out_edges_not_self. rewrite Hadj.
    rewrite (IH (u :: R)) by (rewrite Ht; by rewrite <- app_assoc).
    set (W := foldl (relax_ways adj) (<[source:=1]> (zeros_on nodes)) P).
    rewrite (sumZ_ext
        (fun e => if decide (e_src e ∈ P ++ [u]) then get0 (relax_ways adj W u) (e_src e) else 0)
        (fun e => (if decide (e_src e ∈ P) then get0 W (e_src e) else 0)
        + ind (e_src e = u) * get0 W u)).
    2:{ intros e _. rewrite relax_ways_get by apply out_edges_not_self.
        rewrite Hadj. unfold ind.
        destruct (decide (e_src e ∈ P ++ [u])) as [Hin|Hin].
        - rewrite (no_back_hits P u R (e_src e)) by done.
          destruct (decide (e_src e ∈ P)) as [HP|HP], (decide (e_src e = u)) as [Heq|Hne];
            try rewrite Heq in *; try lia; exfalso; set_solver.
        - rewrite !decide_False by set_solver. lia. }
    rewrite sumZ_add, (sumZ_ext (fun e => ind (e_src e = u) * get0 W u)
        (fun e => get0 W u * ind (e_src e = u))) by (intros; lia).
    rewrite sumZ_scale, hits_out_edges.
    assert (Hc : sumZ (fun e => ind (e_src e = u)) (into E v) =
                 countZ (fun e => e_src e = u /\ e_dst e = v) E).
    { rewrite sum_into. apply sumZ_ext. intros e _. unfold ind.
      repeat case_decide; tauto || lia. }
    rewrite Hc. lia.
Qed.

(** The recurrence of spec section 8: [ways[v]] is [1] for the source
    plus the sum of [ways[u]] over the edges [(u, v)], one term per
    edge. *)
Theorem count_paths_recurrence v :
  get0 (count_paths_from_source adj nodes topo source) v =
    ind (source = v) +
    sumZ (fun e => get0 (count_paths_from_source adj nodes topo source) (e_src e)) (into E v).
Proof.
  unfold count_paths_from_source.
  rewrite (count_paths_prefix topo []) by (by rewrite app_nil_r).
  f_equal. apply sumZ_ext. intros e [_ He]%elem_of_into.
  rewrite decide_True; [done|]. by destruct (Hlin e He) as (i&_&Hi&_); eapply list_elem_of_lookup_2.
Qed.

(** [ways[v]] is the number of walks from the source to [v]. *)
Theorem count_paths_correct v :
  get0 (count_paths_from_source adj nodes topo source) v =
    paths_count E (length topo) source v.
Proof.
  apply (recurrence_unique E rank_of (length topo) (fun v => ind (source = v))).
  - apply count_paths_recurrence.
  - intros x. exact (paths_count_recurrence E rank_of (length topo) source x).
Qed.
End DP.

(** C21: The table does not depend on the topological order used (spec
    4.2: the tie-break of Kahn's algorithm does not affect counts): any
    two duplicate-free orders listing every edge's source first give the
    same counts. *)
Theorem count_paths_order_invariant E adj nodes l1 l2 source v :
  (forall u, adj_get adj u = out_edges E u) ->
  NoDup l1 -> topo_linear E l1 -> NoDup l2 -> topo_linear E l2 ->
  get0 (count_paths_from_source adj nodes l1 source) v =
  get0 (count_paths_from_source adj nodes l2 source) v.
Proof.
  intros Hadj Hnd1 Hl1 Hnd2 Hl2. pose proof (linear_TopoRank E l1 Hnd1 Hl1).
  apply (recurrence_unique E (fun v => index_in v l1) (length l1) (fun v => ind (source = v))).
  - exact (count_paths_recurrence E adj nodes l1 source Hadj Hnd1 Hl1).
  - exact (count_paths_recurrence E adj nodes l2 source Hadj Hnd2 Hl2).
Qed.

(** ** On the output of [build_graph] and [topo_order] *)

Section Program.
Variables (E : list Edge) (source : Z) (adj radj : Adj) (nodes order : list Z).
Hypothesis Hb : build_graph E = (adj, radj, nodes).
Hypothesis Ht : topo_order adj nodes = Ok order.

Let ways := count_paths_from_source adj nodes order source.

Lemma program_linear : NoDup order /\ topo_linear E order.
Proof. by destruct (topo_order_built E adj radj nodes order Hb Ht) as (?&?&_). Qed.

#[local] Instance program_rank : TopoRank E (fun v => index_in v order) (length order) :=
  topo_order_TopoRank E adj radj nodes order Hb Ht.

Lemma program_adj u : adj_get adj u = out_edges E u.
Proof. by eapply build_graph_adj. Qed.

(** C1: [ways[v]] is the number of walks from the source to [v] in the input
    graph, parallel edges counted separately (spec 4.3). *)
Theorem ways_are_path_counts v : get0 ways v = paths_count E (length order) source v.
Proof.
  destruct program_linear as [Hnd Hlin].
  exact (count_paths_correct E adj nodes order source program_adj Hnd Hlin v).
Qed.

(** C19: The recurrence of spec section 8, on the program's output. *)
Theorem ways_recurrence v :
  get0 ways v = ind (source = v) + sumZ (fun e => get0 ways (e_src e)) (into E v).
Proof.
  destruct program_linear as [Hnd Hlin].
  exact (count_paths_recurrence E adj nodes order source program_adj Hnd Hlin v).
Qed.

(** The count of the source is exactly 1 (spec section 8). *)
Theorem ways_source : get0 ways source = 1.
Proof.
  destruct program_linear as [Hnd Hlin]. unfold ways.
  rewrite (count_paths_correct E adj nodes order source program_adj Hnd Hlin).
  exact (paths_count_self E (fun v => index_in v order) (length order) source).
Qed.

Lemma ways_nonneg v : 0 <= get0 ways v.
Proof.
  destruct program_linear as [Hnd Hlin]. unfold ways.
  rewrite (count_paths_correct E adj nodes order source program_adj Hnd Hlin).
  apply paths_count_nonneg.
Qed.
End Program.

(** ** Counts and reachability *)

(** C25: On an acyclic input, [ways[v] > 0] exactly when [v] is in the set
    returned by [reachable_from_source]. *)
Theorem ways_pos_iff_reachable E source adj radj nodes order v :
  build_graph E = (adj, radj, nodes) -> topo_order adj nodes = Ok order ->
  0 < get0 (count_paths_from_source adj nodes order source) v <->
  v ∈ reachable_from_source adj source.
Proof.
  intros Hb Ht. destruct (topo_order_built E adj radj nodes order Hb Ht) as (Hnd&Hlin&_).
  pose proof (topo_order_TopoRank E adj radj nodes order Hb Ht).
  rewrite (count_paths_correct E adj nodes order source (program_adj E adj radj nodes Hb) Hnd Hlin),
    (reachable_iff E adj source (program_adj E adj radj nodes Hb)).
  exact (paths_count_pos_iff E (fun v => index_in v order) (length order) source v).
Qed.

(** ** The contract on the dataset *)

Lemma ways_are_path_counts_on_EDGES :
  get0 (count_paths_from_source (build_graph EDGES).1.1 (build_graph EDGES).2
    [0; 1; 2; 5; 6; 4; 3; 7; 8] SOURCE) 8 = paths_count EDGES 9 SOURCE 8.
Proof. destruct EDGES_sorted as [Hb Ht]. exact (ways_are_path_counts _ _ _ _ _ _ Hb Ht 8). Defined.

Lemma ways_recurrence_on_EDGES :
  get0 (count_paths_from_source (build_graph EDGES).1.1 (build_graph EDGES).2
    [0; 1; 2; 5; 6; 4; 3; 7; 8] SOURCE) 8 =
    ind (SOURCE = 8) + sumZ (fun e => get0 (count_paths_from_source (build_graph EDGES).1.1
      (build_graph EDGES).2 [0; 1; 2; 5; 6; 4; 3; 7; 8] SOURCE) (e_src e)) (into EDGES 8).
Proof. destruct EDGES_sorted as [Hb Ht]. exact (ways_recurrence _ _ _ _ _ _ Hb Ht 8). Defined.

Lemma ways_source_on_EDGES :
  get0 (count_paths_from_source (build_graph EDGES).1.1 (build_graph EDGES).2
    [0; 1; 2; 5; 6; 4; 3; 7; 8] SOURCE) SOURCE = 1.
Proof. destruct EDGES_sorted as [Hb Ht]. exact (ways_source _ _ _ _ _ _ Hb Ht). Defined.

Lemma ways_pos_iff_reachable_on_EDGES :
  0 < get0 (count_paths_from_source (build_graph EDGES).1.1 (build_graph EDGES).2
    [0; 1; 2; 5; 6; 4; 3; 7; 8] SOURCE) 8 <->
  8 ∈ reachable_from_source (build_graph EDGES).1.1 SOURCE.
Proof. destruct EDGES_sorted as [Hb Ht]. exact (ways_pos_iff_reachable _ _ _ _ _ _ _ Hb Ht). Defined.

Lemma count_paths_order_invariant_on_EDGES :
  NoDup [0; 6; 5; 2; 4; 3; 7; 1; 8] /\ topo_linear EDGES [0; 6; 5; 2; 4; 3; 7; 1; 8] /\
  get0 (count_paths_from_source (build_graph EDGES).1.1 (build_graph EDGES).2
    [0; 1; 2; 5; 6; 4; 3; 7; 8] SOURCE) 8 =
  get0 (count_paths_from_source (build_graph EDGES).1.1 (build_graph EDGES).2
    [0; 6; 5; 2; 4; 3; 7; 1; 8] SOURCE) 8.
Proof.
  destruct EDGES_sorted as [Hb Ht]. destruct (topo_order_built _ _ _ _ _ Hb Ht) as (Hnd1&Hl1&_).
  assert (Hnd2 : NoDup [0; 6; 5; 2; 4; 3; 7; 1; 8]) by (apply (bool_decide_unpack _); vm_compute; exact I).
  assert (Hl2 : topo_linear EDGES [0; 6; 5; 2; 4; 3; 7; 1; 8])
    by (apply topo_linear_of_index, (bool_decide_unpack _); vm_compute; exact I).
  exact (conj Hnd2 (conj Hl2 (count_paths_order_invariant EDGES _ _ _ _ SOURCE 8
    (fun u => build_graph_adj _ _ _ _ u Hb) Hnd1 Hl1 Hnd2 Hl2))).
Defined.
