(* ===== verification/Enumerate.v ===== *)
(** * Path enumerator: [enumerate_paths_dfs] of [src/low_level_problem.py]

    The source's DFS mutates two shared lists: the accumulator [paths]
    (closed over by the nested [dfs]) and the current [path], extended with
    [path.append(v)] before each recursive call and restored with
    [path.pop()] after it.  [dfs] models both as an explicit
    [dfs_state]; recording a path stores a copy, which here is the list
    value itself.  Recursion depth is bounded by a fuel of
    [size adj + 1] (one more than the number of vertices, since every
    walk in a DAG is shorter).

    [dfs_state_pure] shows the stateful DFS leaves [path] as it found it
    and appends to [paths] exactly the list computed by the pure
    [dfs_paths] ([enumerate_paths_dfs_pure] for the whole search).  On a graph that [topo_order] accepts: the number of
    paths reported equals the DP's [ways[target]]
    ([enumerate_count_eq_ways], the cross-check of spec section 8), and the
    reported pairs are exactly the walks from the source that end at the
    first visit of the target, each with the sum of its weights
    ([enumerate_sound], [enumerate_complete]); each of them is a simple
    path ([enumerate_paths_simple]). *)

From Stdlib Require Import ZArith Lia.
From stdpp Require Import base list gmap.
From S2P Require Import Prelude PyBuiltins Graph Walks Topo PathCount.

Local Open Scope Z_scope.

Record dfs_state := DfsState { paths : list (list Z * Z); path : list Z }.

(** [def dfs(u, acc_cost, path)] with its shared state made explicit. *)
Fixpoint dfs (adj : Adj) (target : Z) (fuel : nat) (u acc : Z) (st : dfs_state)
    : dfs_state :=
  match fuel with
  | O => st
  | S fuel' =>
      if decide (u = target) then DfsState (paths st ++ [(path st, acc)]) (path st)
      else
        foldl (fun st vw =>
                 let st1 := DfsState (paths st) (path st ++ [vw.1]) in
                 let st2 := dfs adj target fuel' vw.1 (acc + vw.2) st1 in
                 DfsState (paths st2) (removelast (path st2)))
              st (adj_get adj u)
  end.

Definition enumerate_paths_dfs (adj : Adj) (source target : Z) : list (list Z * Z) :=
  paths (dfs adj target (S (size adj)) source 0 (DfsState [] [source])).

(** The same search as a pure function of the current prefix. *)
Fixpoint dfs_paths (adj : Adj) (target : Z) (fuel : nat) (u acc : Z) (pre : list Z)
    : list (list Z * Z) :=
  match fuel with
  | O => []
  | S fuel' =>
      if decide (u = target) then [(pre, acc)]
      else flat_map (fun vw => dfs_paths adj target fuel' vw.1 (acc + vw.2) (pre ++ [vw.1]))
             (adj_get adj u)
  end.

(** Each call restores [path] and appends its findings to [paths]. *)
Lemma dfs_state_pure adj target fuel u acc ps pre :
  dfs adj target fuel u acc (DfsState ps pre) =
  DfsState (ps ++ dfs_paths adj target fuel u acc pre) pre.
Proof.
  revert u acc ps pre. induction fuel as [|fuel IH]; intros u acc ps pre; simpl.
  - by rewrite app_nil_r.
  - case_decide; [done|].
    generalize (adj_get adj u) as L. intros L. revert ps.
    induction L as [|[v w] L IHL]; intros ps; simpl; [by rewrite app_nil_r|].
    rewrite IH. simpl. rewrite removelast_last, IHL. by rewrite app_assoc.
Qed.

(** The code's DFS, with its shared [paths] and [path] lists, returns the
    list computed by the pure search from the prefix [[source]]. *)
Theorem enumerate_paths_dfs_pure adj source target :
  enumerate_paths_dfs adj source target =
  dfs_paths adj target (S (size adj)) source 0 [source].
Proof. unfold enumerate_paths_dfs. by rewrite dfs_state_pure. Qed.

(** ** Walks that stop at the target *)

(** [stop_walk E t u q c]: following edges of [E] from [u], the vertices
    after [u] are [q], the weights add up to [c], and the walk ends at the
    first visit of [t]. *)
Inductive stop_walk (E : list Edge) (t : Z) : Z -> list Z -> Z -> Prop :=
  | sw_stop : stop_walk E t t [] 0
  | sw_step u e q c :
      e ∈ E -> e_src e = u -> u <> t ->
      stop_walk E t (e_dst e) q c ->
      stop_walk E t u (e_dst e :: q) (e_w e + c).

Section Enum.
Variables (E : list Edge) (adj : Adj) (target : Z).
Hypothesis Hadj : forall u, adj_get adj u = out_edges E u.

Lemma elem_of_adj u vw : vw ∈ adj_get adj u <->
  exists e, e ∈ E /\ e_src e = u /\ vw = (e_dst e, e_w e).
Proof.
  rewrite Hadj. unfold out_edges. rewrite list_elem_of_fmap.
  setoid_rewrite list_elem_of_filter. naive_solver.
Qed.

Lemma dfs_paths_length n u acc pre :
  Z.of_nat (length (dfs_paths adj target n u acc pre)) = dfs_count E n u target.
Proof.
  revert u acc pre. induction n as [|n IH]; intros u acc pre; simpl; [done|].
  case_decide; [done|]. rewrite length_flat_mapZ, Hadj. unfold out_edges.
  rewrite sumZ_map. apply sumZ_ext. intros e _. apply IH.
Qed.

Lemma dfs_paths_sound n u acc pre p c :
  (p, c) ∈ dfs_paths adj target n u acc pre ->
  exists q c', p = pre ++ q /\ c = acc + c' /\ stop_walk E target u q c'.
Proof.
  revert u acc pre. induction n as [|n IH]; intros u acc pre Hp; simpl in Hp;
    [by apply elem_of_nil in Hp|].
  case_decide as Hut.
  - apply list_elem_of_singleton in Hp. injection Hp as -> ->. subst.
    exists [], 0. rewrite app_nil_r. split_and!; [done|lia|constructor].
  - apply list_elem_of_In, in_flat_map in Hp as (vw&Hvw&Hp).
    apply list_elem_of_In in Hvw, Hp.
    apply elem_of_adj in Hvw as (e&He&Hs&->). simpl in Hp.
    apply IH in Hp as (q&c'&->&->&Hq).
    exists (e_dst e :: q), (e_w e + c'). rewrite <- app_assoc.
    split_and!; [done|lia|by econstructor].
Qed.

Lemma dfs_paths_complete n u acc pre q c :
  stop_walk E target u q c -> (length q < n)%nat ->
  (pre ++ q, acc + c) ∈ dfs_paths adj target n u acc pre.
Proof.
  intros Hw. revert n acc pre.
  induction Hw as [|u e q c He Hs Hut Hw IH]; intros n acc pre Hn;
    destruct n as [|n]; simpl in *; try lia.
  - rewrite decide_True, app_nil_r, Z.add_0_r by done. by constructor.
  - rewrite decide_False by done. apply list_elem_of_In, in_flat_map.
    exists (e_dst e, e_w e). rewrite <- !list_elem_of_In. split.
    + apply elem_of_adj. eauto.
    + simpl. replace (pre ++ e_dst e :: q) with ((pre ++ [e_dst e]) ++ q)
        by by rewrite <- app_assoc.
      replace (acc + (e_w e + c)) with ((acc + e_w e) + c) by lia.
      apply IH. lia.
Qed.
End Enum.

Lemma stop_walk_length E rank B `{!TopoRank E rank B} t u q c :
  stop_walk E t u q c -> q = [] \/ (length q + rank u < B)%nat.
Proof.
  induction 1 as [|u e q c He Hs Hut Hw IH]; [by left|right].
  pose proof (rank_edge e He). pose proof (rank_bound e He). subst u.
  destruct IH as [->|IH]; simpl; lia.
Qed.

(** Ranks increase strictly along a walk, so it visits no vertex twice. *)
Lemma stop_walk_simple E rank B `{!TopoRank E rank B} t u q c :
  stop_walk E t u q c -> NoDup (u :: q) /\ Forall (fun x => (rank u < rank x)%nat) q.
Proof.
  induction 1 as [|u e q c He Hs Hut Hw IH].
  - split; [apply NoDup_singleton|constructor].
  - pose proof (rank_edge e He) as Hr. subst u. destruct IH as [Hnd Hf].
    assert (Hf' : Forall (fun x => (rank (e_src e) < rank x)%nat) (e_dst e :: q)).
    { constructor; [done|]. eapply Forall_impl; [exact Hf|]. simpl. lia. }
    split; [|done]. constructor; [|done].
    intros Hin. rewrite Forall_forall in Hf'. specialize (Hf' _ Hin). lia.
Qed.

(** ** On the output of [build_graph] and [topo_order] *)

Section Program.
Variables (E : list Edge) (source target : Z) (adj radj : Adj) (nodes order : list Z).
Hypothesis Hb : build_graph E = (adj, radj, nodes).
Hypothesis Ht : topo_order adj nodes = Ok order.

#[local] Instance enum_rank : TopoRank E (fun v => index_in v order) (length order) :=
  topo_order_TopoRank E adj radj nodes order Hb Ht.

Lemma enumerate_pure :
  enumerate_paths_dfs adj source target =
  dfs_paths adj target (S (length order)) source 0 [source].
Proof.
  unfold enumerate_paths_dfs. rewrite dfs_state_pure. simpl.
  by rewrite (build_graph_size E adj radj nodes Hb), (proj1 (proj2 (proj2 (topo_order_built E adj radj nodes order Hb Ht)))).
Qed.

Lemma enumerate_length :
  Z.of_nat (length (enumerate_paths_dfs adj source target)) =
  get0 (count_paths_from_source adj nodes order source) target.
Proof.
  rewrite enumerate_pure, (dfs_paths_length E); [|intros; by eapply build_graph_adj].
  rewrite (dfs_count_paths_count E (fun v => index_in v order) (length order)) by lia.
  destruct (topo_order_built E adj radj nodes order Hb Ht) as (?&?&_).
  symmetry. apply (count_paths_correct E adj); [intros; by eapply build_graph_adj|done|done].
Qed.

(** C2: The DFS reports exactly [ways[target]] paths (spec section 8). *)
Theorem enumerate_count_eq_ways :
  Z.of_nat (length (enumerate_paths_dfs adj source target)) =
  get0 (count_paths_from_source adj nodes order source) target.
Proof. exact enumerate_length. Qed.

(** C16: Every reported pair is a walk from the source that stops at the first
    visit of the target, with its accumulated cost. *)
Theorem enumerate_sound p c :
  (p, c) ∈ enumerate_paths_dfs adj source target ->
  exists q, p = source :: q /\ stop_walk E target source q c.
Proof.
  rewrite enumerate_pure. intros Hp.
  apply (dfs_paths_sound E) in Hp as (q&c'&->&->&Hq); [|intros; by eapply build_graph_adj].
  exists q. split; [done|]. by rewrite Z.add_0_l.
Qed.

(** C17: Every walk from the source that stops at the first visit of the
    target is reported, with the sum of its weights as its cost. *)
Theorem enumerate_complete q c :
  stop_walk E target source q c ->
  (source :: q, c) ∈ enumerate_paths_dfs adj source target.
Proof.
  intros Hw. rewrite enumerate_pure.
  replace (source :: q) with ([source] ++ q) by done.
  replace c with (0 + c) by lia.
  apply (dfs_paths_complete E); [intros; by eapply build_graph_adj|done|].
  destruct (stop_walk_length E (fun v => index_in v order) (length order) _ _ _ _ Hw)
    as [->|]; simpl; lia.
Qed.
(** C23: Every reported path is simple: no vertex occurs twice (spec 4.4,
    "every simple directed path"). *)
Theorem enumerate_paths_simple p c :
  (p, c) ∈ enumerate_paths_dfs adj source target -> NoDup p.
Proof.
  rewrite enumerate_pure. intros Hp.
  apply (dfs_paths_sound E) in Hp as (q&c'&->&_&Hq); [|intros; by eapply build_graph_adj].
  by apply (stop_walk_simple E (fun v => index_in v order) (length order)) in Hq as [? _].
Qed.
End Program.

(** ** The contract on the dataset *)

Lemma enumerate_count_eq_ways_on_EDGES :
  Z.of_nat (length (enumerate_paths_dfs (build_graph EDGES).1.1 SOURCE 8)) =
  get0 (count_paths_from_source (build_graph EDGES).1.1 (build_graph EDGES).2
    [0; 1; 2; 5; 6; 4; 3; 7; 8] SOURCE) 8.
Proof. destruct EDGES_sorted as [Hb Ht]. exact (enumerate_count_eq_ways _ _ _ _ _ _ _ Hb Ht). Defined.

Lemma enumerate_sound_on_EDGES :
  ([0; 6; 7; 8], 13) ∈ enumerate_paths_dfs (build_graph EDGES).1.1 SOURCE 8 /\
  exists q, [0; 6; 7; 8] = SOURCE :: q /\ stop_walk EDGES 8 SOURCE q 13.
Proof.
  destruct EDGES_sorted as [Hb Ht].
  assert (Hin : ([0; 6; 7; 8], 13) ∈ enumerate_paths_dfs (build_graph EDGES).1.1 SOURCE 8)
    by (apply (bool_decide_unpack _); vm_compute; exact I).
  exact (conj Hin (enumerate_sound _ _ _ _ _ _ _ Hb Ht _ _ Hin)).
Defined.

Lemma enumerate_complete_on_EDGES :
  stop_walk EDGES 8 SOURCE [6; 7; 8] 13 /\
  ([0; 6; 7; 8], 13) ∈ enumerate_paths_dfs (build_graph EDGES).1.1 SOURCE 8.
Proof.
  destruct EDGES_sorted as [Hb Ht].
  assert (Hw : stop_walk EDGES 8 SOURCE [6; 7; 8] 13).
  { change (stop_walk EDGES 8 (e_src (0, 6, 5)) [e_dst (0, 6, 5); e_dst (6, 7, 6); e_dst (7, 8, 2)]
      (e_w (0, 6, 5) + (e_w (6, 7, 6) + (e_w (7, 8, 2) + 0)))).
    repeat (apply sw_step; [apply (bool_decide_unpack _); vm_compute; exact I|reflexivity|
      vm_compute; discriminate|]).
    apply sw_stop. }
  exact (conj Hw (enumerate_complete _ _ _ _ _ _ _ Hb Ht _ _ Hw)).
Defined.

Lemma enumerate_paths_simple_on_EDGES :
  ([0; 2; 4; 3; 8], 7) ∈ enumerate_paths_dfs (build_graph EDGES).1.1 SOURCE 8 /\
  NoDup [0; 2; 4; 3; 8].
Proof.
  destruct EDGES_sorted as [Hb Ht].
  assert (Hin : ([0; 2; 4; 3; 8], 7) ∈ enumerate_paths_dfs (build_graph EDGES).1.1 SOURCE 8)
    by (apply (bool_decide_unpack _); vm_compute; exact I).
  exact (conj Hin (enumerate_paths_simple _ _ _ _ _ _ _ Hb Ht _ _ Hin)).
Defined.
