(* ===== verification/Insertion.v ===== *)
(** * Item 1 and the insertion planner of [src/low_level_problem.py]

    [solve_item1] is the code's pipeline build, sort, count and
    [V = max(nodes, key=ways)].  [propose_V_prime_insertion] recomputes it,
    takes the neighbours [NV] of [V] and the reachable set, and forms the
    sorted [allowed] list ([reach - NV], minus [{V}] under the default
    strict policy).  If [cap = sum(ways[u] for u in allowed)] is at most
    [ways[V]] it returns the [Impossible] record; otherwise it picks the new
    id ([max(nodes) + 1] unless given), takes parents greedily from
    [allowed] sorted by decreasing count until the running sum exceeds
    [ways[V]] ([pick_parents]), adds one weight-0 edge per parent, and
    re-runs build, sort, count and max on the augmented edge list.

    The Python result dictionaries are the records [Infeasible] and
    [Proposal]; the human-readable ["reason"] string, a function of
    [cap] and [ways[V]], which the record carries, is [infeasible_reason]
    of [Output].  Python
    exceptions raised on the way ([ValueError] from [topo_order] or from
    [max] of an empty list) are the [Err] values of [Result].

    Theorems: item 1's [V] is a vertex with the most walks from the
    source and the smallest id among the tied ones, since [max] keeps the
    first maximum of the sorted node list ([solve_item1_spec]); what an
    [Impossible] and a [Possible] verdict report, the
    allowed set ([insertion_allowed_spec]); with the default id and a
    source in the graph, [V'] is a fresh sink whose count is the sum of its
    parents' ([sink_ways]) and which always becomes the most reachable
    vertex ([insertion_fresh_most_reachable]) with a count at most the
    cap ([insertion_count_le_cap]), and the planner raises only
    on a cyclic input ([propose_default_errors]).  For any source and id,
    every dictionary read of the planner is of a present key
    ([propose_reads_present]), so the default [0] of [get0] never stands
    in for a [KeyError].  The file ends with the
    runs of the tests (the diamond also under the permissive policy) and
    of the edge cases behind the findings: a source
    outside the graph, a default id equal to such a source, an explicit id
    that is a vertex, an empty edge list. *)

From Stdlib Require Import ZArith Lia.
From stdpp Require Import base list gmap relations sorting.
From S2P Require Import Prelude PyBuiltins Graph Walks Topo PathCount Reach.

Local Open Scope Z_scope.

(** ** The code *)

(** [solve_item1]: the most reachable vertex and the tables it came from
    (printing omitted). *)
Definition solve_item1 (edges : list Edge) (source : Z)
    : Result (Z * gmap Z Z * Adj * Adj * list Z) :=
  let '(adj, radj, nodes) := build_graph edges in
  let* order := topo_order adj nodes in
  let ways := count_paths_from_source adj nodes order source in
  let* V := py_max_by (get0 ways) nodes in
  Ok (V, ways, adj, radj, nodes).

Record Infeasible := {
  inf_V : Z; inf_waysV : Z; inf_cap : Z; inf_allowed : list Z; inf_neighborsV : list Z
}.

Record Proposal := {
  pr_V : Z; pr_waysV : Z; pr_V_prime : Z; pr_waysV_prime : Z;
  pr_becomes_most_reachable : bool; pr_neighborsV : list Z; pr_allowed : list Z;
  pr_picked : list Z; pr_insertion_edges : list Edge
}.

Inductive InsertionResult :=
  | Impossible (r : Infeasible)   (* "possible": False *)
  | Possible (p : Proposal).      (* "possible": True *)

(** [for u in cands: pick.append(u); acc += ways[u]; if acc > ways[V]: break] *)
Fixpoint pick_parents (ways : gmap Z Z) (waysV : Z) (cands pick : list Z) (acc : Z)
    : list Z * Z :=
  match cands with
  | [] => (pick, acc)
  | u :: cands' =>
      let acc' := acc + get0 ways u in
      if decide (waysV < acc') then (pick ++ [u], acc')
      else pick_parents ways waysV cands' (pick ++ [u]) acc'
  end.

Definition allowed_set (reach NV : gset Z) (V : Z) (allow_v_as_parent : bool) : list Z :=
  if allow_v_as_parent then py_sorted (elements (reach ∖ NV))
  else py_sorted (elements (reach ∖ NV ∖ {[V]})).

Definition propose_V_prime_insertion (edges : list Edge) (source : Z)
    (vprime : option Z) (allow_v_as_parent : bool) : Result InsertionResult :=
  let '(adj, radj, nodes) := build_graph edges in
  let* order := topo_order adj nodes in
  let ways := count_paths_from_source adj nodes order source in
  let* V := py_max_by (get0 ways) nodes in
  let NV := neighbors_undirected adj radj V in
  let reach := reachable_from_source adj source in
  let allowed := allowed_set reach NV V allow_v_as_parent in
  let cap := sumZ (get0 ways) allowed in
  if decide (cap <= get0 ways V) then
    Ok (Impossible {| inf_V := V; inf_waysV := get0 ways V; inf_cap := cap;
                      inf_allowed := allowed; inf_neighborsV := py_sorted (elements NV) |})
  else
    let* vp := match vprime with
               | None => let* m := py_max_by id nodes in Ok (m + 1)
               | Some v => Ok v
               end in
    let '(pick, _) := pick_parents ways (get0 ways V) (sorted_desc (get0 ways) allowed) [] 0 in
    let insertion_edges := map (fun u => (u, vp, 0)) pick in
    let '(adj2, radj2, nodes2) := build_graph (edges ++ insertion_edges) in
    let* order2 := topo_order adj2 nodes2 in
    let ways2 := count_paths_from_source adj2 nodes2 order2 source in
    let* V2 := py_max_by (get0 ways2) nodes2 in
    Ok (Possible {| pr_V := V; pr_waysV := get0 ways V; pr_V_prime := vp;
                    pr_waysV_prime := get0 ways2 vp;
                    pr_becomes_most_reachable := bool_decide (V2 = vp);
                    pr_neighborsV := py_sorted (elements NV); pr_allowed := allowed;
                    pr_picked := pick; pr_insertion_edges := insertion_edges |}).

(** The fields both verdicts carry. *)
Definition result_V (res : InsertionResult) : Z :=
  match res with Impossible r => inf_V r | Possible p => pr_V p end.

Definition result_allowed (res : InsertionResult) : list Z :=
  match res with Impossible r => inf_allowed r | Possible p => pr_allowed p end.

(** [custom_edges] of [test_item4_impossible_on_custom_graph]:
    [0 -> 1 -> 3] and [0 -> 2 -> 3]. *)
Definition custom_edges : list Edge := [(0, 1, 0); (0, 2, 0); (1, 3, 0); (2, 3, 0)].

(** ** The greedy choice of parents *)

(** The loop takes a prefix of the candidates; it stops at the first
    prefix whose sum exceeds [waysV], or takes them all. *)
Lemma pick_parents_spec ways waysV cands pick acc pick' acc' :
  acc <= waysV ->
  pick_parents ways waysV cands pick acc = (pick', acc') ->
  exists pre, pick' = pick ++ pre /\ pre `prefix_of` cands /\
    acc' = acc + sumZ (get0 ways) pre /\
    (waysV < acc' \/ pre = cands) /\
    (pre = [] \/ acc + sumZ (get0 ways) (removelast pre) <= waysV).
Proof.
  revert pick acc. induction cands as [|u cands IH]; intros pick acc Hacc Hp; simpl in Hp.
  - injection Hp as <- <-. exists [].
    split_and!; [by rewrite app_nil_r|done|simpl; lia|by right|by left].
  - case_decide as Hlt.
    + injection Hp as <- <-. exists [u]. split_and!; [done|by apply prefix_cons, prefix_nil|
        simpl; lia|by left|right; simpl; lia].
    + apply IH in Hp as (pre&->&Hpre&->&Hstop&Hmin); [|lia].
      exists (u :: pre). rewrite <- app_assoc. split_and!; [done|by apply prefix_cons| |
        |right].
      * simpl. lia.
      * destruct Hstop as [? | ->]; [left; simpl; lia|by right].
      * destruct pre as [|x pre]; simpl; [lia|].
        destruct Hmin as [?|Hmin]; [done|]. simpl in Hmin. lia.
Qed.

(** ** Unfolding the planner *)

Lemma propose_Ok edges source vprime allow res :
  propose_V_prime_insertion edges source vprime allow = Ok res ->
  exists adj radj nodes order V,
    build_graph edges = (adj, radj, nodes) /\
    topo_order adj nodes = Ok order /\
    py_max_by (get0 (count_paths_from_source adj nodes order source)) nodes = Ok V /\
    result_V res = V /\
    result_allowed res = allowed_set (reachable_from_source adj source)
                           (neighbors_undirected adj radj V) V allow /\
    let ways := count_paths_from_source adj nodes order source in
    let allowed := result_allowed res in
    match res with
    | Impossible r =>
        sumZ (get0 ways) allowed <= get0 ways V /\ inf_cap r = sumZ (get0 ways) allowed /\
        inf_waysV r = get0 ways V
    | Possible p =>
        get0 ways V < sumZ (get0 ways) allowed /\ pr_waysV p = get0 ways V /\
        ((vprime = None /\ exists m, py_max_by id nodes = Ok m /\ pr_V_prime p = m + 1) \/
         vprime = Some (pr_V_prime p)) /\
        (exists acc, pick_parents ways (get0 ways V) (sorted_desc (get0 ways) allowed) [] 0
                     = (pr_picked p, acc)) /\
        pr_insertion_edges p = map (fun u => (u, pr_V_prime p, 0)) (pr_picked p) /\
        exists adj2 radj2 nodes2 order2 V2,
          build_graph (edges ++ pr_insertion_edges p) = (adj2, radj2, nodes2) /\
          topo_order adj2 nodes2 = Ok order2 /\
          py_max_by (get0 (count_paths_from_source adj2 nodes2 order2 source)) nodes2 = Ok V2 /\
          pr_waysV_prime p = get0 (count_paths_from_source adj2 nodes2 order2 source) (pr_V_prime p) /\
          pr_becomes_most_reachable p = bool_decide (V2 = pr_V_prime p)
    end.
Proof.
  unfold propose_V_prime_insertion.
  destruct (build_graph edges) as [[adj radj] nodes] eqn:Hb.
  destruct (topo_order adj nodes) as [order|] eqn:Ht; [simpl|done].
  destruct (py_max_by _ nodes) as [V|] eqn:Hm; [simpl|done].
  intros Hres. case_decide as Hcap.
  - injection Hres as <-. exists adj, radj, nodes, order, V. simpl. split_and!; done.
  - destruct (match vprime with
              | None => let* m := py_max_by id nodes in Ok (m + 1) | Some v => Ok v end)
      as [vp|] eqn:Hvpe; [simpl in Hres|done].
    destruct (pick_parents _ _ _ _ _) as [pick acc] eqn:Hpick.
    destruct (build_graph (edges ++ _)) as [[adj2 radj2] nodes2] eqn:Hb2.
    destruct (topo_order adj2 nodes2) as [order2|] eqn:Ht2; [simpl in Hres|done].
    destruct (py_max_by _ nodes2) as [V2|] eqn:Hm2; [simpl in Hres|done].
    injection Hres as <-. exists adj, radj, nodes, order, V. simpl.
    split_and!; [done|done|done|done|done|lia|done| |eauto|done|].
    + destruct vprime as [v|]; simpl in Hvpe; [right; by injection Hvpe as ->|].
      left. split; [done|].
      destruct (py_max_by id nodes) as [m|]; [|done]. injection Hvpe as <-. eauto.
    + exists adj2, radj2, nodes2, order2, V2. split_and!; done.
Qed.

Lemma solve_item1_inv edges source V ways adj radj nodes :
  solve_item1 edges source = Ok (V, ways, adj, radj, nodes) ->
  exists order, build_graph edges = (adj, radj, nodes) /\ topo_order adj nodes = Ok order /\
    ways = count_paths_from_source adj nodes order source /\
    py_max_by (get0 ways) nodes = Ok V.
Proof.
  unfold solve_item1. destruct (build_graph edges) as [[adj0 radj0] nodes0] eqn:Hb.
  destruct (topo_order adj0 nodes0) as [order|] eqn:Ht; [cbn [bind]|done].
  destruct (py_max_by _ nodes0) as [V0|] eqn:Hm; [cbn [bind]|done].
  intros [= <- <- <- <- <-]. eauto.
Qed.

Lemma solve_item1_Ok edges source adj radj nodes order V :
  build_graph edges = (adj, radj, nodes) -> topo_order adj nodes = Ok order ->
  py_max_by (get0 (count_paths_from_source adj nodes order source)) nodes = Ok V ->
  solve_item1 edges source = Ok (V, count_paths_from_source adj nodes order source, adj, radj, nodes).
Proof. intros Hb Ht Hm. unfold solve_item1. rewrite Hb. simpl. rewrite Ht. simpl. by rewrite Hm. Qed.

(** C10: Item 1 (lines 164-171) finds the most reachable vertex: [V] is a
    vertex of the input graph with the largest number of walks from the
    source, and every vertex with a smaller id has strictly fewer walks,
    so among tied vertices [V] is the smallest id ([max] returns the first
    maximum of the sorted node list). *)
Theorem solve_item1_spec E source V ways adj radj nodes :
  solve_item1 E source = Ok (V, ways, adj, radj, nodes) ->
  V ∈ endpoints E /\
  (forall n, n ∈ endpoints E ->
     paths_count E (length nodes) source n <= paths_count E (length nodes) source V) /\
  (forall n, n ∈ endpoints E -> n < V ->
     paths_count E (length nodes) source n < paths_count E (length nodes) source V).
Proof.
  intros (order&Hb&Ht&->&Hm)%solve_item1_inv.
  destruct (topo_order_built E adj radj nodes order Hb Ht) as (Hnd&Hlin&Hlen&_).
  pose proof (fun v => count_paths_correct E adj nodes order source
    (fun u => build_graph_adj E adj radj nodes u Hb) Hnd Hlin v) as Hw.
  rewrite Hlen in Hw. setoid_rewrite <- Hw.
  pose proof (build_graph_sorted E adj radj nodes Hb) as Hs.
  destruct (py_max_by_Ok _ _ _ Hm) as (HV&Hge&pre&post&Hsplit&Hpre).
  split_and!; [by apply (build_graph_nodes E adj radj nodes)|
    intros n Hn; by apply Hge, (build_graph_nodes E adj radj nodes)|].
  intros n Hn%(build_graph_nodes E adj radj nodes _ Hb) Hlt. rewrite Hsplit in Hn, Hs.
  apply elem_of_app in Hn as [Hn|[->|Hn]%elem_of_cons]; [by apply Hpre|lia|].
  pose proof (Sorted_Zle_after pre V post n Hs Hn). lia.
Qed.

(** The greedy loop over the allowed vertices sorted by decreasing count,
    run when their total exceeds [ways[V]]. *)
Lemma pick_facts (ways : gmap Z Z) waysV allowed picked acc :
  (forall v, 0 <= get0 ways v) -> 0 <= waysV ->
  waysV < sumZ (get0 ways) allowed ->
  pick_parents ways waysV (sorted_desc (get0 ways) allowed) [] 0 = (picked, acc) ->
  picked `prefix_of` sorted_desc (get0 ways) allowed /\
  waysV < sumZ (get0 ways) picked /\
  sumZ (get0 ways) (removelast picked) <= waysV.
Proof.
  intros Hnn HV Hcap Hpick.
  apply pick_parents_spec in Hpick as (pre&Hpre&Hpref&Hacc&Hstop&Hmin); [|lia].
  simpl in Hpre. subst pre. split_and!; [done| |].
  - destruct Hstop as [?|Heq]; [lia|].
    rewrite Heq, (sumZ_Permutation _ _ _ (sorted_desc_perm _ _)). lia.
  - destruct Hmin as [->|?]; simpl; lia.
Qed.

(** Every allowed vertex is the source or an endpoint. *)
Lemma allowed_reach edges adj radj nodes source V allow u :
  build_graph edges = (adj, radj, nodes) ->
  u ∈ allowed_set (reachable_from_source adj source) (neighbors_undirected adj radj V) V allow ->
  u = source \/ u ∈ endpoints edges.
Proof.
  intros Hb Hu. unfold allowed_set in Hu.
  assert (Hr : u ∈ reachable_from_source adj source) by (destruct allow;
    rewrite py_sorted_elem_of, elem_of_elements in Hu; set_solver).
  apply (reachable_iff edges adj source (fun x => build_graph_adj _ _ _ _ x Hb)) in Hr.
  exact (rtc_endpoints edges source u Hr).
Qed.

(** With a source in the graph, every allowed vertex is a vertex. *)
Lemma allowed_in_graph edges adj radj nodes source V allow u :
  build_graph edges = (adj, radj, nodes) -> source ∈ endpoints edges ->
  u ∈ allowed_set (reachable_from_source adj source) (neighbors_undirected adj radj V) V allow ->
  u ∈ endpoints edges.
Proof. intros Hb Hsrc Hu. by destruct (allowed_reach _ _ _ _ _ _ _ _ Hb Hu) as [->|?]. Qed.

(** Successors in a built adjacency map are nodes. *)
Lemma built_succ_nodes E adj radj nodes u vw :
  build_graph E = (adj, radj, nodes) -> vw ∈ adj_get adj u -> vw.1 ∈ nodes.
Proof.
  intros Hb. rewrite (build_graph_adj _ _ _ _ u Hb), (build_graph_nodes _ _ _ _ _ Hb).
  unfold out_edges. intros (e&->&He)%list_elem_of_fmap.
  apply list_elem_of_filter in He as [_ He]. by apply dst_endpoint.
Qed.

Lemma built_ways_key E adj radj nodes order source k :
  build_graph E = (adj, radj, nodes) ->
  is_Some (count_paths_from_source adj nodes order source !! k) <-> k = source \/ k ∈ nodes.
Proof. intros Hb. apply count_paths_key. intros u vw. exact (built_succ_nodes E adj radj nodes u vw Hb). Qed.

Lemma pick_parents_subset ways waysV cands pick acc u :
  0 <= waysV -> pick_parents ways waysV cands [] 0 = (pick, acc) -> u ∈ pick -> u ∈ cands.
Proof.
  intros HV Hp Hu. apply pick_parents_spec in Hp as (pre&->&Hpre&_); [|lia].
  by eapply elem_of_prefix.
Qed.

(** A vertex absent from a topological order can be appended as a sink. *)
Lemma sink_linear E order vp ps :
  NoDup order -> topo_linear E order -> vp ∉ order -> (forall u, u ∈ ps -> u ∈ order) ->
  NoDup (order ++ [vp]) /\ topo_linear (E ++ map (fun u => (u, vp, 0)) ps) (order ++ [vp]).
Proof.
  intros Hnd Hlin Hvp Hps. split.
  - apply NoDup_app. split_and!; [done| |by apply NoDup_singleton].
    intros x Hx ->%list_elem_of_singleton. done.
  - intros e [He|(u&->&Hu)%list_elem_of_fmap]%elem_of_app.
    + by apply before_app_r, Hlin.
    + apply before_snoc. by apply Hps.
Qed.

(** ** What the planner reports *)

(** C7: An [Impossible] verdict carries [V] and its count as computed by
    [solve_item1], and the cap it reports is the sum of the counts of the
    allowed vertices, at most [ways[V]] (spec 4.6, step 5). *)
Theorem insertion_impossible_spec edges source vprime allow r :
  propose_V_prime_insertion edges source vprime allow = Ok (Impossible r) ->
  exists ways adj radj nodes,
    solve_item1 edges source = Ok (inf_V r, ways, adj, radj, nodes) /\
    inf_waysV r = get0 ways (inf_V r) /\
    inf_cap r = sumZ (get0 ways) (inf_allowed r) /\ inf_cap r <= inf_waysV r.
Proof.
  intros (adj&radj&nodes&order&V&Hb&Ht&Hm&HV&_&Hcap&Hc&Hw)%propose_Ok.
  simpl in HV. subst V. eexists _, adj, radj, nodes.
  split; [by apply solve_item1_Ok|]. simpl in *. lia.
Qed.

(** C6: A [Possible] proposal exceeds [ways[V]] with the allowed vertices;
    its parents are the shortest prefix of [allowed] sorted by decreasing
    count whose counts add up to more than [ways[V]]; each inserted edge
    goes from a parent to [V'] with weight 0 (spec 4.6, step 6). *)
Theorem insertion_possible_spec edges source vprime allow p :
  propose_V_prime_insertion edges source vprime allow = Ok (Possible p) ->
  exists ways adj radj nodes,
    solve_item1 edges source = Ok (pr_V p, ways, adj, radj, nodes) /\
    pr_waysV p = get0 ways (pr_V p) /\
    pr_waysV p < sumZ (get0 ways) (pr_allowed p) /\
    pr_picked p `prefix_of` sorted_desc (get0 ways) (pr_allowed p) /\
    pr_waysV p < sumZ (get0 ways) (pr_picked p) /\
    sumZ (get0 ways) (removelast (pr_picked p)) <= pr_waysV p /\
    pr_insertion_edges p = map (fun u => (u, pr_V_prime p, 0)) (pr_picked p).
Proof.
  intros (adj&radj&nodes&order&V&Hb&Ht&Hm&HV&_&Hcap&Hw&_&[acc Hpick]&Hins&_)%propose_Ok.
  simpl in HV. subst V. eexists _, adj, radj, nodes.
  split; [by apply solve_item1_Ok|]. simpl in *.
  apply pick_facts in Hpick as (?&?&?);
    [|apply (ways_nonneg edges source adj radj nodes order Hb Ht)|
      apply (ways_nonneg edges source adj radj nodes order Hb Ht)|lia].
  rewrite Hw. split_and!; done.
Qed.

(** C8: The allowed parents are the reachable vertices that share no edge with
    [V], without [V] itself under the strict policy; the list is sorted and
    duplicate-free. *)
Theorem insertion_allowed_spec edges source vprime allow res :
  propose_V_prime_insertion edges source vprime allow = Ok res ->
  NoDup (result_allowed res) /\ Sorted Z.le (result_allowed res) /\
  forall u, u ∈ result_allowed res <->
    rtc (edge_rel edges) source u /\
    ~ (exists e, e ∈ edges /\ ((e_src e = result_V res /\ e_dst e = u) \/
                               (e_dst e = result_V res /\ e_src e = u))) /\
    (allow = false -> u <> result_V res).
Proof.
  intros (adj&radj&nodes&order&V&Hb&_&_&-> &-> &_)%propose_Ok.
  unfold allowed_set. split_and!.
  - destruct allow; rewrite py_sorted_perm; apply NoDup_elements.
  - destruct allow; apply py_sorted_sorted.
  - intros u. rewrite <- (neighbors_elem adj radj edges V u (fun y => build_graph_adj _ _ _ _ y Hb)
      (fun y => build_graph_radj _ _ _ _ y Hb)), <- (reachable_iff edges adj source (fun y => build_graph_adj _ _ _ _ y Hb) u).
    destruct allow; rewrite py_sorted_elem_of, elem_of_elements, ?elem_of_difference,
      ?elem_of_singleton; naive_solver.
Qed.

(** ** A fresh sink *)

(** Adding weight-0 edges from [picked] to a vertex [vp] that is not yet in
    the graph (and is not the source) leaves every other count unchanged
    and gives [vp] the sum of its parents' counts. *)
Section FreshSink.
Variables (E : list Edge) (source vp : Z) (picked : list Z).
Variables (adj radj adj2 radj2 : Adj) (nodes order nodes2 order2 : list Z).
Hypothesis Hb : build_graph E = (adj, radj, nodes).
Hypothesis Ht : topo_order adj nodes = Ok order.
Hypothesis Hb2 : build_graph (E ++ map (fun u => (u, vp, 0)) picked) = (adj2, radj2, nodes2).
Hypothesis Ht2 : topo_order adj2 nodes2 = Ok order2.
Hypothesis Hfresh : vp ∉ endpoints E.
Hypothesis Hsrc : source <> vp.
Hypothesis Hpar : forall u, u ∈ picked -> u ∈ endpoints E.

Let E2 := E ++ map (fun u => (u, vp, 0)) picked.
Let ways := count_paths_from_source adj nodes order source.
Let ways2 := count_paths_from_source adj2 nodes2 order2 source.

Definition sink_counts (v : Z) : Z :=
  if decide (v = vp) then sumZ (get0 ways) picked else get0 ways v.

Lemma picked_not_vp u : u ∈ picked -> u <> vp.
Proof. intros Hu ->. by apply Hfresh, Hpar. Qed.

Lemma into_sink v :
  into (map (fun u => (u, vp, 0)) picked) v =
  if decide (v = vp) then map (fun u => (u, vp, 0)) picked else [].
Proof.
  unfold into. case_decide as Hv.
  - apply filter_all. intros e (u&->&_)%list_elem_of_fmap. by subst.
  - apply filter_none. intros e (u&->&_)%list_elem_of_fmap. unfold e_dst. simpl. congruence.
Qed.

Lemma sink_counts_recurrence v :
  sink_counts v = ind (source = v) + sumZ (fun e => sink_counts (e_src e)) (into E2 v).
Proof.
  unfold E2, into. rewrite filter_app. fold (into E v).
  fold (into (map (fun u => (u, vp, 0)) picked) v).
  rewrite sumZ_app, into_sink. unfold sink_counts at 1. case_decide as Hv.
  - subst v. rewrite (sumZ_zero _ (into E vp)).
    2:{ intros e [Hd He]%elem_of_into. exfalso. apply Hfresh. rewrite <- Hd.
        by apply dst_endpoint. }
    rewrite sumZ_map. unfold ind. rewrite decide_False by done. simpl.
    apply sumZ_ext. intros u Hu. unfold sink_counts. unfold e_src; simpl.
    rewrite decide_False by (by apply picked_not_vp). done.
  - simpl. rewrite Z.add_0_r.
    destruct (topo_order_built E adj radj nodes order Hb Ht) as (Hnd&Hlin&_).
    unfold ways. rewrite (count_paths_recurrence E adj nodes order source
      (program_adj E adj radj nodes Hb) Hnd Hlin v).
    f_equal. apply sumZ_ext. intros e [_ He]%elem_of_into. unfold sink_counts.
    rewrite decide_False; [done|]. intros Heq. apply Hfresh. rewrite <- Heq.
    by apply src_endpoint.
Qed.

Theorem sink_ways v : get0 ways2 v = sink_counts v.
Proof.
  pose proof (topo_order_TopoRank E2 adj2 radj2 nodes2 order2 Hb2 Ht2).
  apply (recurrence_unique E2 (fun v => index_in v order2) (length order2)
    (fun v => ind (source = v))).
  - destruct (topo_order_built E2 adj2 radj2 nodes2 order2 Hb2 Ht2) as (Hnd&Hlin&_).
    exact (count_paths_recurrence E2 adj2 nodes2 order2 source
      (program_adj E2 adj2 radj2 nodes2 Hb2) Hnd Hlin).
  - apply sink_counts_recurrence.
Qed.

(** When the parents' counts exceed the old maximum, [max] on the
    augmented graph returns [vp]: every other vertex keeps its count. *)
Lemma sink_max V :
  py_max_by (get0 ways) nodes = Ok V -> get0 ways V < sumZ (get0 ways) picked ->
  py_max_by (get0 ways2) nodes2 = Ok vp.
Proof.
  intros Hm Hsum.
  assert (Hne : picked <> []).
  { intros ->. simpl in Hsum. pose proof (ways_nonneg E source adj radj nodes order Hb Ht V).
    unfold ways in Hsum. lia. }
  apply py_max_by_strict; [apply _| |].
  - apply (build_graph_nodes _ _ _ _ vp Hb2).
    rewrite endpoints_app, elem_of_app, endpoints_sink. by right; right.
  - intros x Hx Hxv. rewrite !sink_ways. unfold sink_counts.
    destruct (decide (x = vp)); [done|]. destruct (decide (vp = vp)); [|done].
    apply (build_graph_nodes _ _ _ _ x Hb2) in Hx.
    rewrite endpoints_app, elem_of_app, endpoints_sink in Hx.
    assert (Hxe : x ∈ endpoints E) by (destruct Hx as [?|[?%Hpar|[? _]]]; done).
    apply (build_graph_nodes _ _ _ _ x Hb) in Hxe.
    destruct (py_max_by_Ok _ _ _ Hm) as (_&HmV&_). specialize (HmV x Hxe). lia.
Qed.
End FreshSink.

(** The default id [max(nodes) + 1] is not an endpoint. *)
Lemma default_id_fresh edges adj radj nodes m x :
  build_graph edges = (adj, radj, nodes) -> py_max_by id nodes = Ok m ->
  x ∈ endpoints edges -> x <> m + 1.
Proof.
  intros Hb Hm Hx%(build_graph_nodes edges adj radj nodes x Hb).
  destruct (py_max_by_Ok id nodes m Hm) as (_&Hle&_). apply Hle in Hx. simpl in Hx. lia.
Qed.

(** ** The new vertex becomes the most reachable *)

(** The facts behind the next two theorems. *)
Lemma fresh_proposal edges source allow p :
  propose_V_prime_insertion edges source None allow = Ok (Possible p) ->
  source ∈ endpoints edges ->
  exists ways adj radj nodes,
    solve_item1 edges source = Ok (pr_V p, ways, adj, radj, nodes) /\
    (forall v, 0 <= get0 ways v) /\
    pr_picked p `prefix_of` sorted_desc (get0 ways) (pr_allowed p) /\
    pr_waysV p < pr_waysV_prime p /\
    pr_waysV_prime p = sumZ (get0 ways) (pr_picked p) /\
    pr_becomes_most_reachable p = true.
Proof.
  intros Hp Hsrc.
  apply propose_Ok in Hp as (adj&radj&nodes&order&V&Hb&Ht&Hm&HV&Hal&Hcap&Hw&Hvp&
    [acc Hpick]&Hins&adj2&radj2&nodes2&order2&V2&Hb2&Ht2&Hm2&Hwp&Hbec).
  simpl in *. subst V. rewrite Hins in Hb2.
  destruct Hvp as [[_ (m&Hmx&Hvp)]|?]; [|discriminate].
  pose proof (ways_nonneg edges source adj radj nodes order Hb Ht) as Hnn.
  apply pick_facts in Hpick as (Hpref&Hsum&_); [|done|done|lia].
  assert (Hpar : forall u, u ∈ pr_picked p -> u ∈ endpoints edges).
  { intros u Hu. eapply elem_of_prefix in Hpref; [|done].
    rewrite (sorted_desc_perm _ _), Hal in Hpref. by eapply allowed_in_graph. }
  assert (Hfresh : pr_V_prime p ∉ endpoints edges)
    by (intros H; exact (default_id_fresh _ _ _ _ _ _ Hb Hmx H Hvp)).
  assert (Hs : source <> pr_V_prime p)
    by (rewrite Hvp; exact (default_id_fresh _ _ _ _ _ _ Hb Hmx Hsrc)).
  pose proof (sink_ways edges source (pr_V_prime p) (pr_picked p) adj radj adj2 radj2
    nodes order nodes2 order2 Hb Ht Hb2 Ht2 Hfresh Hs Hpar (pr_V_prime p)) as Hvp2.
  unfold sink_counts in Hvp2. rewrite decide_True in Hvp2 by done.
  pose proof (sink_max edges source (pr_V_prime p) (pr_picked p) adj radj adj2 radj2
    nodes order nodes2 order2 Hb Ht Hb2 Ht2 Hfresh Hs Hpar (pr_V p) Hm Hsum) as Hmax.
  assert (V2 = pr_V_prime p) as -> by congruence.
  eexists _, adj, radj, nodes. split_and!; [by apply solve_item1_Ok|done|done| | |].
  - rewrite Hwp, Hvp2, Hw. lia.
  - by rewrite Hwp.
  - rewrite Hbec. by apply bool_decide_eq_true.
Qed.

(** C5: With the default id [max(nodes) + 1] and a source that occurs in the
    graph, a [Possible] proposal always makes [V'] the unique most
    reachable vertex: its count is the sum of its parents' counts, which
    exceeds [ways[V]], and every other count is unchanged.  So the
    post-check [becomes_most_reachable] cannot fail in this case (compare
    the open question of spec section 9). *)
Theorem insertion_fresh_most_reachable edges source allow p :
  propose_V_prime_insertion edges source None allow = Ok (Possible p) ->
  source ∈ endpoints edges ->
  pr_becomes_most_reachable p = true /\
  pr_waysV p < pr_waysV_prime p /\
  exists ways adj radj nodes,
    solve_item1 edges source = Ok (pr_V p, ways, adj, radj, nodes) /\
    pr_waysV_prime p = sumZ (get0 ways) (pr_picked p).
Proof.
  intros Hp Hsrc.
  destruct (fresh_proposal edges source allow p Hp Hsrc) as (ways&adj&radj&nodes&H1&_&_&Hlt&Hw&Hb).
  split_and!; [done|done|]. by exists ways, adj, radj, nodes.
Qed.

(** C22: The count the new vertex reaches is at most the feasibility cap,
    the total count of the allowed vertices (spec 4.6, step 5: the cap
    bounds what single-hop parents can give). *)
Theorem insertion_count_le_cap edges source allow p :
  propose_V_prime_insertion edges source None allow = Ok (Possible p) ->
  source ∈ endpoints edges ->
  exists ways adj radj nodes,
    solve_item1 edges source = Ok (pr_V p, ways, adj, radj, nodes) /\
    pr_waysV p < pr_waysV_prime p <= sumZ (get0 ways) (pr_allowed p).
Proof.
  intros Hp Hsrc.
  destruct (fresh_proposal edges source allow p Hp Hsrc)
    as (ways&adj&radj&nodes&H1&Hnn&Hpref&Hlt&Hw&_).
  exists ways, adj, radj, nodes. split; [done|]. split; [done|].
  rewrite Hw, <- (sumZ_Permutation _ _ _ (sorted_desc_perm (get0 ways) (pr_allowed p))).
  apply sumZ_prefix_le; [done|]. intros x _. apply Hnn.
Qed.

(** ** No missing keys *)

(** C12: Every dictionary read of the planner is of a present key, so the
    [KeyError] that [ways[u]] and [ways2[vprime]] could raise in Python
    never occurs and [get0]'s default is never used: [V] and the allowed
    vertices are keys of [ways], and in a [Possible] proposal [V'] is a key
    of [ways2] (it has at least one parent).  This holds for every source
    and every id. *)
Theorem propose_reads_present edges source vprime allow res :
  propose_V_prime_insertion edges source vprime allow = Ok res ->
  exists adj radj nodes order,
    build_graph edges = (adj, radj, nodes) /\ topo_order adj nodes = Ok order /\
    (forall u, u = result_V res \/ u ∈ result_allowed res ->
       is_Some (count_paths_from_source adj nodes order source !! u)) /\
    match res with
    | Impossible _ => True
    | Possible p => exists adj2 radj2 nodes2 order2,
        build_graph (edges ++ pr_insertion_edges p) = (adj2, radj2, nodes2) /\
        topo_order adj2 nodes2 = Ok order2 /\
        is_Some (count_paths_from_source adj2 nodes2 order2 source !! pr_V_prime p)
    end.
Proof.
  intros Hp. pose proof Hp as (adj&radj&nodes&order&V&Hb&Ht&Hm&HV&Hal&Hres)%propose_Ok.
  exists adj, radj, nodes, order. split_and!; [done|done| |].
  - intros u [->|Hu]; rewrite (built_ways_key _ _ _ _ _ _ _ Hb); try rewrite HV.
    + right. by destruct (py_max_by_Ok _ _ _ Hm) as (?&_).
    + rewrite Hal in Hu. destruct (allowed_reach _ _ _ _ _ _ _ _ Hb Hu) as [|Hu']; [by left|].
      right. by apply (build_graph_nodes _ _ _ _ _ Hb).
  - destruct res as [r|p]; [done|]. simpl in Hres.
    destruct Hres as (Hcap&_&_&[acc Hpick]&Hins&adj2&radj2&nodes2&order2&V2&Hb2&Ht2&_).
    pose proof (ways_nonneg edges source adj radj nodes order Hb Ht) as Hnn.
    apply pick_facts in Hpick as (_&Hsum&_); [|done|done|lia].
    exists adj2, radj2, nodes2, order2. split_and!; [done|done|].
    rewrite (built_ways_key _ _ _ _ _ _ _ Hb2). right.
    apply (build_graph_nodes _ _ _ _ _ Hb2). rewrite Hins, endpoints_app, elem_of_app, endpoints_sink.
    right; right. split; [done|]. intros Hnil. rewrite Hnil in Hsum. simpl in Hsum.
    pose proof (Hnn V). subst V. lia.
Qed.

(** ** When the planner raises *)

(** With the default id and a source in the graph, the planner returns a
    result whenever the input graph is acyclic: the augmented graph is then
    acyclic too, since [V'] is a fresh sink. *)
Lemma propose_default_Ok edges source allow adj radj nodes order :
  build_graph edges = (adj, radj, nodes) -> topo_order adj nodes = Ok order ->
  source ∈ endpoints edges ->
  exists res, propose_V_prime_insertion edges source None allow = Ok res.
Proof.
  intros Hb Ht Hsrc. unfold propose_V_prime_insertion. rewrite Hb, Ht. cbn [bind].
  pose proof (proj2 (build_graph_nodes _ _ _ _ _ Hb) Hsrc) as Hsn.
  destruct (py_max_by_elem (get0 (count_paths_from_source adj nodes order source)) nodes
    source Hsn) as [V HV]. rewrite HV. cbn [bind].
  case_decide; [eauto|].
  destruct (py_max_by_elem id nodes source Hsn) as [m Hm]. rewrite Hm. cbn [bind].
  destruct (pick_parents _ _ _ _ _) as [pick acc] eqn:Hpick.
  destruct (build_graph (edges ++ _)) as [[adj2 radj2] nodes2] eqn:Hb2.
  destruct (topo_order_built edges adj radj nodes order Hb Ht) as (Hnd&Hlin&_&Hord).
  destruct (sink_linear edges order (m + 1) pick Hnd Hlin) as [Hnd2 Hlin2].
  - rewrite Hord. intros Hin. destruct (py_max_by_Ok id nodes m Hm) as (_&Hle&_).
    specialize (Hle _ Hin). simpl in Hle. lia.
  - intros u Hu. apply Hord, (build_graph_nodes _ _ _ _ _ Hb).
    eapply pick_parents_subset in Hpick; [|apply ways_nonneg with edges radj; done|done].
    rewrite (sorted_desc_perm _ _) in Hpick. by eapply allowed_in_graph.
  - destruct (build_topo_complete _ _ _ _ _ Hb2 Hnd2 Hlin2) as [order2 Ht2].
    rewrite Ht2. cbn [bind].
    assert (Hs2 : source ∈ nodes2) by (apply (build_graph_nodes _ _ _ _ _ Hb2);
      rewrite endpoints_app; set_solver).
    destruct (py_max_by_elem (get0 (count_paths_from_source adj2 nodes2 order2 source))
      nodes2 source Hs2) as [V2 HV2]. rewrite HV2. cbn [bind]. eauto.
Qed.

(** C11: With the default id and a source that occurs in the graph, the planner
    raises exactly when the input graph has a cycle, and then with the
    cycle [ValueError] of [topo_order]; the call on the augmented graph and
    the two calls of [max] never raise. *)
Theorem propose_default_errors edges source allow e :
  source ∈ endpoints edges ->
  propose_V_prime_insertion edges source None allow = Err e <->
  e = ValueError_cycle /\ ~ exists l, NoDup l /\ topo_linear edges l.
Proof.
  intros Hsrc. destruct (build_graph edges) as [[adj radj] nodes] eqn:Hb.
  destruct (topo_order adj nodes) as [order|e'] eqn:Ht.
  - destruct (propose_default_Ok edges source allow adj radj nodes order Hb Ht Hsrc) as [res Hr].
    rewrite Hr. split; [done|]. intros [_ Hno]. exfalso. apply Hno.
    destruct (topo_order_built edges adj radj nodes order Hb Ht) as (?&?&_). eauto.
  - assert (Hp : propose_V_prime_insertion edges source None allow = Err e').
    { unfold propose_V_prime_insertion. by rewrite Hb, Ht. }
    rewrite Hp. destruct (build_topo_err edges adj radj nodes e' Hb Ht) as [-> Hno].
    split; [intros [= <-]; done|by intros [-> _]].
Qed.

(** ** The contract on the dataset *)

Lemma SOURCE_in_EDGES : SOURCE ∈ endpoints EDGES.
Proof. apply (bool_decide_unpack _). vm_compute. exact I. Qed.

(** On the fork [0 -> 1], [0 -> 2] every vertex has one walk from [0];
    item 1 returns the smallest id, [0]. *)
Lemma solve_item1_spec_on_fork :
  exists V ways adj radj nodes,
    solve_item1 [(0, 1, 0); (0, 2, 0)] 0 = Ok (V, ways, adj, radj, nodes) /\ V = 0 /\
    V ∈ endpoints [(0, 1, 0); (0, 2, 0)] /\
    (forall n, n ∈ endpoints [(0, 1, 0); (0, 2, 0)] ->
       paths_count [(0, 1, 0); (0, 2, 0)] (length nodes) 0 n <=
       paths_count [(0, 1, 0); (0, 2, 0)] (length nodes) 0 V) /\
    (forall n, n ∈ endpoints [(0, 1, 0); (0, 2, 0)] -> n < V ->
       paths_count [(0, 1, 0); (0, 2, 0)] (length nodes) 0 n <
       paths_count [(0, 1, 0); (0, 2, 0)] (length nodes) 0 V).
Proof.
  destruct (solve_item1 _ _) as [[[[[V ways] adj] radj] nodes]|e] eqn:H;
    [|vm_compute in H; discriminate].
  exists V, ways, adj, radj, nodes. split; [done|split; [|exact (solve_item1_spec _ _ _ _ _ _ _ H)]].
  vm_compute in H. congruence.
Defined.

Lemma insertion_impossible_spec_on_EDGES :
  exists r, propose_V_prime_insertion EDGES SOURCE None false = Ok (Impossible r) /\
  exists ways adj radj nodes,
    solve_item1 EDGES SOURCE = Ok (inf_V r, ways, adj, radj, nodes) /\
    inf_waysV r = get0 ways (inf_V r) /\
    inf_cap r = sumZ (get0 ways) (inf_allowed r) /\ inf_cap r <= inf_waysV r.
Proof.
  destruct (propose_V_prime_insertion EDGES SOURCE None false) as [[r|p]|e] eqn:H;
    [|vm_compute in H; discriminate..].
  exists r. split; [done|exact (insertion_impossible_spec _ _ _ _ _ H)].
Defined.

Lemma insertion_possible_spec_on_EDGES :
  exists p, propose_V_prime_insertion EDGES SOURCE None true = Ok (Possible p) /\
  exists ways adj radj nodes,
    solve_item1 EDGES SOURCE = Ok (pr_V p, ways, adj, radj, nodes) /\
    pr_waysV p = get0 ways (pr_V p) /\
    pr_waysV p < sumZ (get0 ways) (pr_allowed p) /\
    pr_picked p `prefix_of` sorted_desc (get0 ways) (pr_allowed p) /\
    pr_waysV p < sumZ (get0 ways) (pr_picked p) /\
    sumZ (get0 ways) (removelast (pr_picked p)) <= pr_waysV p /\
    pr_insertion_edges p = map (fun u => (u, pr_V_prime p, 0)) (pr_picked p).
Proof.
  destruct (propose_V_prime_insertion EDGES SOURCE None true) as [[r|p]|e] eqn:H;
    [vm_compute in H; discriminate| |vm_compute in H; discriminate].
  exists p. split; [done|exact (insertion_possible_spec _ _ _ _ _ H)].
Defined.

Lemma insertion_allowed_spec_on_EDGES :
  exists res, propose_V_prime_insertion EDGES SOURCE None false = Ok res /\
  NoDup (result_allowed res) /\ Sorted Z.le (result_allowed res) /\
  forall u, u ∈ result_allowed res <->
    rtc (edge_rel EDGES) SOURCE u /\
    ~ (exists e, e ∈ EDGES /\ ((e_src e = result_V res /\ e_dst e = u) \/
                               (e_dst e = result_V res /\ e_src e = u))) /\
    (false = false -> u <> result_V res).
Proof.
  destruct (propose_V_prime_insertion EDGES SOURCE None false) as [res|e] eqn:H;
    [|vm_compute in H; discriminate].
  exists res. split; [done|exact (insertion_allowed_spec _ _ _ _ _ H)].
Defined.

Lemma insertion_fresh_most_reachable_on_EDGES :
  SOURCE ∈ endpoints EDGES /\
  exists p, propose_V_prime_insertion EDGES SOURCE None true = Ok (Possible p) /\
  pr_becomes_most_reachable p = true /\ pr_waysV p < pr_waysV_prime p /\
  exists ways adj radj nodes,
    solve_item1 EDGES SOURCE = Ok (pr_V p, ways, adj, radj, nodes) /\
    pr_waysV_prime p = sumZ (get0 ways) (pr_picked p).
Proof.
  split; [exact SOURCE_in_EDGES|].
  destruct (propose_V_prime_insertion EDGES SOURCE None true) as [[r|p]|e] eqn:H;
    [vm_compute in H; discriminate| |vm_compute in H; discriminate].
  exists p. split; [done|exact (insertion_fresh_most_reachable _ _ _ _ H SOURCE_in_EDGES)].
Defined.

Lemma insertion_count_le_cap_on_EDGES :
  SOURCE ∈ endpoints EDGES /\
  exists p, propose_V_prime_insertion EDGES SOURCE None true = Ok (Possible p) /\
  exists ways adj radj nodes,
    solve_item1 EDGES SOURCE = Ok (pr_V p, ways, adj, radj, nodes) /\
    pr_waysV p < pr_waysV_prime p <= sumZ (get0 ways) (pr_allowed p).
Proof.
  split; [exact SOURCE_in_EDGES|].
  destruct (propose_V_prime_insertion EDGES SOURCE None true) as [[r|p]|e] eqn:H;
    [vm_compute in H; discriminate| |vm_compute in H; discriminate].
  exists p. split; [done|exact (insertion_count_le_cap _ _ _ _ H SOURCE_in_EDGES)].
Defined.

Lemma propose_reads_present_on_EDGES :
  exists res, propose_V_prime_insertion EDGES SOURCE None true = Ok res /\
  exists adj radj nodes order,
    build_graph EDGES = (adj, radj, nodes) /\ topo_order adj nodes = Ok order /\
    (forall u, u = result_V res \/ u ∈ result_allowed res ->
       is_Some (count_paths_from_source adj nodes order SOURCE !! u)) /\
    match res with
    | Impossible _ => True
    | Possible p => exists adj2 radj2 nodes2 order2,
        build_graph (EDGES ++ pr_insertion_edges p) = (adj2, radj2, nodes2) /\
        topo_order adj2 nodes2 = Ok order2 /\
        is_Some (count_paths_from_source adj2 nodes2 order2 SOURCE !! pr_V_prime p)
    end.
Proof.
  destruct (propose_V_prime_insertion EDGES SOURCE None true) as [res|e] eqn:H;
    [|vm_compute in H; discriminate].
  exists res. split; [done|exact (propose_reads_present _ _ _ _ _ H)].
Defined.

Lemma propose_default_errors_on_EDGES :
  SOURCE ∈ endpoints EDGES /\
  (propose_V_prime_insertion EDGES SOURCE None false = Err ValueError_cycle <->
   ValueError_cycle = ValueError_cycle /\ ~ exists l, NoDup l /\ topo_linear EDGES l).
Proof.
  exact (conj SOURCE_in_EDGES (propose_default_errors _ _ _ ValueError_cycle SOURCE_in_EDGES)).
Defined.

(** ** Runs on concrete graphs *)

(** [test_item1_most_reachable]: [V = 8] and the table of counts. *)
Example item1_on_EDGES :
  match solve_item1 EDGES SOURCE with
  | Ok (V, ways, _, _, nodes) =>
      V = 8 /\ nodes = [0; 1; 2; 3; 4; 5; 6; 7; 8] /\
      map (get0 ways) nodes = [1; 1; 1; 3; 2; 1; 1; 4; 10]
  | Err _ => False
  end.
Proof. vm_compute. auto. Qed.

(** [test_item4_impossible_on_custom_graph]: on the diamond, only [0] is
    allowed and [1 <= 2]. *)
Example item4_on_diamond :
  propose_V_prime_insertion custom_edges 0 None false =
  Ok (Impossible {| inf_V := 3; inf_waysV := 2; inf_cap := 1;
                    inf_allowed := [0]; inf_neighborsV := [1; 2] |}).
Proof. vm_compute. reflexivity. Qed.

(** On the same diamond with [V] allowed as parent, the planner
    allows [0] and [3], picks [3] and [0], and [V' = 4] gets [3 > 2]
    paths: the permissive policy is feasible there, although spec section
    8 states the diamond is infeasible under either policy. *)
Example item4_diamond_permissive :
  propose_V_prime_insertion custom_edges 0 None true =
  Ok (Possible {| pr_V := 3; pr_waysV := 2; pr_V_prime := 4; pr_waysV_prime := 3;
                  pr_becomes_most_reachable := true; pr_neighborsV := [1; 2];
                  pr_allowed := [0; 3]; pr_picked := [3; 0];
                  pr_insertion_edges := [(3, 4, 0); (0, 4, 0)] |}).
Proof. vm_compute. reflexivity. Qed.

(** A source that is not a vertex: [ways[0] = 1] is inserted, every
    vertex has count 0, and the planner proposes [V' = 3] with one path
    that does not become the most reachable vertex: in the augmented graph
    the source [0] is a vertex with one path too, and [max] returns the
    first of the tied vertices [0] and [3]. *)
Example source_outside_graph :
  propose_V_prime_insertion [(1, 2, 0)] 0 None false =
  Ok (Possible {| pr_V := 1; pr_waysV := 0; pr_V_prime := 3; pr_waysV_prime := 1;
                  pr_becomes_most_reachable := false; pr_neighborsV := [2];
                  pr_allowed := [0]; pr_picked := [0];
                  pr_insertion_edges := [(0, 3, 0)] |}).
Proof. vm_compute. reflexivity. Qed.

(** A source outside the graph equal to [max(nodes) + 1]: the default id
    [V' = 2] is the source itself, the planner inserts the self-loop
    [(2, 2, 0)] and the second [topo_order] raises the cycle error. *)
Example default_id_collides_with_source :
  propose_V_prime_insertion [(0, 1, 0)] 2 None false = Err ValueError_cycle.
Proof. vm_compute. reflexivity. Qed.

(** An explicit id that is already a vertex: [V' = 0] on [EDGES] with [V]
    allowed as parent inserts [8 -> 0], closing a cycle through the
    source. *)
Example explicit_id_collides :
  propose_V_prime_insertion EDGES SOURCE (Some 0) true = Err ValueError_cycle.
Proof. vm_compute. reflexivity. Qed.

(** An empty edge list: the sort succeeds on no nodes and [max] raises. *)
Example empty_graph :
  propose_V_prime_insertion [] 0 None false = Err ValueError_empty_max.
Proof. vm_compute. reflexivity. Qed.
