(* ===== verification/Items.v ===== *)
(** * Items 2 to 6 of [src/low_level_problem.py]

    [solve_item2] runs [solve_item1], enumerates the paths from the source
    to the most reachable vertex [V] with [enumerate_paths_dfs] and sorts
    them by decreasing cost with Python's stable [sorted(..., reverse=True)]
    ([sorted_desc] of [PyBuiltins]).  [solve_item3] to [solve_item6] call
    [propose_V_prime_insertion] with the default id, under the strict policy
    (items 3 to 5) or with [allow_v_as_parent=True] (item 6), print fields
    of the result and return it; the printing is not modelled, the returned
    value is.

    [solve_item2_spec] shows that item 2 returns exactly the enumerated
    paths, sorted by decreasing cost, with the paths of equal cost in the
    order of the search, and that there are [ways[V]] of them.  The DFS
    reads [adj[source]] on the [defaultdict] that item 1 returned, which
    inserts the key when the source is not a vertex; item 2 returns that
    map, and [solve_item2] models the insert.

    [main] is the driver: it reads the option ([main_option], 1 when no
    argument is given) and runs the item of that number.  [main_options]
    shows that it runs an item exactly for the options 1 to 6, although
    its invalid-option message says 1..5.  The file ends with the runs of
    items 2, 3 and 6 on the dataset. *)

From Stdlib Require Import ZArith Lia.
From stdpp Require Import base list gmap sorting.
From S2P Require Import Prelude PyBuiltins Graph Walks Topo Reach PathCount Enumerate Insertion.

Local Open Scope Z_scope.

(** ** The code *)

Definition solve_item2 (edges : list Edge) (source : Z)
    : Result (Z * gmap Z Z * Adj * Adj * list Z * list (list Z * Z)) :=
  let* (V, ways, adj, radj, nodes) := solve_item1 edges source in
  let paths := enumerate_paths_dfs adj source V in
  (* the DFS reads [adj[source]] unless [source == V]; on the
     [defaultdict] returned by [solve_item1] this inserts [source: []]
     when the source is not a vertex (every other vertex it reads is) *)
  let adj := if decide (source = V) then adj else setdefault source [] adj in
  let paths_sorted := sorted_desc snd paths in
  Ok (V, ways, adj, radj, nodes, paths_sorted).

Definition solve_item3 (edges : list Edge) (source : Z) : Result InsertionResult :=
  propose_V_prime_insertion edges source None false.

Definition solve_item4 (edges : list Edge) (source : Z) : Result InsertionResult :=
  propose_V_prime_insertion edges source None false.

Definition solve_item5 (edges : list Edge) (source : Z) : Result InsertionResult :=
  propose_V_prime_insertion edges source None false.

Definition solve_item6 (edges : list Edge) (source : Z) : Result InsertionResult :=
  propose_V_prime_insertion edges source None true.

(** ** The driver *)

(** Which item [main] runs, with the value that item returns ([main]
    itself discards it after the item has printed it). *)
Inductive DriverRun :=
  | Ran1 (r : Result (Z * gmap Z Z * Adj * Adj * list Z))
  | Ran2 (r : Result (Z * gmap Z Z * Adj * Adj * list Z * list (list Z * Z)))
  | Ran3 (r : Result InsertionResult)
  | Ran4 (r : Result InsertionResult)
  | Ran5 (r : Result InsertionResult)
  | Ran6 (r : Result InsertionResult)
  | InvalidOption.   (* print("Opción no válida. Usa 1..5") *)

(** [option = int(sys.argv[1]) if len(sys.argv) > 1 else 1]; [args] is
    [sys.argv[1:]], already converted by [int]. *)
Definition main_option (args : list Z) : Z :=
  match args with o :: _ => o | [] => 1 end.

Definition main (args : list Z) : DriverRun :=
  let option := main_option args in
  if decide (option = 1) then Ran1 (solve_item1 EDGES SOURCE)
  else if decide (option = 2) then Ran2 (solve_item2 EDGES SOURCE)
  else if decide (option = 3) then Ran3 (solve_item3 EDGES SOURCE)
  else if decide (option = 4) then Ran4 (solve_item4 EDGES SOURCE)
  else if decide (option = 5) then Ran5 (solve_item5 EDGES SOURCE)
  else if decide (option = 6) then Ran6 (solve_item6 EDGES SOURCE)
  else InvalidOption.

(** ** Item 2 *)

(** C18: Item 2 returns the DFS's paths to [V], sorted by decreasing cost; paths
    of equal cost keep the order in which the DFS found them; there are
    [ways[V]] of them (spec 4.4).  The tables are those of item 1, the
    adjacency map possibly with the extra key [source] (no successors)
    left by the DFS's read of the [defaultdict]. *)
Theorem solve_item2_spec edges source V ways adj radj nodes ps :
  solve_item2 edges source = Ok (V, ways, adj, radj, nodes, ps) ->
  exists adj1, solve_item1 edges source = Ok (V, ways, adj1, radj, nodes) /\
  (forall u, adj_get adj u = adj_get adj1 u) /\
  (forall k, is_Some (adj !! k) <-> is_Some (adj1 !! k) \/ (k = source /\ source <> V)) /\
  ps ≡ₚ enumerate_paths_dfs adj1 source V /\
  Sorted (fun a b : list Z * Z => b.2 <= a.2) ps /\
  (forall c, filter (fun pc : list Z * Z => pc.2 = c) ps =
             filter (fun pc : list Z * Z => pc.2 = c) (enumerate_paths_dfs adj1 source V)) /\
  Z.of_nat (length ps) = get0 ways V.
Proof.
  unfold solve_item2. destruct (solve_item1 edges source) as [[[[[V0 w0] a0] r0] n0]|] eqn:H1;
    [cbn [bind]|done].
  intros [= <- <- <- <- <- <-]. exists a0.
  destruct (solve_item1_inv _ _ _ _ _ _ _ H1) as (order&Hb&Ht&->&_).
  split_and!; [done|intros u|intros k|apply sorted_desc_perm|apply sorted_desc_sorted|
    intros c; apply sorted_desc_stable|].
  { case_decide; [done|]. unfold adj_get. rewrite setdefault_lookup.
    case_decide; subst; [by destruct (a0 !! u)|done]. }
  { case_decide as Hs; [naive_solver|]. rewrite setdefault_lookup.
    case_decide; subst; [|naive_solver]. split; [naive_solver|done]. }
  rewrite (Permutation_length (sorted_desc_perm _ _)).
  destruct (topo_order_built edges a0 r0 n0 order Hb Ht) as (Hnd&Hlin&Hlen&_).
  pose proof (topo_order_TopoRank edges a0 r0 n0 order Hb Ht).
  rewrite (enumerate_pure edges source V0 a0 r0 n0 order Hb Ht),
    (dfs_paths_length edges); [|intros; by eapply build_graph_adj].
  rewrite (dfs_count_paths_count edges (fun v => index_in v order) (length order)) by lia.
  symmetry. by apply (count_paths_correct edges a0 n0 order source); [intros; eapply build_graph_adj|..].
Qed.

(** ** The contract on the dataset *)

Lemma solve_item2_spec_on_EDGES :
  exists V ways adj radj nodes ps,
  solve_item2 EDGES SOURCE = Ok (V, ways, adj, radj, nodes, ps) /\
  exists adj1, solve_item1 EDGES SOURCE = Ok (V, ways, adj1, radj, nodes) /\
  (forall u, adj_get adj u = adj_get adj1 u) /\
  (forall k, is_Some (adj !! k) <-> is_Some (adj1 !! k) \/ (k = SOURCE /\ SOURCE <> V)) /\
  ps ≡ₚ enumerate_paths_dfs adj1 SOURCE V /\
  Sorted (fun a b : list Z * Z => b.2 <= a.2) ps /\
  (forall c, filter (fun pc : list Z * Z => pc.2 = c) ps =
             filter (fun pc : list Z * Z => pc.2 = c) (enumerate_paths_dfs adj1 SOURCE V)) /\
  Z.of_nat (length ps) = get0 ways V.
Proof.
  destruct (solve_item2 EDGES SOURCE) as [[[[[[V ways] adj] radj] nodes] ps]|e] eqn:H;
    [|vm_compute in H; discriminate].
  exists V, ways, adj, radj, nodes, ps. split; [done|exact (solve_item2_spec _ _ _ _ _ _ _ _ H)].
Defined.

(** ** Runs on the dataset *)

(** [test_item2_paths_sorted_by_cost]: the ten paths to [V = 8] by
    decreasing cost, ties in the order of the search. *)
Example item2_on_EDGES :
  match solve_item2 EDGES SOURCE with
  | Ok (V, _, _, _, _, ps) =>
      V = 8 /\
      ps = [([0; 6; 7; 8], 13); ([0; 2; 4; 7; 8], 10); ([0; 2; 4; 3; 8], 7);
            ([0; 2; 4; 8], 7); ([0; 2; 3; 8], 3); ([0; 4; 7; 8], 2); ([0; 5; 7; 8], 2);
            ([0; 4; 3; 8], -1); ([0; 4; 8], -1); ([0; 5; 8], -2)]
  | Err _ => False
  end.
Proof. vm_compute. auto. Qed.

(** [test_item3_current_impl_marks_impossible]: under the strict policy
    the only allowed vertices are [0, 1, 2, 6], whose counts add up to
    [4 <= 10]. *)
Example item3_on_EDGES :
  solve_item3 EDGES SOURCE =
  Ok (Impossible {| inf_V := 8; inf_waysV := 10; inf_cap := 4;
                    inf_allowed := [0; 1; 2; 6]; inf_neighborsV := [3; 4; 5; 7] |}).
Proof. vm_compute. reflexivity. Qed.

(** [test_feasibility_if_V_allowed_as_parent] and item 6: allowing [V] as
    a parent, the planner links [8] and [0] to [V' = 9], which gets
    [11 > 10] paths and becomes the most reachable vertex. *)
Example item6_on_EDGES :
  solve_item6 EDGES SOURCE =
  Ok (Possible {| pr_V := 8; pr_waysV := 10; pr_V_prime := 9; pr_waysV_prime := 11;
                  pr_becomes_most_reachable := true; pr_neighborsV := [3; 4; 5; 7];
                  pr_allowed := [0; 1; 2; 6; 8]; pr_picked := [8; 0];
                  pr_insertion_edges := [(8, 9, 0); (0, 9, 0)] |}).
Proof. vm_compute. reflexivity. Qed.

(** With a source that is not a vertex, the adjacency map item 2
    returns carries the key [0] (with no successors) that the DFS's read
    [adj[0]] inserted into the [defaultdict]; no path reaches [V = 1]. *)
Example item2_source_outside_graph :
  match solve_item2 [(1, 2, 0)] 0 with
  | Ok (V, _, adj, _, _, ps) => V = 1 /\ ps = [] /\ adj !! 0 = Some []
  | Err _ => False
  end.
Proof. vm_compute. auto. Qed.

(** Parallel edges are separate paths (spec 3 and 4.3): with two
    edges [0 -> 1] of weights 0 and 5, [ways[1] = 2] and item 2 lists the
    vertex sequence [[0; 1]] twice, once per edge, by decreasing cost. *)
Example item2_parallel_edges :
  match solve_item2 [(0, 1, 0); (0, 1, 5)] 0 with
  | Ok (V, ways, _, _, _, ps) => V = 1 /\ get0 ways 1 = 2 /\ ps = [([0; 1], 5); ([0; 1], 0)]
  | Err _ => False
  end.
Proof. vm_compute. auto. Qed.

(** ** The driver's options *)

(** [main] runs an item exactly for the options 1 to 6, and without an
    argument it runs one (item 1); any other option prints the
    invalid-option message, which says "Usa 1..5" although option 6 is
    accepted. *)
Lemma main_options args :
  main args <> InvalidOption <->
  match args with [] => True | o :: _ => 1 <= o <= 6 end.
Proof.
  unfold main, main_option. destruct args as [|o args]; [split; done|]. split.
  - repeat (case_decide; [lia|]). done.
  - intros Hr. repeat (case_decide; [done|]). lia.
Qed.

(** Without arguments [main] runs item 1, and option 6 runs item 6's
    permissive planner on the dataset. *)
Example main_default_and_six :
  main [] = Ran1 (solve_item1 EDGES SOURCE) /\ main [6] = Ran6 (solve_item6 EDGES SOURCE).
Proof. split; reflexivity. Qed.
