(* ===== verification/Output.v ===== *)
(** * What the program prints

    The items of [src/low_level_problem.py] report through [print]; the
    values they return are modelled in [Insertion] and [Items], and this
    file models their standard output.  The output of a call is the list
    of the texts of its [print] calls, one string per call (the newline
    [print] appends is implicit, [nl] is a newline inside a text).

    Python's [str] of an [int] is stdpp's [pretty] on [Z] (decimal, with a
    leading [-] for negatives); [str] of a list, a tuple or a [bool] and
    the [repr] of the [ways] dictionary are written out below.  The
    dictionary prints its keys in insertion order, which a [gmap] does not
    keep: [ways_keys] gives that order from the code.

    Item 5 prints the edges to insert "in the input format" [{u, v, w}]:
    [parse_insertion_line] reads that format back, and the round trip
    [item5_output_roundtrip] shows the printed lines give back exactly the
    proposed edges.  [main_stdout] is the output of the driver for each
    option. *)

From Stdlib Require Import ZArith Lia Ascii.
From stdpp Require Import base list gmap strings pretty.
From S2P Require Import Prelude PyBuiltins Graph Walks Topo Reach PathCount Enumerate Insertion Items.

Local Open Scope Z_scope.

(** ** Python's [str] *)

(** [str(n)] of an [int]. *)
Definition py_str (n : Z) : string := pretty n.

(** [str(l)] of a list of [int]s, e.g. ["[0, 6, 7, 8]"]. *)
Definition py_str_list (l : list Z) : string :=
  "[" +:+ String.concat ", " (map py_str l) +:+ "]".

(** [str(e)] of an edge tuple, e.g. ["(8, 9, 0)"]. *)
Definition py_str_edge (e : Edge) : string :=
  "(" +:+ py_str (e_src e) +:+ ", " +:+ py_str (e_dst e) +:+ ", " +:+ py_str (e_w e) +:+ ")".

Definition py_str_bool (b : bool) : string := if b then "True" else "False".

(** The newline character, the [\n] of an f-string. *)
Definition nl : string := String "010"%char EmptyString.

(** ** Reading an [int] back *)

Definition is_digit (c : ascii) : bool :=
  (48 <=? nat_of_ascii c)%nat && (nat_of_ascii c <=? 57)%nat.

Definition digit_val (c : ascii) : N := N.of_nat (nat_of_ascii c - 48).

(** The longest prefix of digits, accumulated onto [acc] in base 10. *)
Fixpoint parse_digits (s : string) (acc : N) : N * string :=
  match s with
  | String c s' => if is_digit c then parse_digits s' (acc * 10 + digit_val c)%N else (acc, s)
  | EmptyString => (acc, EmptyString)
  end.

Definition starts_digit (s : string) : bool :=
  match s with String c _ => is_digit c | EmptyString => false end.

(** An optional [-] and at least one digit. *)
Definition parse_int (s : string) : option (Z * string) :=
  match s with
  | String c s' =>
      if Ascii.eqb c "-"%char then
        if starts_digit s' then let '(n, r) := parse_digits s' 0 in Some (- Z.of_N n, r)
        else None
      else if is_digit c then let '(n, r) := parse_digits s 0 in Some (Z.of_N n, r)
      else None
  | EmptyString => None
  end.

(** [lit] as a prefix of [s]: what follows it. *)
Fixpoint expect (lit s : string) : option string :=
  match lit, s with
  | EmptyString, _ => Some s
  | String c lit', String d s' => if Ascii.eqb c d then expect lit' s' else None
  | String _ _, EmptyString => None
  end.

(** ** The input format of an edge *)

(** [f"{{{u}, {v}, {w}}}"] of item 5. *)
Definition insertion_line (e : Edge) : string :=
  "{" +:+ py_str (e_src e) +:+ ", " +:+ py_str (e_dst e) +:+ ", " +:+ py_str (e_w e) +:+ "}".

Definition parse_insertion_line (s : string) : option Edge :=
  s1 ← expect "{" s; '(u, s2) ← parse_int s1; s3 ← expect ", " s2;
  '(v, s4) ← parse_int s3; s5 ← expect ", " s4; '(w, s6) ← parse_int s5;
  s7 ← expect "}" s6;
  if decide (s7 = EmptyString) then Some (u, v, w) else None.

(** ** The dictionary [ways] *)

(** The keys of [ways] in insertion order: [{n: 0 for n in nodes}] inserts
    the nodes in the order of [nodes], then [ways[source] = 1] appends the
    source when it is not a node; [ways[v] += ways[u]] only updates keys
    that exist ([ways_keys_spec]). *)
Definition ways_keys (nodes : list Z) (source : Z) : list Z :=
  if decide (source ∈ nodes) then nodes else nodes ++ [source].

(** One entry [k: v] of a dict's [repr]. *)
Definition dict_entry (k v : Z) : string := py_str k +:+ ": " +:+ py_str v.

(** [str(ways)], e.g. ["{0: 1, 1: 1}"]. *)
Definition py_str_ways (nodes : list Z) (source : Z) (ways : gmap Z Z) : string :=
  "{" +:+ String.concat ", " (map (fun k => dict_entry k (get0 ways k)) (ways_keys nodes source))
  +:+ "}".

(** ** What each item prints *)

(** [print("ways:", ways)] and the line naming [V]. *)
Definition item1_lines (source : Z) (nodes : list Z) (ways : gmap Z Z) (V : Z) : list string :=
  ["ways: " +:+ py_str_ways nodes source ways;
   "V más alcanzable desde " +:+ py_str source +:+ ": " +:+ py_str V +:+ " con " +:+
     py_str (get0 ways V) +:+ " caminos"].

(** The total, then [print(p, "costo =", c)] for each sorted path. *)
Definition item2_lines (V : Z) (paths_sorted : list (list Z * Z)) : list string :=
  (nl +:+ "Total caminos hacia V=" +:+ py_str V +:+ ": " +:+
     py_str (Z.of_nat (length paths_sorted)))
  :: map (fun pc => py_str_list pc.1 +:+ " costo = " +:+ py_str pc.2) paths_sorted.

(** The ["reason"] of an [Impossible] verdict. *)
Definition infeasible_reason (r : Infeasible) : string :=
  "No se puede cumplir (3.a) sin violar (3.b): " +:+
  "suma máxima de caminos desde nodos permitidos (" +:+ py_str (inf_cap r) +:+ ") " +:+
  "<= caminos a V (" +:+ py_str (inf_waysV r) +:+ ").".

(** The report of a [Possible] verdict, as items 3 and 6 print it. *)
Definition proposal_lines (p : Proposal) : list string :=
  ["V = " +:+ py_str (pr_V p) +:+ " con " +:+ py_str (pr_waysV p) +:+ " caminos";
   "Propuesta V' = " +:+ py_str (pr_V_prime p) +:+ "  (becomes_most_reachable=" +:+
     py_str_bool (pr_becomes_most_reachable p) +:+ ")";
   "Aristas a insertar (u, V', w=0):"] ++
  map py_str_edge (pr_insertion_edges p) ++
  ["Padres elegidos: " +:+ py_str_list (pr_picked p);
   "ways[V'] = " +:+ py_str (pr_waysV_prime p)].

Definition item3_lines (res : InsertionResult) : list string :=
  match res with
  | Impossible r =>
      [infeasible_reason r;
       "V: " +:+ py_str (inf_V r) +:+ "  caminos a V: " +:+ py_str (inf_waysV r);
       "N(V): " +:+ py_str_list (inf_neighborsV r);
       "Permitidos: " +:+ py_str_list (inf_allowed r);
       "Capacidad: " +:+ py_str (inf_cap r)]
  | Possible p => proposal_lines p
  end.

Definition item4_lines (res : InsertionResult) : list string :=
  match res with
  | Possible _ => ["En este grafo, (3.b) SÍ es posible. (Nada que reportar como error.)"]
  | Impossible r => [infeasible_reason r]
  end.

Definition item5_header : string := "Inserción de V' en formato de entrada {u, v, w}:".

Definition item5_lines (res : InsertionResult) : list string :=
  match res with
  | Impossible r => [infeasible_reason r]
  | Possible p => item5_header :: map insertion_line (pr_insertion_edges p)
  end.

Definition item6_lines (res : InsertionResult) : list string :=
  match res with
  | Impossible r => [infeasible_reason r]
  | Possible p => proposal_lines p
  end.

(** ** Calls that print *)

(** What a call prints with what it returns; an exception propagates and
    the items print only after their last call that can raise, so a
    raising call prints nothing. *)
Definition printing {A} (r : Result A) (out : A -> list string) : list string * Result A :=
  match r with Ok a => (out a, Ok a) | Err e => ([], Err e) end.

Definition solve_item1_io (edges : list Edge) (source : Z) :=
  printing (solve_item1 edges source)
    (fun '(V, ways, _, _, nodes) => item1_lines source nodes ways V).

(** Item 2 prints what item 1 prints, then its own lines. *)
Definition solve_item2_io (edges : list Edge) (source : Z) :=
  printing (solve_item2 edges source)
    (fun '(V, ways, _, _, nodes, ps) => item1_lines source nodes ways V ++ item2_lines V ps).

Definition solve_item3_io (edges : list Edge) (source : Z) :=
  printing (solve_item3 edges source) item3_lines.
Definition solve_item4_io (edges : list Edge) (source : Z) :=
  printing (solve_item4 edges source) item4_lines.
Definition solve_item5_io (edges : list Edge) (source : Z) :=
  printing (solve_item5 edges source) item5_lines.
Definition solve_item6_io (edges : list Edge) (source : Z) :=
  printing (solve_item6 edges source) item6_lines.

(** The standard output of [python low_level_problem.py args]. *)
Definition main_stdout (args : list Z) : list string :=
  match main args with
  | Ran1 _ => (solve_item1_io EDGES SOURCE).1
  | Ran2 _ => (solve_item2_io EDGES SOURCE).1
  | Ran3 _ => (solve_item3_io EDGES SOURCE).1
  | Ran4 _ => (solve_item4_io EDGES SOURCE).1
  | Ran5 _ => (solve_item5_io EDGES SOURCE).1
  | Ran6 _ => (solve_item6_io EDGES SOURCE).1
  | InvalidOption => ["Opción no válida. Usa 1..5"]
  end.

(** ** Printing and parsing numbers *)

Lemma pretty_N_char_digit d :
  (d < 10)%N -> is_digit (pretty_N_char d) = true /\ digit_val (pretty_N_char d) = d.
Proof.
  intros Hd. assert (d = 0 \/ d = 1 \/ d = 2 \/ d = 3 \/ d = 4 \/ d = 5 \/ d = 6 \/
    d = 7 \/ d = 8 \/ d = 9)%N as Hc by lia.
  destruct Hc as [->|[->|[->|[->|[->|[->|[->|[->|[->| ->]]]]]]]]]; split; reflexivity.
Qed.

Lemma pretty_N_go_app x s t : pretty_N_go x s +:+ t = pretty_N_go x (s +:+ t).
Proof.
  revert s. induction (N.lt_wf_0 x) as [x _ IH]; intros s.
  destruct (decide (x = 0)%N) as [->|Hx]; [done|].
  rewrite (pretty_N_go_step x s), (pretty_N_go_step x (s +:+ t)) by lia.
  rewrite IH by (apply N.div_lt; lia). done.
Qed.

Lemma pretty_N_go_starts x s : starts_digit s = true -> starts_digit (pretty_N_go x s) = true.
Proof.
  revert s. induction (N.lt_wf_0 x) as [x _ IH]; intros s Hs.
  destruct (decide (x = 0)%N) as [->|Hx]; [done|].
  rewrite pretty_N_go_step by lia. apply IH; [apply N.div_lt; lia|].
  apply pretty_N_char_digit, N.mod_lt. lia.
Qed.

(** Any reader that folds a digit [c] into its accumulator as
    [acc * 10 + c] reads the digits of [x] as [acc * 10 ^ k + x], [k] the
    number of digits. *)
Lemma fold_digits_pretty {T} (F : N -> string -> T)
    (HF : forall acc c s, is_digit c = true -> F acc (String c s) = F (acc * 10 + digit_val c)%N s)
    x s acc :
  exists k, F acc (pretty_N_go x s) = F (acc * 10 ^ k + x)%N s.
Proof.
  revert s acc. induction (N.lt_wf_0 x) as [x _ IH]; intros s acc.
  destruct (decide (x = 0)%N) as [->|Hx].
  { exists 0%N. rewrite pretty_N_go_0. f_equal. lia. }
  rewrite pretty_N_go_step by lia.
  destruct (IH (x `div` 10)%N ltac:(apply N.div_lt; lia)
    (String (pretty_N_char (x `mod` 10)) s) acc) as [k Hk].
  exists (N.succ k). rewrite Hk.
  destruct (pretty_N_char_digit (x `mod` 10)) as [Hd Hv]; [apply N.mod_lt; lia|].
  rewrite HF, Hv by done.
  f_equal. rewrite N.pow_succ_r'. pose proof (N.div_mod x 10 ltac:(lia)). nia.
Qed.

Lemma parse_digits_pretty x s acc :
  exists k, parse_digits (pretty_N_go x s) acc = parse_digits s (acc * 10 ^ k + x)%N.
Proof.
  apply (fold_digits_pretty (fun acc s => parse_digits s acc)).
  intros acc' c s' Hc. simpl. by rewrite Hc.
Qed.

Lemma parse_digits_stop s n : starts_digit s = false -> parse_digits s n = (n, s).
Proof. destruct s as [|c s]; simpl; [done|]. by intros ->. Qed.

Lemma parse_nat_pretty (n : N) rest :
  starts_digit rest = false ->
  starts_digit (pretty n +:+ rest) = true /\ parse_digits (pretty n +:+ rest) 0 = (n, rest).
Proof.
  intros Hr. unfold pretty, pretty_N. case_decide as Hn.
  - subst. simpl. by rewrite parse_digits_stop.
  - rewrite pretty_N_go_app. change ("" +:+ rest) with rest. split.
    + rewrite pretty_N_go_step by lia. apply pretty_N_go_starts.
      apply pretty_N_char_digit, N.mod_lt. lia.
    + destruct (parse_digits_pretty n rest 0) as [k ->]. by rewrite parse_digits_stop.
Qed.

Lemma starts_digit_head s : starts_digit s = true -> exists c s', s = String c s' /\ is_digit c = true.
Proof. destruct s as [|c s]; [done|]. eauto. Qed.

(** [str] of an [int] reads back as that [int], when no digit follows. *)
Lemma parse_int_py_str z rest :
  starts_digit rest = false -> parse_int (py_str z +:+ rest) = Some (z, rest).
Proof.
  intros Hr. destruct z as [|p|p].
  - simpl. by rewrite parse_digits_stop.
  - change (py_str (Zpos p)) with (pretty (Npos p)).
    destruct (parse_nat_pretty (Npos p) rest Hr) as [Hs Hp].
    destruct (starts_digit_head _ Hs) as (c&s'&Heq&Hc).
    unfold parse_int. rewrite Heq, Hc. destruct (Ascii.eqb c "-"%char) eqn:Hm.
    + apply Ascii.eqb_eq in Hm. subst c. discriminate Hc.
    + rewrite <- Heq, Hp. done.
  - change (py_str (Zneg p) +:+ rest) with (String "-"%char (pretty (Npos p) +:+ rest)).
    destruct (parse_nat_pretty (Npos p) rest Hr) as [Hs Hp].
    unfold parse_int. simpl (Ascii.eqb _ _). cbv iota. rewrite Hs, Hp. done.
Qed.

Lemma expect_app lit s : expect lit (lit +:+ s) = Some s.
Proof. induction lit as [|c lit IH]; [done|]. simpl. by rewrite Ascii.eqb_refl. Qed.

(** An edge printed in the input format reads back as that edge. *)
Lemma parse_insertion_line_roundtrip e : parse_insertion_line (insertion_line e) = Some e.
Proof.
  destruct e as [[u v] w]. unfold parse_insertion_line, insertion_line, e_src, e_dst, e_w.
  rewrite expect_app. cbn [mbind option_bind].
  rewrite parse_int_py_str by reflexivity. cbn [mbind option_bind].
  rewrite expect_app. cbn [mbind option_bind].
  rewrite parse_int_py_str by reflexivity. cbn [mbind option_bind].
  rewrite expect_app. cbn [mbind option_bind].
  rewrite parse_int_py_str by reflexivity. cbn [mbind option_bind].
  reflexivity.
Qed.

(** ** The printed dictionary *)

(** The dictionary that item 1 prints lists every key of [ways] once
    and nothing else: the node set plus the source. *)
Theorem ways_keys_spec E adj radj nodes order source :
  build_graph E = (adj, radj, nodes) ->
  NoDup (ways_keys nodes source) /\
  forall k, k ∈ ways_keys nodes source <->
    is_Some (count_paths_from_source adj nodes order source !! k).
Proof.
  intros Hb. pose proof (build_graph_NoDup _ _ _ _ Hb) as Hnd.
  unfold ways_keys. split.
  - case_decide; [done|]. apply NoDup_app. split_and!; [done| |apply NoDup_singleton].
    by intros x Hx ->%list_elem_of_singleton.
  - intros k. rewrite (built_ways_key _ _ _ _ _ _ _ Hb). case_decide; set_solver.
Qed.

(** ** Item 5 prints the edges in the input format *)

(** C27: When item 5 proposes an insertion, it prints a header and then one
    line per edge to insert, and reading those lines back in the input
    format [{u, v, w}] gives exactly the proposed edges, in order. *)
Theorem item5_output_roundtrip edges source out p :
  solve_item5_io edges source = (out, Ok (Possible p)) ->
  exists rest, out = item5_header :: rest /\
    map parse_insertion_line rest = map Some (pr_insertion_edges p).
Proof.
  unfold solve_item5_io, printing. destruct (solve_item5 edges source) as [res|e]; [|done].
  intros [= <- ->]. simpl. eexists. split; [done|].
  rewrite map_map. apply map_ext, parse_insertion_line_roundtrip.
Qed.

(** ** Witnesses *)

Lemma ways_keys_spec_on_EDGES :
  build_graph EDGES = ((build_graph EDGES).1.1, (build_graph EDGES).1.2, (build_graph EDGES).2) /\
  NoDup (ways_keys (build_graph EDGES).2 SOURCE) /\
  forall k, k ∈ ways_keys (build_graph EDGES).2 SOURCE <->
    is_Some (count_paths_from_source (build_graph EDGES).1.1 (build_graph EDGES).2
      [0; 1; 2; 5; 6; 4; 3; 7; 8] SOURCE !! k).
Proof. exact (conj EDGES_built (ways_keys_spec _ _ _ _ _ _ EDGES_built)). Defined.

(** A diamond with two more leaves under the source: the strict policy
    proposes [V' = 6] with the parents [0], [4] and [5]. *)
Lemma item5_output_roundtrip_on_leafy_diamond :
  exists out p,
    solve_item5_io [(0, 1, 0); (0, 2, 0); (1, 3, 0); (2, 3, 0); (0, 4, 0); (0, 5, 0)] 0 =
      (out, Ok (Possible p)) /\
    exists rest, out = item5_header :: rest /\
      map parse_insertion_line rest = map Some (pr_insertion_edges p).
Proof.
  destruct (solve_item5_io _ _) as [out [[r|p]|e]] eqn:Hio;
    [vm_compute in Hio; discriminate| |vm_compute in Hio; discriminate].
  exists out, p. split; [done|exact (item5_output_roundtrip _ _ _ _ Hio)].
Defined.
