(* ===== verification/Driver.v ===== *)
(** * The command line: [int(sys.argv[1])] and the program's run

    [main] reads its option with [int(sys.argv[1]) if len(sys.argv) > 1
    else 1].  [py_int] is Python's [int()] on a string, for ASCII input:
    surrounding whitespace, an optional sign, decimal digits with single
    underscores between them; anything else raises [ValueError]
    ([ValueError_int]).  [int_scan] reads the string in one pass, with
    the state of the literal's grammar ([ScanState]).  The Unicode digits
    and spaces that [int()] also accepts are outside this model.

    [program] is the whole run of [python low_level_problem.py argv...]:
    the option is converted, [main] runs, and the run prints
    [main_stdout] of [Output] unless [int()] raised first.
    [program_argv_cases] runs it on a few command lines. *)

From Stdlib Require Import ZArith Lia Ascii.
From stdpp Require Import base list gmap strings pretty.
From S2P Require Import Prelude Graph Items Output.

Local Open Scope Z_scope.

(** ** [int()] on a string *)

(** The ASCII characters [int()] skips around a literal: space, tab,
    newline, vertical tab, form feed, carriage return (not the separators
    [\x1c] to [\x1f], which [str.isspace()] accepts but [int()]
    rejects). *)
Definition is_py_space (c : ascii) : bool :=
  let n := nat_of_ascii c in (n =? 32)%nat || ((9 <=? n) && (n <=? 13))%nat.

Inductive ScanState := LeadWS | AfterSign | InDigits | AfterUnderscore | TrailWS.

(** One pass over [s]: [neg] is the sign read, [acc] the digits so far. *)
Fixpoint int_scan (st : ScanState) (neg : bool) (acc : N) (s : string) : option Z :=
  match s with
  | EmptyString =>
      match st with
      | InDigits | TrailWS => Some (if neg then - Z.of_N acc else Z.of_N acc)
      | _ => None
      end
  | String c s' =>
      match st with
      | LeadWS =>
          if is_py_space c then int_scan LeadWS neg acc s'
          else if Ascii.eqb c "-"%char then int_scan AfterSign true acc s'
          else if Ascii.eqb c "+"%char then int_scan AfterSign false acc s'
          else if is_digit c then int_scan InDigits neg (acc * 10 + digit_val c)%N s'
          else None
      | AfterSign | AfterUnderscore =>
          if is_digit c then int_scan InDigits neg (acc * 10 + digit_val c)%N s' else None
      | InDigits =>
          if is_digit c then int_scan InDigits neg (acc * 10 + digit_val c)%N s'
          else if Ascii.eqb c "_"%char then int_scan AfterUnderscore neg acc s'
          else if is_py_space c then int_scan TrailWS neg acc s'
          else None
      | TrailWS => if is_py_space c then int_scan TrailWS neg acc s' else None
      end
  end.

Definition py_int (s : string) : Result Z :=
  match int_scan LeadWS false 0 s with Some z => Ok z | None => Err ValueError_int end.

(** ** The run of the program *)

(** [sys.argv[1:]] converted as [main] does: only [sys.argv[1]] is read. *)
Definition main_args (argv : list string) : Result (list Z) :=
  match argv with
  | [] => Ok []
  | a :: _ => let* k := py_int a in Ok [k]
  end.

(** [python low_level_problem.py argv...]: what [main] runs, or the
    exception of [int()]. *)
Definition program (argv : list string) : Result DriverRun :=
  let* args := main_args argv in Ok (main args).

(** Its standard output: nothing when [int()] raises. *)
Definition program_stdout (argv : list string) : list string :=
  match main_args argv with Ok args => main_stdout args | Err _ => [] end.

(** ** Runs of the program *)

(** Without an argument the program runs item 1; a non-numeric argument
    makes [int()] raise before anything is printed; later arguments are
    ignored. *)
Example program_argv_cases :
  program [] = Ok (main []) /\
  program ["seis"] = Err ValueError_int /\ program_stdout ["seis"] = [] /\
  program [" 6 "; "x"] = Ok (main [6]).
Proof. split_and!; vm_compute; reflexivity. Qed.
