(* ===== verification/Tests.v ===== *)
(** * The unit tests of [src/tests/tests.py]

    [TestLowLevelProblem] builds a fixture in [setUp] (the dataset, its
    graph, topological order and path counts) and runs six test methods
    on it.  A test's [Outcome] is what [unittest] reports: it passes, an
    assertion fails, it is skipped, or it raises.  [setUp] is [setUp]
    below, on any edge list and source (the suite runs it on [EDGES],
    [SOURCE]); each method is a function of the fixture, written with the
    assertions of the source in their order: [check b k] is an assertion
    that stops the test with [Failed] when [b] is false, [catch r k] runs
    a call that may raise.  The dict reads [self.ways[V]] and [pos[u]] and
    the indexing [paths_sorted[0]] of the tests can raise [KeyError] and
    [IndexError], and are modelled so ([dict_get], [py_first], [py_last]).

    Beyond the run of the suite on the dataset ([unittest_main_passes]),
    [test_feasibility_passes] shows that the feasibility demonstration,
    the one test that builds a graph of its own, passes on every acyclic
    graph whose source is a vertex; the other tests restate theorems of
    the modules they call (the edge order of [Topo], the path count of
    [Enumerate]). *)

From Stdlib Require Import ZArith Lia.
From stdpp Require Import base list gmap strings.
From S2P Require Import Prelude PyBuiltins Graph Walks Topo Reach PathCount Enumerate Insertion Items Output.

Local Open Scope Z_scope.

(** ** Outcomes and assertions *)

Inductive Outcome : Type :=
  | Passed
  | Failed
  | Skipped
  | Raised (e : PyError).

#[export] Instance Outcome_eq_dec : EqDecision Outcome.
Proof. solve_decision. Defined.

(** [self.assertTrue(b)] and its variants: the rest of the test runs only
    when [b] holds. *)
Definition check (b : bool) (k : Outcome) : Outcome := if b then k else Failed.

(** A call that may raise: an exception ends the test with [Raised]. *)
Definition catch {A} (r : Result A) (k : A -> Outcome) : Outcome :=
  match r with Ok a => k a | Err e => Raised e end.

(** [d[k]] on a plain dict. *)
Definition dict_get {A} (m : gmap Z A) (k : Z) : Result A :=
  match m !! k with Some a => Ok a | None => Err (KeyError k) end.

(** [l[0]] and [l[-1]]. *)
Definition py_first {A} (l : list A) : Result A :=
  match l with a :: _ => Ok a | [] => Err IndexError end.
Definition py_last {A} (l : list A) : Result A :=
  match last l with Some a => Ok a | None => Err IndexError end.

(** [sub in s] on strings. *)
Definition py_in (sub s : string) : bool :=
  match String.index 0 sub s with Some _ => true | None => false end.

(** ** The fixture *)

Record Fixture := {
  fx_edges : list Edge; fx_source : Z; fx_adj : Adj; fx_radj : Adj;
  fx_nodes : list Z; fx_topo : list Z; fx_ways : gmap Z Z
}.

Definition setUp (edges : list Edge) (source : Z) : Result Fixture :=
  let '(adj, radj, nodes) := build_graph edges in
  let* topo := topo_order adj nodes in
  Ok {| fx_edges := edges; fx_source := source; fx_adj := adj; fx_radj := radj;
        fx_nodes := nodes; fx_topo := topo;
        fx_ways := count_paths_from_source adj nodes topo source |}.

(** [V = max(self.nodes, key=lambda n: self.ways[n])]; every node is a key
    of [ways], so [get0] reads as the dict does. *)
Definition fx_V (fx : Fixture) : Result Z := py_max_by (get0 (fx_ways fx)) (fx_nodes fx).

(** ** The tests *)

Definition expected_ways : gmap Z Z :=
  list_to_map [(0, 1); (1, 1); (2, 1); (3, 3); (4, 2); (5, 1); (6, 1); (7, 4); (8, 10)].

Definition test_item1_most_reachable (fx : Fixture) : Outcome :=
  catch (fx_V fx) (fun V =>
  check (bool_decide (V = 8)) (
  check (bool_decide (fx_ways fx = expected_ways)) Passed)).

(** [pos = {n: i for i, n in enumerate(self.topo)}]: a later position of
    [n] overwrites an earlier one. *)
Fixpoint enum_insert (i : Z) (l : list Z) (m : gmap Z Z) : gmap Z Z :=
  match l with
  | [] => m
  | n :: l' => enum_insert (i + 1) l' (<[n := i]> m)
  end.

Definition positions (topo : list Z) : gmap Z Z := enum_insert 0 topo ∅.

(** [for (u, v, _w) in self.edges: self.assertLess(pos[u], pos[v])] *)
Fixpoint check_edges (pos : gmap Z Z) (es : list Edge) : Outcome :=
  match es with
  | [] => Passed
  | e :: es' =>
      catch (dict_get pos (e_src e)) (fun pu =>
      catch (dict_get pos (e_dst e)) (fun pv =>
      check (bool_decide (pu < pv)) (check_edges pos es')))
  end.

Definition test_topological_order_is_valid (fx : Fixture) : Outcome :=
  check_edges (positions (fx_topo fx)) (fx_edges fx).

Definition test_item2_paths_sorted_by_cost (fx : Fixture) : Outcome :=
  catch (fx_V fx) (fun V =>
  let paths := enumerate_paths_dfs (fx_adj fx) (fx_source fx) V in
  catch (dict_get (fx_ways fx) V) (fun wV =>
  check (bool_decide (Z.of_nat (length paths) = wV)) (
  let paths_sorted := sorted_desc snd paths in
  let costs := map snd paths_sorted in
  check (bool_decide (costs = sorted_desc id costs)) (
  catch (py_first paths_sorted) (fun p0 =>
  check (bool_decide (p0.1 = [0; 6; 7; 8])) (
  catch (py_first paths_sorted) (fun p0' =>
  check (bool_decide (p0'.2 = 13)) (
  catch (py_last paths_sorted) (fun pl =>
  check (bool_decide (pl.1 = [0; 5; 8])) (
  catch (py_last paths_sorted) (fun pl' =>
  check (bool_decide (pl'.2 = -2)) Passed))))))))))).

Definition impossible_msg : string := "No se puede cumplir (3.a) sin violar (3.b)".

(** [assertIn("possible", res)] holds of both verdicts; a [Possible]
    verdict skips the rest. *)
Definition test_item3_current_impl_marks_impossible (fx : Fixture) : Outcome :=
  catch (propose_V_prime_insertion (fx_edges fx) (fx_source fx) None false) (fun res =>
  match res with
  | Possible _ => Skipped
  | Impossible r =>
      check (py_in impossible_msg (infeasible_reason r)) (
      check (bool_decide (inf_V r = 8)) (
      check (bool_decide (inf_waysV r = 10)) (
      check (bool_decide (list_to_set (inf_allowed r) = ({[0; 1; 2; 6]} : gset Z))) Passed)))
  end).

Definition test_feasibility_if_V_allowed_as_parent (fx : Fixture) : Outcome :=
  catch (fx_V fx) (fun V =>
  catch (py_max_by id (fx_nodes fx)) (fun m =>
  let vprime := m + 1 in
  let edges2 := fx_edges fx ++ [(V, vprime, 0); (fx_source fx, vprime, 0)] in
  let '(adj2, radj2, nodes2) := build_graph edges2 in
  catch (topo_order adj2 nodes2) (fun order2 =>
  let ways2 := count_paths_from_source adj2 nodes2 order2 (fx_source fx) in
  catch (dict_get ways2 vprime) (fun w2 =>
  catch (dict_get (fx_ways fx) V) (fun wV =>
  check (bool_decide (wV < w2)) Passed))))).

Definition test_item4_impossible_on_custom_graph (fx : Fixture) : Outcome :=
  catch (propose_V_prime_insertion custom_edges 0 None false) (fun res =>
  match res with
  | Possible _ => Failed
  | Impossible r => check (py_in impossible_msg (infeasible_reason r)) Passed
  end).

Definition test_num_paths_dp_matches_dfs_to_V (fx : Fixture) : Outcome :=
  catch (fx_V fx) (fun V =>
  let paths := enumerate_paths_dfs (fx_adj fx) (fx_source fx) V in
  catch (dict_get (fx_ways fx) V) (fun wV =>
  check (bool_decide (Z.of_nat (length paths) = wV)) Passed)).

(** ** The suite *)

Definition tests : list (string * (Fixture -> Outcome)) :=
  [("test_item1_most_reachable", test_item1_most_reachable);
   ("test_topological_order_is_valid", test_topological_order_is_valid);
   ("test_item2_paths_sorted_by_cost", test_item2_paths_sorted_by_cost);
   ("test_item3_current_impl_marks_impossible", test_item3_current_impl_marks_impossible);
   ("test_feasibility_if_V_allowed_as_parent", test_feasibility_if_V_allowed_as_parent);
   ("test_item4_impossible_on_custom_graph", test_item4_impossible_on_custom_graph);
   ("test_num_paths_dp_matches_dfs_to_V", test_num_paths_dp_matches_dfs_to_V)].

(** [setUp] runs before each test; its exception is the test's. *)
Definition run_test (edges : list Edge) (source : Z) (t : Fixture -> Outcome) : Outcome :=
  catch (setUp edges source) t.

Definition run_suite (edges : list Edge) (source : Z) : list (string * Outcome) :=
  map (fun nt => (nt.1, run_test edges source nt.2)) tests.

(** [unittest.main()]: the suite on the module's dataset. *)
Definition unittest_main : list (string * Outcome) := run_suite EDGES SOURCE.

(** ** Facts the tests rest on *)

Lemma setUp_Ok edges source fx :
  setUp edges source = Ok fx ->
  build_graph edges = (fx_adj fx, fx_radj fx, fx_nodes fx) /\
  topo_order (fx_adj fx) (fx_nodes fx) = Ok (fx_topo fx) /\
  fx_edges fx = edges /\ fx_source fx = source /\
  fx_ways fx = count_paths_from_source (fx_adj fx) (fx_nodes fx) (fx_topo fx) source.
Proof.
  unfold setUp. destruct (build_graph edges) as [[adj radj] nodes] eqn:Hb.
  destruct (topo_order adj nodes) as [topo|e] eqn:Ht; [|done].
  intros [= <-]. simpl. auto.
Qed.

Lemma dict_get_present (m : gmap Z Z) k : is_Some (m !! k) -> dict_get m k = Ok (get0 m k).
Proof. intros [v Hv]. unfold dict_get, get0. by rewrite Hv. Qed.

(** ** The suite on the dataset *)

(** [python -m unittest tests]: on the module's dataset every test of
    the suite passes; none fails, raises or is skipped (the strict policy
    makes the challenge graph infeasible, so item 3's test runs to the
    end). *)
Example unittest_main_passes :
  unittest_main =
    [("test_item1_most_reachable", Passed);
     ("test_topological_order_is_valid", Passed);
     ("test_item2_paths_sorted_by_cost", Passed);
     ("test_item3_current_impl_marks_impossible", Passed);
     ("test_feasibility_if_V_allowed_as_parent", Passed);
     ("test_item4_impossible_on_custom_graph", Passed);
     ("test_num_paths_dp_matches_dfs_to_V", Passed)].
Proof. vm_compute. reflexivity. Qed.

(** ** The tests on every input *)

(** [V] is a node, and a key of [ways]. *)
Lemma fx_V_key edges source fx V :
  setUp edges source = Ok fx -> fx_V fx = Ok V ->
  V ∈ fx_nodes fx /\ dict_get (fx_ways fx) V = Ok (get0 (fx_ways fx) V).
Proof.
  intros Hs HV. destruct (setUp_Ok _ _ _ Hs) as (Hb&_&_&_&Hw).
  destruct (py_max_by_Ok _ _ _ HV) as (Hin&_). split; [done|].
  apply dict_get_present. rewrite Hw. apply (built_ways_key edges _ _ _ _ _ _ Hb). by right.
Qed.

(** C26: The feasibility demonstration of the tests passes on every acyclic
    graph whose source is a vertex: with the edges [V -> V'] and
    [source -> V'] added, [V' = max(nodes) + 1] is a fresh sink with
    [ways[V] + 1] paths, and the augmented graph stays acyclic. *)
Theorem test_feasibility_passes edges source fx :
  setUp edges source = Ok fx -> fx_source fx ∈ fx_nodes fx ->
  test_feasibility_if_V_allowed_as_parent fx = Passed.
Proof.
  intros Hs Hsrc. pose proof (setUp_Ok _ _ _ Hs) as (Hb&Ht&He&Hso&Hw).
  rewrite Hso in Hsrc. unfold test_feasibility_if_V_allowed_as_parent.
  destruct (py_max_by_elem (get0 (fx_ways fx)) _ _ Hsrc) as [V HV].
  destruct (fx_V_key _ _ _ _ Hs HV) as [HVn HgetV].
  destruct (py_max_by_elem id _ _ Hsrc) as [m Hm].
  unfold fx_V in *. rewrite HV, Hm. cbn [catch].
  rewrite He, Hso. change [(V, m + 1, 0); (source, m + 1, 0)]
    with (map (fun u => (u, m + 1, 0)) [V; source]).
  destruct (build_graph (edges ++ _)) as [[adj2 radj2] nodes2] eqn:Hb2.
  assert (Hpar : forall u, u ∈ [V; source] -> u ∈ endpoints edges).
  { intros u Hu. apply (build_graph_nodes _ _ _ _ _ Hb). set_solver. }
  assert (Hfresh : m + 1 ∉ endpoints edges)
    by (intros H; exact (default_id_fresh _ _ _ _ _ _ Hb Hm H eq_refl)).
  assert (Hsvp : source <> m + 1)
    by (apply (default_id_fresh _ _ _ _ _ _ Hb Hm), Hpar; set_solver).
  destruct (topo_order_built _ _ _ _ _ Hb Ht) as (Hnd&Hlin&_&Hord).
  destruct (sink_linear edges (fx_topo fx) (m + 1) [V; source] Hnd Hlin) as [Hnd2 Hlin2].
  { rewrite Hord, (build_graph_nodes _ _ _ _ _ Hb). done. }
  { intros u Hu. by apply Hord, (build_graph_nodes _ _ _ _ _ Hb), Hpar. }
  destruct (build_topo_complete _ _ _ _ _ Hb2 Hnd2 Hlin2) as [order2 Ht2].
  rewrite Ht2. cbn [catch]. rewrite dict_get_present.
  2:{ apply (built_ways_key _ _ _ _ _ _ _ Hb2). right.
      apply (build_graph_nodes _ _ _ _ _ Hb2). rewrite endpoints_app, elem_of_app, endpoints_sink.
      right. right. done. }
  cbn [catch]. rewrite HgetV. cbn [catch]. unfold check. rewrite bool_decide_true; [done|].
  rewrite (sink_ways _ _ _ _ _ _ _ _ _ _ _ _ Hb Ht Hb2 Ht2 Hfresh Hsvp Hpar).
  unfold sink_counts. rewrite decide_True by done. simpl. rewrite Hw.
  rewrite (ways_source _ _ _ _ _ _ Hb Ht). lia.
Qed.

(** When the source is not a vertex but equals [max(nodes) + 1], the
    test's edge [(source, vprime, 0)] is a self-loop and [topo_order]
    raises: on the dataset with source [9]. *)
Example test_feasibility_source_is_new_id :
  run_test EDGES 9 test_feasibility_if_V_allowed_as_parent = Raised ValueError_cycle.
Proof. vm_compute. reflexivity. Qed.

(** ** On the dataset *)

Lemma test_feasibility_passes_on_EDGES :
  exists fx, setUp EDGES SOURCE = Ok fx /\ fx_source fx ∈ fx_nodes fx /\
    test_feasibility_if_V_allowed_as_parent fx = Passed.
Proof.
  destruct (setUp EDGES SOURCE) as [fx|e] eqn:Hs; [|vm_compute in Hs; discriminate].
  assert (Hsrc : fx_source fx ∈ fx_nodes fx).
  { pose proof Hs as Hs'. vm_compute in Hs'. injection Hs' as <-.
    apply (bool_decide_unpack _). vm_compute. exact I. }
  exists fx. split_and!; [done|done|exact (test_feasibility_passes _ _ _ Hs Hsrc)].
Defined.
